(** * selfdriving: TP-space RRT* planner and its PTGs

    Shallow embedding of
    - [libselfdriving/src/ptgs/DiffDrive_C.cpp]
    - [libselfdriving/src/ptgs/HolonomicBlend.cpp]
    - [libselfdriving/src/TPS_RRTstar.cpp]
    - [libselfdriving/include/selfdriving/data/SE2_KinState.h]

    Conventions of the embedding.
    - A C++ [double] is an ideal real number of [R]: the rounding of
      double arithmetic, NaN, infinities and signed zeros are not
      represented, and a quotient by zero, infinite in C++, lies outside
      the embedding.  An explicit narrowing cast [(float)] of a double is
      the rounding to the nearest single-precision number, [to_float];
      the coordinates a points map stores are real numbers.
    - Integers are [Z]; a value stored into a fixed-width unsigned variable
      goes through [to_uint16] / [to_uint32].
    - An MRPT assertion ([ASSERT_], [ASSERT_GE_], ...) or a C++ [throw]
      is the [Throw] outcome of the [Result] monad; a C++ function that
      reports failure with a [bool] and fills out-parameters returns an
      [option] of the out-parameters.
    - Logging, profiling timers and debug scene files have no counterpart. *)

From Stdlib Require Import Reals Lra Lia ZArith List Bool Psatz Sorted.
From Stdlib Require Import String.
Import ListNotations.

Open Scope R_scope.

(* ================================================================= *)
(** ** C++ substrate: comparisons on doubles, exceptions, integers   *)
(* ================================================================= *)

Definition Rltb (x y : R) : bool := if Rlt_dec x y then true else false.
Definition Rleb (x y : R) : bool := if Rle_dec x y then true else false.
Definition Reqb (x y : R) : bool := if Req_dec_T x y then true else false.

Notation "x <? y" := (Rltb x y) : R_scope.
Notation "x <=? y" := (Rleb x y) : R_scope.
Notation "x >? y" := (Rltb y x) : R_scope.
Notation "x >=? y" := (Rleb y x) : R_scope.
Notation "x =? y" := (Reqb x y) : R_scope.

(** Outcome of a C++ call that may throw. *)
Inductive exn : Type :=
| AssertionFailed (what : string)
| RuntimeError (what : string)
| OutOfRange (what : string).

Inductive Result (A : Type) : Type :=
| Ok (a : A)
| Throw (e : exn).
Arguments Ok {A} a.
Arguments Throw {A} e.

Definition bind {A B} (m : Result A) (f : A -> Result B) : Result B :=
  match m with
  | Ok a => f a
  | Throw e => Throw e
  end.

Notation "x <- m ;; k" := (bind m (fun x => k))
  (at level 61, m at next level, right associativity).
Notation "' p <- m ;; k" := (bind m (fun x => let p := x in k))
  (at level 61, p pattern, m at next level, right associativity).
Notation "m ;;; k" := (bind m (fun _ => k))
  (at level 61, right associativity).

(** [ASSERT_(cond)]: throws when the condition is false. *)
Definition ASSERT_ (what : string) (cond : bool) : Result unit :=
  if cond then Ok tt else Throw (AssertionFailed what).

Definition to_uint16 (z : Z) : Z := (z mod 65536)%Z.
Definition to_uint32 (z : Z) : Z := (z mod 4294967296)%Z.

(** A value stored into a 32-bit [int]. *)
Definition to_int32 (z : Z) : Z :=
  ((z + 2147483648) mod 4294967296 - 2147483648)%Z.

(** [std::vector<int>::assign (n, v)]. *)
Definition vector_assign (n : Z) (v : Z) : list Z := repeat v (Z.to_nat n).

(** [v[i] = x] through the unchecked [operator[]]; an index beyond the
    size, undefined in C++, leaves the list as it is. *)
Fixpoint vector_set (v : list Z) (i : nat) (x : Z) : list Z :=
  match v, i with
  | [], _ => []
  | _ :: r, O => x :: r
  | y :: r, S j => y :: vector_set r j x
  end.

(* ================================================================= *)
(** ** MRPT / libm functions used by the sources                     *)
(* ================================================================= *)

Module mrpt.

(** [mrpt::sign]: "Returns the sign of X as 1 or -1". *)
Definition sign (x : R) : Z := if x <? 0 then (-1)%Z else 1%Z.

(** [mrpt::signWithZero]: "Returns the sign of X as 0, 1 or -1". *)
Definition signWithZero (x : R) : Z := if x =? 0 then 0%Z else sign x.

Definition square (x : R) : R := x * x.

Definition keep_max (var val : R) : R := if val >? var then val else var.
Definition keep_min (var val : R) : R := if val <? var then val else var.

(** [lrint] in the default rounding mode: nearest integer, ties to even. *)
Definition lrint (x : R) : Z :=
  let f := Zfloor x in
  let r := x - IZR f in
  if r <? 1 / 2 then f
  else if r >? 1 / 2 then (f + 1)%Z
  else if Z.even f then f else (f + 1)%Z.

(** [mrpt::round]: [lrint] as an [int]; the value is meaningful while it
    fits the 32-bit [int]. *)
Definition round (x : R) : Z := lrint x.

(** Conversion of a double to an unsigned integer: truncation. *)
Definition trunc (x : R) : Z := if x <? 0 then Zceil x else Zfloor x.

(** libm [fmod]: [x - y * trunc (x / y)]. *)
Definition fmod (x y : R) : R := x - y * IZR (trunc (x / y)).

(** libm [atan2 y x], from [atan] by quadrant. *)
Definition atan2 (y x : R) : R :=
  if x >? 0 then atan (y / x)
  else if x <? 0 then
         if y >=? 0 then atan (y / x) + PI else atan (y / x) - PI
  else if y >? 0 then PI / 2
  else if y <? 0 then - (PI / 2)
  else 0.

(** [mrpt::math::wrapTo2PiInPlace]. *)
Definition wrapTo2Pi (a : R) : R :=
  let was_neg := a <? 0 in
  let a := fmod a (2 * PI) in
  if was_neg then a + 2 * PI else a.

(** [mrpt::math::wrapToPi]. *)
Definition wrapToPi (a : R) : R := wrapTo2Pi (a + PI) - PI.

(** [CParameterizedTrajectoryGenerator::index2alpha (k, num_paths)]. *)
Definition index2alpha (k num_paths : Z) : Result R :=
  ASSERT_ "k < num_paths" (k <? num_paths)%Z ;;;
  Ok (PI * (-1 + 2 * (IZR k + 0.5) / IZR num_paths)).

(** [CParameterizedTrajectoryGenerator::alpha2index (alpha, num_paths)]. *)
Definition alpha2index (alpha : R) (num_paths : Z) : Z :=
  let alpha := wrapToPi alpha in
  let k := round (0.5 * (IZR num_paths * (1 + alpha / PI) - 1)) in
  let k := if (k <? 0)%Z then 0%Z else k in
  let k := if (k >=? num_paths)%Z then (num_paths - 1)%Z else k in
  to_uint16 k.

End mrpt.

(** The cast [(float) x] of a double: the nearest number with a 24-bit
    significand and a binary exponent of at least -126, ties going to
    the even significand (IEEE 754 binary32, round to nearest even).
    [float_exponent x] is the exponent of the binade of [x],
    [float_ulp x] the spacing of the single-precision numbers there.
    Overflow, beyond 2^128, is not represented. *)
Definition float_exponent (x : R) : Z :=
  Z.max (Zfloor (ln (Rabs x) / ln 2)) (-126).

Definition float_ulp (x : R) : R := powerRZ 2 (float_exponent x - 23).

Definition to_float (x : R) : R :=
  if x =? 0 then 0
  else IZR (mrpt.lrint (x / float_ulp x)) * float_ulp x.

(* ================================================================= *)
(** ** DiffDrive_C.cpp                                               *)
(* ================================================================= *)

Module DiffDrive_C.

(** The data members read by [inverseMap_WS2TP]; all but [K] are
    inherited from the PTG base classes. *)
Record t : Type := mk {
  V_MAX : R;
  W_MAX : R;
  turningRadiusReference : R;
  refDistance : R;
  m_alphaValuesCount : Z;
  K : R
}.

(** State of the locals [R], [theta], [d_out], [is_exact], [a] of the
    [y != 0] branch, kept apart so that the theorems can name them. *)
Definition Rarc (x y : R) : R := (x * x + y * y) / (2 * y).
Definition Rmin (p : t) : R := Rabs (V_MAX p / W_MAX p).

Definition theta_raw (p : t) (x y : R) : R :=
  let R := Rarc x y in
  if K p >? 0 then
    if y >? 0 then mrpt.atan2 x (Rabs R - y) else mrpt.atan2 x (y + Rabs R)
  else
    if y >? 0 then mrpt.atan2 (- x) (Rabs R - y)
    else mrpt.atan2 (- x) (y + Rabs R).

Definition PTG_IsIntoDomain (p : t) (x y : R) : bool := true.

(** [DiffDrive_C::inverseMap_WS2TP]: returns [(k_out, d_out, is_exact)].
    The two casts [(float)] of the branch [y != 0] are kept.  With
    [W_MAX = 0] the source computes with an infinite [Rmin]; the
    properties of that branch are stated for [W_MAX <> 0]. *)
Definition inverseMap_WS2TP (p : t) (x y : R) : Result (Z * R * bool) :=
  let '(k_out, d_out, is_exact) :=
    if negb (y =? 0) then
      let R := Rarc x y in
      let Rmin := Rmin p in
      let theta := theta_raw p x y in
      (* Arc length must be positive [0,2*pi] *)
      let theta := mrpt.wrapTo2Pi theta in
      (* Distance thru arc: *)
      let d_out := to_float (theta * (Rabs R + turningRadiusReference p)) in
      let '(is_exact, R) :=
        if Rabs R <? Rmin then (false, Rmin * IZR (mrpt.sign R))
        else (true, R) in
      let a := PI * V_MAX p / (W_MAX p * R) in
      let k_out := mrpt.alpha2index (to_float a) (m_alphaValuesCount p) in
      (k_out, d_out, is_exact)
    else
      if (mrpt.sign x =? mrpt.sign (K p))%Z then
        (mrpt.alpha2index 0 (m_alphaValuesCount p), x, true)
      else
        ((m_alphaValuesCount p - 1)%Z, 1000, false) in
  (* Normalize: *)
  let d_out := d_out / refDistance p in
  ASSERT_ "k_out >= 0" (k_out >=? 0)%Z ;;;
  ASSERT_ "k_out < m_alphaValuesCount" (k_out <? m_alphaValuesCount p)%Z ;;;
  Ok (k_out, d_out, is_exact).

End DiffDrive_C.

(* ================================================================= *)
(** ** MRPT geometry and the PTG dynamic state                       *)
(* ================================================================= *)

Module TPose2D.
Record t : Type := mk { x : R; y : R; phi : R }.

(** [operator==]: exact comparison, the heading compared modulo 2 pi. *)
Definition eqb (p1 p2 : t) : bool :=
  (x p1 =? x p2) && (y p1 =? y p2) &&
  (mrpt.wrapTo2Pi (phi p1) =? mrpt.wrapTo2Pi (phi p2)).

(** [operator+]: pose composition. *)
Definition compose (a b : t) : t :=
  let A_cosphi := cos (phi a) in
  let A_sinphi := sin (phi a) in
  mk (x a + x b * A_cosphi - y b * A_sinphi)
     (y a + x b * A_sinphi + y b * A_cosphi)
     (mrpt.wrapToPi (phi a + phi b)).

(** [inverseComposePoint]: a global point seen from the pose. *)
Definition inverseComposePoint (p : t) (g : R * R) : R * R :=
  let Ax := fst g - x p in
  let Ay := snd g - y p in
  let ccos := cos (phi p) in
  let ssin := sin (phi p) in
  (Ax * ccos + Ay * ssin, - Ax * ssin + Ay * ccos).

Definition norm (p : t) : R := sqrt (x p * x p + y p * y p).
End TPose2D.

Module TTwist2D.
Record t : Type := mk { vx : R; vy : R; omega : R }.

Definition rotate (v : t) (ang : R) : t :=
  mk (vx v * cos ang - vy v * sin ang)
     (vx v * sin ang + vy v * cos ang)
     (omega v).
End TTwist2D.

(** [mrpt::poses::CPose2D], as far as the planner uses it. *)
Module CPose2D.
Record t : Type := mk { x : R; y : R; phi : R }.

Definition of_TPose2D (p : TPose2D.t) : t :=
  mk (TPose2D.x p) (TPose2D.y p) (TPose2D.phi p).

(** Unary [operator-]: the inverse pose. *)
Definition inverse (p : t) : t :=
  let ccos := cos (phi p) in
  let ssin := sin (phi p) in
  mk (- x p * ccos - y p * ssin) (x p * ssin - y p * ccos) (- phi p).

Definition composePoint (p : t) (lx ly : R) : R * R :=
  (x p + lx * cos (phi p) - ly * sin (phi p),
   y p + lx * sin (phi p) + ly * cos (phi p)).
End CPose2D.

(** [CParameterizedTrajectoryGenerator::TNavDynamicState]. *)
Record TNavDynamicState : Type := mkNavDynamicState {
  curVelLocal : TTwist2D.t;
  relTarget : TPose2D.t;
  targetRelSpeed : R
}.

(** [mrpt::kinematics::CVehicleVelCmd_Holo]: the four fields
    [directionToMotionCommand] fills. *)
Module CVehicleVelCmd_Holo.
Record t : Type := mk {
  vel : R;        (* speed (m/s) *)
  dir_local : R;  (* direction, relative to the current heading (rad) *)
  ramp_time : R;  (* blending time between current and target speeds *)
  rot_speed : R   (* (rad/s) rotational speed towards the direction *)
}.
End CVehicleVelCmd_Holo.

(* ================================================================= *)
(** ** HolonomicBlend.cpp                                            *)
(* ================================================================= *)

Module HolonomicBlend.

Definition PATH_TIME_STEP : R := 10 / 1000.  (* 10e-3: 10 ms *)
Definition eps : R := 1 / 10000.             (* 1e-4 *)

(** The symbol table registered by [internal_construct_exprs]; a compiled
    expression is a function of the values of these variables. *)
Record ExprVars : Type := mkExprVars {
  trimmable_speed : R;
  dir : R;
  target_dir : R;
  target_dist : R;
  var_V_MAX : R;
  var_W_MAX : R;
  var_T_ramp_max : R;
  target_x : R;
  target_y : R;
  target_phi : R;
  var_vxi : R;
  var_vyi : R;
  var_wi : R;
  target_rel_speed : R
}.

(** Data members of the PTG object. *)
Record t : Type := mk {
  T_ramp_max : R;
  V_MAX : R;
  W_MAX : R;
  turningRadiusReference : R;
  refDistance : R;
  m_alphaValuesCount : Z;
  m_robotRadius : R;
  trimmableSpeed_ : R;
  m_expr_v : ExprVars -> R;
  m_expr_w : ExprVars -> R;
  m_nav_dyn_state : TNavDynamicState;
  m_expr_target_dir : R;
  m_expr_target_dist : R
}.

(** The variable values seen by [m_expr_v.eval()] / [m_expr_w.eval()]
    once [m_expr_dir] has been set to [d]. *)
Definition expr_vars (p : t) (d : R) : ExprVars :=
  let nds := m_nav_dyn_state p in
  mkExprVars (trimmableSpeed_ p) d (m_expr_target_dir p)
    (m_expr_target_dist p) (V_MAX p) (W_MAX p) (T_ramp_max p)
    (TPose2D.x (relTarget nds)) (TPose2D.y (relTarget nds))
    (TPose2D.phi (relTarget nds))
    (TTwist2D.vx (curVelLocal nds)) (TTwist2D.vy (curVelLocal nds))
    (TTwist2D.omega (curVelLocal nds)) (targetRelSpeed nds).

(** One pass of the trapezoid loop; the state is [(t, d, feval_t)]. *)
Fixpoint trapezoid_loop (n : nat) (At a b c : R) (st : R * R * R)
  : Result R :=
  let '(t, d, feval_t) := st in
  match n with
  | O => Ok d
  | S n' =>
      (* Eval function at t+1: *)
      let t := t + At in
      let dd := a * t * t + b * t + c in
      (* handle numerical innacuracies near t=T_ramp: *)
      ASSERT_ "dd > -1e-5" (dd >? - (1 / 100000)) ;;;
      let dd := if dd <? 0 then 0 else dd in
      let feval_tp1 := sqrt dd in
      (* Trapezoidal rule: *)
      let d := d + At * (feval_t + feval_tp1) * 0.5 in
      trapezoid_loop n' At a b c (t, d, feval_tp1)
  end.

Definition NUM_STEPS : nat := 20.

(** Numeric integration of [sqrt(a*t^2+b*t+c)] for [t=[0,T]]. *)
Definition calc_trans_distance_t_below_Tramp_abc_numeric
  (T a b c : R) : Result R :=
  ASSERT_ "a >= .0" (a >=? 0) ;;;
  ASSERT_ "c >= .0" (c >=? 0) ;;;
  let feval_t := sqrt c in
  let At := T / INR NUM_STEPS in
  trapezoid_loop NUM_STEPS At a b c (0, 0, feval_t).

Definition calc_trans_distance_t_below_Tramp_abc
  (t a b c : R) : Result R :=
  calc_trans_distance_t_below_Tramp_abc_numeric t a b c.

Definition calc_trans_distance_t_below_Tramp
  (k2 k4 vxi vyi t : R) : Result R :=
  let c := vxi * vxi + vyi * vyi in
  if (Rabs k2 >? eps) || (Rabs k4 >? eps) then
    let a := (k2 * k2) * 4 + (k4 * k4) * 4 in
    let b := k2 * vxi * 4 + k4 * vyi * 4 in
    (* Numerically-ill case: b=c=0 (initial vel=0) *)
    if (Rabs b <? eps) && (Rabs c <? eps) then
      let int_t := sqrt a * (t * t) * 0.5 in
      Ok int_t
    else
      calc_trans_distance_t_below_Tramp_abc t a b c
  else
    Ok (sqrt c * t).

Record InternalParams : Type := mkInternalParams {
  T_ramp : R;
  vf : R;
  wf : R;
  vxi : R;
  vyi : R;
  vxf : R;
  vyf : R
}.

Definition internal_params_from_dir_and_dynstate (p : t) (d : R)
  : InternalParams :=
  let vf := Rabs (m_expr_v p (expr_vars p d)) in
  mkInternalParams
    (T_ramp_max p)
    vf
    (IZR (mrpt.signWithZero d) * Rabs (m_expr_w p (expr_vars p d)))
    (TTwist2D.vx (curVelLocal (m_nav_dyn_state p)))
    (TTwist2D.vy (curVelLocal (m_nav_dyn_state p)))
    (vf * cos d)
    (vf * sin d).

Definition internal_getPathDist (p : t) (step : Z) (T_ramp vxf vyf : R)
  : Result R :=
  let t := PATH_TIME_STEP * IZR step in
  let TR2_ := 1 / (2 * T_ramp) in
  let vxi := TTwist2D.vx (curVelLocal (m_nav_dyn_state p)) in
  let vyi := TTwist2D.vy (curVelLocal (m_nav_dyn_state p)) in
  let k2 := (vxf - vxi) * TR2_ in
  let k4 := (vyf - vyi) * TR2_ in
  if t <? T_ramp then calc_trans_distance_t_below_Tramp k2 k4 vxi vyi t
  else
    d <- calc_trans_distance_t_below_Tramp k2 k4 vxi vyi T_ramp ;;
    Ok ((t - T_ramp) * V_MAX p + d).

Definition getPathDist (p : t) (k step : Z) : Result R :=
  dir <- mrpt.index2alpha k (m_alphaValuesCount p) ;;
  let pp := internal_params_from_dir_and_dynstate p dir in
  internal_getPathDist p step (T_ramp pp) (vxf pp) (vyf pp).

(** The Newton iteration of case 3 of [getPathStepForDist]. *)
Fixpoint newton_step_for_dist (iters : nat) (a b c dist t_solved : R)
  : Result R :=
  match iters with
  | O => Ok t_solved
  | S n =>
      d <- calc_trans_distance_t_below_Tramp_abc t_solved a b c ;;
      let err := d - dist in
      let diff := sqrt (a * t_solved * t_solved + b * t_solved + c) in
      ASSERT_ "std::abs(diff) > 1e-40"
        (Rabs diff >? / 10 ^ 40) ;;;
      let t_solved := t_solved - err / diff in
      let t_solved := if t_solved <? 0 then 0 else t_solved in
      if Rabs err <? 1 / 1000 then Ok t_solved  (* Good enough! *)
      else newton_step_for_dist n a b c dist t_solved
  end.

(** [HolonomicBlend::getPathStepForDist]: [Some out_step] on [true]. *)
Definition getPathStepForDist (p : t) (k : Z) (dist : R)
  : Result (option Z) :=
  dir <- mrpt.index2alpha k (m_alphaValuesCount p) ;;
  let pp := internal_params_from_dir_and_dynstate p dir in
  let TR2_ := 1 / (2 * T_ramp pp) in
  let k2 := (vxf pp - vxi pp) * TR2_ in
  let k4 := (vyf pp - vyi pp) * TR2_ in
  (* Solution within  t >= T_ramp ?? *)
  dist_trans_T_ramp <-
    calc_trans_distance_t_below_Tramp k2 k4 (vxi pp) (vyi pp) (T_ramp pp) ;;
  t_solved <-
    (if dist >=? dist_trans_T_ramp then
       (* Good solution: *)
       Ok (T_ramp pp + (dist - dist_trans_T_ramp) / V_MAX p)
     else
       if (Rabs k2 <? eps) && (Rabs k4 <? eps) then
         (* Case 1 *)
         Ok (dist / V_MAX p)
       else
         let a := (k2 * k2) * 4 + (k4 * k4) * 4 in
         let b := k2 * vxi pp * 4 + k4 * vyi pp * 4 in
         let c := vxi pp * vxi pp + vyi pp * vyi pp in
         if (Rabs b <? eps) && (Rabs c <? eps) then
           (* Case 2: *)
           Ok (sqrt 2 * 1 / Rpower a (1 / 4) * sqrt dist)
         else
           (* Case 3: general case with non-linear equation *)
           newton_step_for_dist 10 a b c dist (T_ramp pp * 0.6)) ;;
  if t_solved >=? 0 then
    Ok (Some (to_uint32 (mrpt.round (t_solved / PATH_TIME_STEP))))
  else Ok None.

(** Fixed-size vectors and matrices of the Newton solver. *)
Record Vec4 : Type := mkVec4 { v0 : R; v1 : R; v2 : R; v3 : R }.
Record Mat44 : Type := mkMat44 { r0 : Vec4; r1 : Vec4; r2 : Vec4; r3 : Vec4 }.

Definition vsub (a b : Vec4) : Vec4 :=
  mkVec4 (v0 a - v0 b) (v1 a - v1 b) (v2 a - v2 b) (v3 a - v3 b).
Definition vnorm (a : Vec4) : R :=
  sqrt (v0 a * v0 a + v1 a * v1 a + v2 a * v2 a + v3 a * v3 a).

Section InverseMap.

(** [CMatrixFixed::lu_solve] (Eigen's partial-pivoting LU): an external
    total function, whatever it returns for a singular Jacobian. *)
Variable lu_solve : Mat44 -> Vec4 -> Vec4.

Definition REL_SPEED_TO_CONSIDER_REACH_AND_STOP : R := 0.10 * 1.05.
Definition err_threshold : R := 1 / 1000.

(** Body of the loop of [inverseMap_WS2TP_with_Tramp]: from [q] to the
    updated [q] and [sol_found]. *)
Definition newton_body (p : t) (x y : R) (q : Vec4) : Vec4 * bool :=
  let vxi := TTwist2D.vx (curVelLocal (m_nav_dyn_state p)) in
  let vyi := TTwist2D.vy (curVelLocal (m_nav_dyn_state p)) in
  let t := v0 q in
  let vxf := v1 q in
  let vyf := v2 q in
  let alpha := mrpt.atan2 vyf vxf in
  let lambda_vel := fun d => Rabs (m_expr_v p (expr_vars p d)) in
  let V_MAXsq := mrpt.square (lambda_vel alpha) in
  let stopAtTarget :=
    V_MAXsq <? mrpt.square REL_SPEED_TO_CONSIDER_REACH_AND_STOP in
  let T_ramp := v3 q in
  let TR_ := 1 / T_ramp in
  let TR2_ := 1 / (2 * T_ramp) in
  (* Eval residual: *)
  let r :=
    mkVec4
      (if t >=? T_ramp
       then 0.5 * T_ramp * (vxi + vxf) + (t - T_ramp) * vxf - x
       else vxi * t + t * t * TR2_ * (vxf - vxi) - x)
      (if t >=? T_ramp
       then 0.5 * T_ramp * (vyi + vyf) + (t - T_ramp) * vyf - y
       else vyi * t + t * t * TR2_ * (vyf - vyi) - y)
      (vxf * vxf + vyf * vyf - V_MAXsq)
      (if stopAtTarget then T_ramp - t else 0) in
  (* Jacobian: q=[t vxf vyf T_r] *)
  let J :=
    if t >=? T_ramp then
      mkMat44
        (mkVec4 vxf (0.5 * T_ramp + t) 0
                (if stopAtTarget then 0.5 * (vxi - vxf) else 0))
        (mkVec4 vyf 0 (0.5 * T_ramp + t)
                (if stopAtTarget then 0.5 * (vyi - vyf) else 0))
        (mkVec4 0 (2 * vxf) (2 * vyf) 0)
        (mkVec4 (if stopAtTarget then -1 else 0) 0 0 1)
    else
      mkMat44
        (mkVec4 (vxi + t * TR_ * (vxf - vxi)) (TR2_ * t * t) 0
                (if stopAtTarget then - t * t * TR2_ * (vxf - vxi) else 0))
        (mkVec4 (vyi + t * TR_ * (vyf - vyi)) 0 (TR2_ * t * t)
                (if stopAtTarget then - t * t * TR2_ * (vyf - vyi) else 0))
        (mkVec4 0 (2 * vxf) (2 * vyf) 0)
        (mkVec4 (if stopAtTarget then -1 else 0) 0 0 1) in
  (* without S.A.T. the prescribed ramp time is written back into q *)
  let q :=
    if stopAtTarget then q
    else mkVec4 (v0 q) (v1 q) (v2 q) (T_ramp_max p) in
  let q_incr := lu_solve J r in
  let q := vsub q q_incr in
  let err_mod := vnorm r in
  (q, err_mod <? err_threshold).

(** [for (int iters = 0; !sol_found && iters < 25; iters++)]. *)
Fixpoint newton_loop (iters : nat) (p : t) (x y : R) (q : Vec4)
  : Vec4 * bool :=
  match iters with
  | O => (q, false)
  | S n =>
      let '(q', sol_found) := newton_body p x y q in
      if sol_found then (q', true) else newton_loop n p x y q'
  end.

(** [HolonomicBlend::inverseMap_WS2TP_with_Tramp]: on [true] the
    out-parameters [(out_k, out_d, out_T_ramp)]. *)
Definition inverseMap_WS2TP_with_Tramp (p : t) (x y : R)
  : Result (option (Z * R * R)) :=
  ASSERT_ "x != 0 || y != 0" (negb (x =? 0) || negb (y =? 0)) ;;;
  (* Initial value: [t vxf vyf T_r] *)
  let q :=
    mkVec4 (T_ramp_max p * 1.1)
           (V_MAX p * x / sqrt (x * x + y * y))
           (V_MAX p * y / sqrt (x * x + y * y))
           (T_ramp_max p) in
  let '(q, sol_found) := newton_loop 25 p x y q in
  if sol_found && (v0 q >=? 0) then
    let alpha := mrpt.atan2 (v2 q) (v1 q) in
    let out_k := mrpt.alpha2index alpha (m_alphaValuesCount p) in
    let out_T_ramp := v3 q in
    let t := v0 q in
    let vxf := v1 q in
    let vyf := v2 q in
    let solved_t := t in
    let solved_step := to_uint32 (mrpt.trunc (solved_t / PATH_TIME_STEP)) in
    found_dist <- internal_getPathDist p solved_step out_T_ramp vxf vyf ;;
    let out_d := found_dist / refDistance p in
    Ok (Some (out_k, out_d, out_T_ramp))
  else
    Ok None.

Definition inverseMap_WS2TP (p : t) (x y : R) : Result (option (Z * R)) :=
  r <- inverseMap_WS2TP_with_Tramp p x y ;;
  Ok (match r with
      | Some (out_k, out_d, _) => Some (out_k, out_d)
      | None => None
      end).

(** [HolonomicBlend::PTG_IsIntoDomain]: the [bool] of [inverseMap_WS2TP]. *)
Definition PTG_IsIntoDomain (p : t) (x y : R) : Result bool :=
  r <- inverseMap_WS2TP p x y ;;
  Ok (match r with Some _ => true | None => false end).

End InverseMap.

(** [HolonomicBlend::directionToMotionCommand]. *)
Definition directionToMotionCommand (p : t) (k : Z)
  : Result CVehicleVelCmd_Holo.t :=
  dir_local <- mrpt.index2alpha k (m_alphaValuesCount p) ;;
  let pp := internal_params_from_dir_and_dynstate p dir_local in
  Ok (CVehicleVelCmd_Holo.mk (vf pp) dir_local (T_ramp pp) (wf pp)).

(** [HolonomicBlend::getPathStepCount].  The [mutable] member
    [m_pathStepCountCache], a vector of [int] declared in the header, is
    passed in and handed back with the count; a call that throws has not
    touched it. *)
Definition getPathStepCount (p : t) (m_pathStepCountCache : list Z) (k : Z)
  : Result (Z * list Z) :=
  if (Z.of_nat (List.length m_pathStepCountCache) >? k)%Z &&
     (nth (Z.to_nat k) m_pathStepCountCache 0 >? 0)%Z
  then Ok (nth (Z.to_nat k) m_pathStepCountCache 0%Z, m_pathStepCountCache)
  else
    r <- getPathStepForDist p k (refDistance p) ;;
    match r with
    | None =>
        Throw (RuntimeError "Could not solve closed-form distance for k")
    | Some step =>
        ASSERT_ "step > 0" (step >? 0)%Z ;;;
        let m_pathStepCountCache :=
          if negb (Z.of_nat (List.length m_pathStepCountCache)
                   =? m_alphaValuesCount p)%Z
          then vector_assign (m_alphaValuesCount p) (-1)
          else m_pathStepCountCache in
        Ok (step, vector_set m_pathStepCountCache (Z.to_nat k) (to_int32 step))
    end.

(** [HolonomicBlend::maxTimeInVelCmdNOP]; [path_k] is an [int], narrowed
    to the [uint16_t] parameter of [getPathStepCount]. *)
Definition maxTimeInVelCmdNOP (p : t) (m_pathStepCountCache : list Z)
  (path_k : Z) : Result (R * list Z) :=
  r <- getPathStepCount p m_pathStepCountCache (to_uint16 path_k) ;;
  let nSteps := fst r in
  (* leave room for obstacle detection ahead when we are far down the
     predicted PTG path *)
  let max_t := PATH_TIME_STEP * (IZR nSteps * 0.7) in
  Ok (max_t, snd r).

Definition supportVelCmdNOP (p : t) : bool := true.
Definition getPathStepDuration (p : t) : R := PATH_TIME_STEP.

(** [HolonomicBlend::internal_initialize]: the sanity checks on the
    parameters, then [m_pathStepCountCache.clear()].  Compiling the
    expressions yields the functions [m_expr_v], [m_expr_w] the object
    holds. *)
Definition internal_initialize (p : t) (m_pathStepCountCache : list Z)
  : Result (list Z) :=
  ASSERT_ "T_ramp_max > 0" (T_ramp_max p >? 0) ;;;
  ASSERT_ "V_MAX > 0" (V_MAX p >? 0) ;;;
  ASSERT_ "W_MAX > 0" (W_MAX p >? 0) ;;;
  ASSERT_ "m_alphaValuesCount > 0" (m_alphaValuesCount p >? 0)%Z ;;;
  ASSERT_ "m_robotRadius > 0" (m_robotRadius p >? 0) ;;;
  Ok [].

(** The object with other values of [m_expr_target_dir] and
    [m_expr_target_dist]. *)
Definition with_target (p : t) (target_dir target_dist : R) : t :=
  mk (T_ramp_max p) (V_MAX p) (W_MAX p) (turningRadiusReference p)
     (refDistance p) (m_alphaValuesCount p) (m_robotRadius p)
     (trimmableSpeed_ p) (m_expr_v p) (m_expr_w p) (m_nav_dyn_state p)
     target_dir target_dist.

(** [HolonomicBlend::onNewNavDynamicState]: the object and its step cache
    as the call leaves them, and whether it returned or threw.
    [m_nav_dyn_state_target_k] and the constant [INVALID_PTG_PATH_INDEX]
    belong to the PTG base class. *)
Definition onNewNavDynamicState (p : t)
  (m_nav_dyn_state_target_k INVALID_PTG_PATH_INDEX : Z)
  : t * list Z * Result unit :=
  (* mark as invalid *)
  let m_pathStepCountCache := vector_assign (m_alphaValuesCount p) (-1) in
  let target_dist := TPose2D.norm (relTarget (m_nav_dyn_state p)) in
  (* Are we approaching a target with a slow-down condition? *)
  if negb (m_nav_dyn_state_target_k =? INVALID_PTG_PATH_INDEX)%Z then
    match mrpt.index2alpha m_nav_dyn_state_target_k (m_alphaValuesCount p) with
    | Ok target_dir =>
        (with_target p target_dir target_dist, m_pathStepCountCache, Ok tt)
    | Throw e =>
        (with_target p 0 (m_expr_target_dist p), m_pathStepCountCache,
         Throw e)
    end
  else (with_target p 0 target_dist, m_pathStepCountCache, Ok tt).

Section PathPose.

(** [mrpt::math::solve_poly2 (a, b, c, r1, r2)], defined in MRPT: the
    number of real roots it reports and the out-parameters [r1], [r2]. *)
Variable solve_poly2 : R -> R -> R -> Z * R * R.

(** [HolonomicBlend::getPathPose].  Where the source divides by [_.wf]
    and that is zero, the quotient, infinite or not a number in C++, is
    the real quotient here; the position does not depend on it. *)
Definition getPathPose (p : t) (k step : Z) : Result TPose2D.t :=
  let t := PATH_TIME_STEP * IZR step in
  dir <- mrpt.index2alpha k (m_alphaValuesCount p) ;;
  let pp := internal_params_from_dir_and_dynstate p dir in
  let TR2_ := 1 / (2 * T_ramp pp) in
  (* Translational part: *)
  let px :=
    if t <? T_ramp pp
    then vxi pp * t + t * t * TR2_ * (vxf pp - vxi pp)
    else T_ramp pp * 0.5 * (vxi pp + vxf pp) + (t - T_ramp pp) * vxf pp in
  let py :=
    if t <? T_ramp pp
    then vyi pp * t + t * t * TR2_ * (vyf pp - vyi pp)
    else T_ramp pp * 0.5 * (vyi pp + vyf pp) + (t - T_ramp pp) * vyf pp in
  (* Rotational part: *)
  let wi := TTwist2D.omega (curVelLocal (m_nav_dyn_state p)) in
  let pphi :=
    if t <? T_ramp pp then
      (* Time required to align completed? *)
      let a := TR2_ * (wf pp - wi) in
      let b := wi in
      let c := - dir in
      let '(nroots, r1, r2) := solve_poly2 a b c in
      if negb (nroots =? 2)%Z then 0  (* typical case: wi=wf=0 *)
      else
        let t_solve := if r1 <? r2 then r2 else r1 in
        if t >? t_solve then dir
        else wi * t + t * t * TR2_ * (wf pp - wi)
    else
      (* Time required to align completed? *)
      let t_solve :=
        (dir - T_ramp pp * 0.5 * (wi + wf pp)) / wf pp + T_ramp pp in
      if t >? t_solve then dir
      else T_ramp pp * 0.5 * (wi + wf pp) + (t - T_ramp pp) * wf pp in
  Ok (TPose2D.mk px py pphi).

End PathPose.

End HolonomicBlend.

(* ================================================================= *)
(** ** Containers: [std::map] on node ids, [std::multimap] on doubles *)
(* ================================================================= *)

(** [std::map<TNodeID, V>]: an association list kept in key order, so
    that iterating it visits the keys in ascending order. *)
Module StdMap.
Section WithValue.
Context {V : Type}.

Definition t := list (nat * V).

Fixpoint find (k : nat) (m : t) : option V :=
  match m with
  | [] => None
  | (k', v) :: r => if Nat.eqb k k' then Some v else find k r
  end.

(** [m[k] = v]. *)
Fixpoint insert (k : nat) (v : V) (m : t) : t :=
  match m with
  | [] => [(k, v)]
  | (k', v') :: r =>
      if Nat.ltb k k' then (k, v) :: m
      else if Nat.eqb k k' then (k, v) :: r
      else (k', v') :: insert k v r
  end.

Definition size (m : t) : nat := List.length m.

(** [m.at(k)]: throws [std::out_of_range] on a missing key. *)
Definition at_ (m : t) (k : nat) : Result V :=
  match find k m with
  | Some v => Ok v
  | None => Throw (OutOfRange "map::at")
  end.

(** Dense keys: the keys are exactly the ids below the size. *)
Definition dense (m : t) : Prop :=
  forall k, find k m <> None <-> (k < size m)%nat.

End WithValue.
Arguments t V : clear implicits.
End StdMap.

(** [std::multimap<double, V>]: ordered by key; an entry whose key is
    already present goes after the entries with that key. *)
Module StdMultimap.
Section WithValue.
Context {V : Type}.

Definition t := list (R * V).

Fixpoint emplace (k : R) (v : V) (m : t) : t :=
  match m with
  | [] => [(k, v)]
  | (k', v') :: r =>
      if k <? k' then (k, v) :: m else (k', v') :: emplace k v r
  end.

Definition empty (m : t) : bool :=
  match m with [] => true | _ => false end.

(** Order of iteration: an entry is visited before those of larger or
    equal key. *)
Definition key_le (a b : R * V) : Prop := fst a <= fst b.

Definition ascending (m : t) : Prop := StronglySorted key_le m.

End WithValue.
Arguments t V : clear implicits.
End StdMultimap.

(** [std::vector::at]. *)
Definition vector_at {A} (v : list A) (i : nat) : Result A :=
  match nth_error v i with
  | Some a => Ok a
  | None => Throw (OutOfRange "vector::at")
  end.

(* ================================================================= *)
(** ** Planner data: states, tree, PTG interface, input and output   *)
(* ================================================================= *)

(** [SE2_KinState.h]. *)
Record SE2_KinState : Type := mkKinState {
  pose : TPose2D.t;   (* global pose (x,y,phi) *)
  vel : TTwist2D.t    (* global velocity (vx,vy,omega) *)
}.

(** Node ids and PTG indices ([uint64_t], [size_t]) index containers:
    natural numbers. *)
Definition TNodeID := nat.
Definition ptg_index_t := nat.
Definition trajectory_index_t := Z.
Definition distance_t := R.
Definition cost_t := R.
Definition TPoint2D := (R * R)%type.

(** [PoseOrPoint] of [SE2_KinState.h]: a [std::variant] of nothing, a
    pose or a point.  [std::get] on another alternative throws
    [std::bad_variant_access]: the accessor has no value then. *)
Module PoseOrPoint.

Inductive t : Type :=
| monostate
| of_pose (p : TPose2D.t)
| of_point (p : TPoint2D).

(** [PoseOrPoint() = default]. *)
Definition default : t := monostate.

(** [data_.index()]. *)
Definition index (v : t) : nat :=
  match v with monostate => 0 | of_pose _ => 1 | of_point _ => 2 end.

Definition isEmpty (v : t) : bool := Nat.eqb (index v) 0.
Definition isPose (v : t) : bool := Nat.eqb (index v) 1.
Definition isPoint (v : t) : bool := Nat.eqb (index v) 2.

Definition pose (v : t) : option TPose2D.t :=
  match v with of_pose p => Some p | _ => None end.

Definition point (v : t) : option TPoint2D :=
  match v with of_point p => Some p | _ => None end.

End PoseOrPoint.

(** [MoveEdgeSE2_TPS], with the fields [plan] fills. *)
Record MoveEdgeSE2_TPS : Type := mkEdge {
  parentId : TNodeID;
  ptgIndex : ptg_index_t;
  ptgPathIndex : trajectory_index_t;
  ptgDist : distance_t;
  ptgSpeedScale : R;
  stateFrom : SE2_KinState;
  stateTo : SE2_KinState;
  cost : cost_t;
  interpolatedPath : option (list TPose2D.t)
}.

Definition set_cost (e : MoveEdgeSE2_TPS) (c : cost_t) : MoveEdgeSE2_TPS :=
  mkEdge (parentId e) (ptgIndex e) (ptgPathIndex e) (ptgDist e)
         (ptgSpeedScale e) (stateFrom e) (stateTo e) c (interpolatedPath e).

(** Modelled from the spec: the motion tree [MotionPrimitivesTreeSE2],
    whose class is declared outside the given sources.  Section 3 and 4.4
    of the specification: a node holds its kinematic state, its
    cost-to-come (root = 0) and its optional parent; edges are keyed by
    the child [NodeId]; ids are dense, a new id is the number of nodes;
    inserting a child gives it the cost-to-come of its parent plus the
    cost of the edge. *)
Module MotionPrimitivesTreeSE2.

Record node_t : Type := mkNode {
  state : SE2_KinState;
  cost_ : cost_t;
  parentID_ : option TNodeID
}.

Record t : Type := mk {
  root : TNodeID;
  nodes : StdMap.t node_t;
  edges_to_children : StdMap.t MoveEdgeSE2_TPS
}.

Definition empty : t := mk 0%nat [] [].

Definition next_free_node_ID (tr : t) : TNodeID := StdMap.size (nodes tr).

Definition set_root (tr : t) (id : TNodeID) : t :=
  mk id (nodes tr) (edges_to_children tr).

Definition insert_root_node (tr : t) (id : TNodeID) (s : SE2_KinState) : t :=
  mk (root tr) (StdMap.insert id (mkNode s 0 None) (nodes tr))
     (edges_to_children tr).

Definition clear_edges (tr : t) : t := mk (root tr) (nodes tr) [].

Definition insert_node_and_edge (tr : t) (parent_id new_child_id : TNodeID)
  (new_child_node_data : SE2_KinState) (new_edge_data : MoveEdgeSE2_TPS)
  : Result t :=
  parentNode <- StdMap.at_ (nodes tr) parent_id ;;
  let newNode :=
    mkNode new_child_node_data
           (cost_ parentNode + cost new_edge_data) (Some parent_id) in
  Ok (mk (root tr)
         (StdMap.insert new_child_id newNode (nodes tr))
         (StdMap.insert new_child_id new_edge_data (edges_to_children tr))).

End MotionPrimitivesTreeSE2.
Import MotionPrimitivesTreeSE2.

(** The virtual interface [ptg_t] of a PTG object, as far as the planner
    calls it.  The object holds the dynamic state last given to
    [updateNavDynamicState]; every query is a function of that state,
    passed here as the first argument. *)
Record ptg_t : Type := mkPtg {
  getRefDistance : R;
  getAlphaValuesCount : Z;
  initTPObstacleSingle : TNavDynamicState -> Z -> R -> Result R;
  updateTPObstacleSingle :
    TNavDynamicState -> R -> R -> Z -> R -> Result R;
  getPathStepForDist : TNavDynamicState -> Z -> R -> Result (option Z);
  getPathPose : TNavDynamicState -> Z -> Z -> Result TPose2D.t;
  getPathTwist : TNavDynamicState -> Z -> Z -> Result TTwist2D.t;
  isPointInsideRobotShape : R -> R -> bool
}.

(** [TrajectoriesAndRobotShape]: the PTG objects and whether they have
    been initialized. *)
Record TrajectoriesAndRobotShape : Type := mkTrs {
  ptgs : list ptg_t;
  initialized : bool
}.

Record PlannerInput : Type := mkInput {
  stateStart : SE2_KinState;
  stateGoal : SE2_KinState;
  worldBboxMin : TPose2D.t;
  worldBboxMax : TPose2D.t;
  obstacles : list TPoint2D;       (* in.obstacles->obstacles() *)
  pi_ptgs : TrajectoriesAndRobotShape
}.

Record PlannerOutput : Type := mkOutput {
  originalInput : option PlannerInput;
  motionTree : MotionPrimitivesTreeSE2.t;
  success : bool
}.

(** Modelled from the spec: a default-constructed [PlannerOutput] (its
    declaration is outside the given sources) has an empty tree and
    [success = false]. *)
Definition PlannerOutput_default : PlannerOutput :=
  mkOutput None MotionPrimitivesTreeSE2.empty false.

Record TPS_RRTstar_Parameters : Type := mkParams {
  initialSearchRadius : R;
  maxIterations : nat;
  goalBias : R;
  drawInTPS : bool;
  minStepLength : R;
  maxStepLength : R;
  renderPathInterpolatedSegments : nat;
  saveDebugVisualizationDecimation : nat
}.

(** An entry of [local_obstacles_cache_]. *)
Record LocalObstaclesInfo : Type := mkLocalObs {
  globalNodePose : TPose2D.t;
  obs : list TPoint2D
}.

(* ================================================================= *)
(** ** TPS_RRTstar.cpp                                               *)
(* ================================================================= *)

(** What the planner calls but is defined outside the given sources:
    the process-wide random generator of MRPT, the k-d tree query of the
    obstacle map, [selfdriving::obstaclePointCollides] and the
    [PoseDistanceMetric<SE2_KinState>] built on a PTG (which reads the
    current dynamic state of that PTG). *)
Record Externals : Type := mkExternals {
  Rng : Type;
  drawUniform : Rng -> R -> R -> R * Rng;
  drawUniform32bit : Rng -> Z * Rng;
  kdTreeClosestPoint2D : list TPoint2D -> TPoint2D -> Result TPoint2D;
  obstaclePointCollides : TPoint2D -> TrajectoriesAndRobotShape -> bool;
  cannotBeNearerThan :
    ptg_t -> TNavDynamicState -> SE2_KinState -> TPose2D.t -> R -> bool;
  distance :
    ptg_t -> TNavDynamicState -> SE2_KinState -> TPose2D.t ->
    Result (option (distance_t * trajectory_index_t))
}.

Module TPS_RRTstar.

Definition within_bbox (p max min : TPose2D.t) : bool :=
  (TPose2D.x p <? TPose2D.x max) && (TPose2D.y p <? TPose2D.y max) &&
  (TPose2D.phi p <? TPose2D.phi max) &&
  (TPose2D.x p >? TPose2D.x min) && (TPose2D.y p >? TPose2D.y min) &&
  (TPose2D.phi p >? TPose2D.phi min).

(** The loop of [transform_pc_square_clipping] over the points buffer. *)
Fixpoint clipping_loop (inMap : list TPoint2D) (asSeenFrom invPose : CPose2D.t)
  (MAX_DIST_XY : R) : list TPoint2D :=
  match inMap with
  | [] => []
  | (gx, gy) :: rest =>
      if (Rabs (gx - CPose2D.x asSeenFrom) >? MAX_DIST_XY) ||
         (Rabs (gy - CPose2D.y asSeenFrom) >? MAX_DIST_XY)
      then (* ignore this obstacle *)
        clipping_loop rest asSeenFrom invPose MAX_DIST_XY
      else
        CPose2D.composePoint invPose gx gy
          :: clipping_loop rest asSeenFrom invPose MAX_DIST_XY
  end.

(** [TPS_RRTstar::transform_pc_square_clipping]: the new content of
    [outMap], which is cleared first. *)
Definition transform_pc_square_clipping (inMap : list TPoint2D)
  (asSeenFrom : CPose2D.t) (MAX_DIST_XY : R) : list TPoint2D :=
  let invPose := CPose2D.inverse asSeenFrom in
  clipping_loop inMap asSeenFrom invPose MAX_DIST_XY.

Fixpoint tp_obstacles_loop (localObstacles : list TPoint2D)
  (tp_space_k_direction : trajectory_index_t) (ptg : ptg_t)
  (st : TNavDynamicState) (out_TPObstacle_k : R) : Result R :=
  match localObstacles with
  | [] => Ok out_TPObstacle_k
  | (ox, oy) :: rest =>
      out <- updateTPObstacleSingle ptg st ox oy tp_space_k_direction
               out_TPObstacle_k ;;
      tp_obstacles_loop rest tp_space_k_direction ptg st out
  end.

(** [TPS_RRTstar::tp_obstacles_single_path]; [st] is the dynamic state
    the PTG object holds at the call. *)
Definition tp_obstacles_single_path
  (tp_space_k_direction : trajectory_index_t)
  (localObstacles : list TPoint2D) (ptg : ptg_t) (st : TNavDynamicState)
  : Result distance_t :=
  (* Init obs ranges: *)
  out <- initTPObstacleSingle ptg st tp_space_k_direction 0 ;;
  tp_obstacles_loop localObstacles tp_space_k_direction ptg st out.

Definition cost_path_segment (edge : MoveEdgeSE2_TPS) : cost_t :=
  ptgDist edge.

Definition closest_nodes_list_t :=
  StdMultimap.t (TNodeID * ptg_index_t * trajectory_index_t * distance_t).

Section Planner.

Variable X : Externals.

(** The mutable state a call works on: the planner's obstacle cache, the
    dynamic state held by each PTG object of the input (by PTG index) and
    the random generator. *)
Record World : Type := mkWorld {
  local_obstacles_cache_ : StdMap.t LocalObstaclesInfo;
  ptg_state : ptg_index_t -> TNavDynamicState;
  rng : Rng X
}.

(** A call either returns or throws; both leave a world behind. *)
Inductive Outcome (A : Type) : Type :=
| Return (a : A) (w : World)
| Raise (e : exn) (w : World).
Arguments Return {A} a w.
Arguments Raise {A} e w.

Definition M (A : Type) : Type := World -> Outcome A.

Definition retM {A} (a : A) : M A := fun w => Return a w.

Definition bindM {A B} (m : M A) (f : A -> M B) : M B :=
  fun w =>
    match m w with
    | Return a w' => f a w'
    | Raise e w' => Raise e w'
    end.

(** A call that cannot change the world. *)
Definition lift {A} (r : Result A) : M A :=
  fun w => match r with Ok a => Return a w | Throw e => Raise e w end.

(** A call that reads the world without changing it. *)
Definition reading {A} (f : World -> Result A) : M A :=
  fun w => lift (f w) w.

Notation "x <~ m ;; k" := (bindM m (fun x => k))
  (at level 61, m at next level, right associativity).
Notation "m ;;~ k" := (bindM m (fun _ => k))
  (at level 61, right associativity).

Definition set_cache (c : StdMap.t LocalObstaclesInfo) : M unit :=
  fun w => Return tt (mkWorld c (ptg_state w) (rng w)).

Definition get_cache : M (StdMap.t LocalObstaclesInfo) :=
  fun w => Return (local_obstacles_cache_ w) w.

(** [ptg.updateNavDynamicState(ds)] on the PTG of index [i]. *)
Definition updateNavDynamicState (i : ptg_index_t) (ds : TNavDynamicState)
  : M unit :=
  fun w =>
    Return tt
      (mkWorld (local_obstacles_cache_ w)
               (fun j => if Nat.eqb j i then ds else ptg_state w j)
               (rng w)).

(** A query on the PTG of index [i], in the state that object holds. *)
Definition on_ptg {A} (i : ptg_index_t) (f : TNavDynamicState -> Result A)
  : M A :=
  reading (fun w => f (ptg_state w i)).

Definition rng_drawUniform (a b : R) : M R :=
  fun w =>
    let '(u, g) := drawUniform X (rng w) a b in
    Return u (mkWorld (local_obstacles_cache_ w) (ptg_state w) g).

Definition rng_drawUniform32bit : M Z :=
  fun w =>
    let '(u, g) := drawUniform32bit X (rng w) in
    Return u (mkWorld (local_obstacles_cache_ w) (ptg_state w) g).

(** The dynamic state [plan] and [draw_random_tps] give a PTG before
    they query it from a node. *)
Definition dynamic_state_of (node : SE2_KinState) : TNavDynamicState :=
  mkNavDynamicState
    (TTwist2D.rotate (vel node) (- TPose2D.phi (pose node)))
    (TPose2D.mk 1 0 0)
    1.

(** [TPS_RRTstar::cached_local_obstacles].  The point set is returned by
    value; the buffer an entry shares with its callers is rewritten only
    when that entry is recomputed. *)
Definition cached_local_obstacles (tree : MotionPrimitivesTreeSE2.t)
  (nodeID : TNodeID) (globalObstacles : list TPoint2D) (MAX_XY_DIST : R)
  : M (list TPoint2D) :=
  (* reuse? *)
  node <~ lift (StdMap.at_ (nodes tree) nodeID) ;;
  cache <~ get_cache ;;
  let recompute :=
    (* create/update *)
    let o :=
      transform_pc_square_clipping globalObstacles
        (CPose2D.of_TPose2D (pose (state node))) MAX_XY_DIST in
    set_cache
      (StdMap.insert nodeID (mkLocalObs (pose (state node)) o) cache) ;;~
    retM o in
  match StdMap.find nodeID cache with
  | Some itOc =>
      if TPose2D.eqb (globalNodePose itOc) (pose (state node))
      then (* cache hit *) retM (obs itOc)
      else recompute
  | None => recompute
  end.

(** Inner loop of [find_nodes_within_ball] over the distance evaluators
    of the PTGs, for one tree node. *)
Fixpoint find_nodes_ptg_loop (w : World) (evaluators : list ptg_t)
  (ptgIdx : ptg_index_t) (nodeId : TNodeID) (nodeState : SE2_KinState)
  (query : TPose2D.t) (maxDistance : R) (closestNodes : closest_nodes_list_t)
  : Result closest_nodes_list_t :=
  match evaluators with
  | [] => Ok closestNodes
  | de :: rest =>
      let next := find_nodes_ptg_loop w rest (S ptgIdx) nodeId nodeState
                    query maxDistance in
      (* Skip the more expensive calculation of exact distance: *)
      if cannotBeNearerThan X de (ptg_state w ptgIdx) nodeState query
           maxDistance
      then next closestNodes
      else
        (* Exact look up in the PTG manifold of poses: *)
        ret <- distance X de (ptg_state w ptgIdx) nodeState query ;;
        match ret with
        | None => next closestNodes
        | Some (dist, trajIndex) =>
            ASSERT_ "Repeated pose node in tree?" (dist >? 0) ;;;
            if dist >? maxDistance then next closestNodes
            else
              next (StdMultimap.emplace dist
                      (nodeId, ptgIdx, trajIndex, dist) closestNodes)
        end
  end.

Fixpoint find_nodes_node_loop (w : World)
  (nodes : list (TNodeID * node_t)) (evaluators : list ptg_t)
  (query : TPose2D.t) (maxDistance : R) (closestNodes : closest_nodes_list_t)
  : Result closest_nodes_list_t :=
  match nodes with
  | [] => Ok closestNodes
  | (id, node) :: rest =>
      closestNodes <- find_nodes_ptg_loop w evaluators 0%nat id (state node)
                        query maxDistance closestNodes ;;
      find_nodes_node_loop w rest evaluators query maxDistance closestNodes
  end.

(** [TPS_RRTstar::find_nodes_within_ball]; it reads the world (the PTG
    states its distance evaluators see) and leaves it as it is. *)
Definition find_nodes_within_ball (w : World)
  (tree : MotionPrimitivesTreeSE2.t) (query : TPose2D.t) (maxDistance : R)
  (trs : TrajectoriesAndRobotShape) : Result closest_nodes_list_t :=
  ASSERT_ "!nodes.empty()"
    (negb (Nat.eqb (StdMap.size (nodes tree)) 0%nat)) ;;;
  let nPTGs := List.length (ptgs trs) in
  ASSERT_ "nPTGs >= 1" (Nat.leb 1%nat nPTGs) ;;;
  find_nodes_node_loop w (nodes tree) (ptgs trs) query maxDistance [].

Definition maxAttempts : nat := N.to_nat 1000000.

(** [TPS_RRTstar::draw_random_euclidean], by the attempts left. *)
Fixpoint draw_random_euclidean_loop (attempts : nat) (pi_ : PlannerInput)
  : M TPose2D.t :=
  match attempts with
  | O =>
      lift (Throw (RuntimeError "Could not draw collision-free random pose!"))
  | S n =>
      let bbMin := worldBboxMin pi_ in
      let bbMax := worldBboxMax pi_ in
      (* tentative pose: the three draws, taken in the order written *)
      qx <~ rng_drawUniform (TPose2D.x bbMin) (TPose2D.x bbMax) ;;
      qy <~ rng_drawUniform (TPose2D.y bbMin) (TPose2D.y bbMax) ;;
      qphi <~ rng_drawUniform (TPose2D.phi bbMin) (TPose2D.phi bbMax) ;;
      let q := TPose2D.mk qx qy qphi in
      closestObs <~ lift (kdTreeClosestPoint2D X (obstacles pi_) (qx, qy)) ;;
      let closestObsWrtRobot := TPose2D.inverseComposePoint q closestObs in
      let isCollision :=
        obstaclePointCollides X closestObsWrtRobot (pi_ptgs pi_) in
      if negb isCollision then retM q
      else draw_random_euclidean_loop n pi_
  end.

Definition draw_random_euclidean (pi_ : PlannerInput) : M TPose2D.t :=
  draw_random_euclidean_loop maxAttempts pi_.

Definition outside_bbox (q bbMin bbMax : TPose2D.t) : bool :=
  (TPose2D.x q <? TPose2D.x bbMin) || (TPose2D.y q <? TPose2D.y bbMin) ||
  (TPose2D.phi q <? TPose2D.phi bbMin) ||
  (TPose2D.x q >? TPose2D.x bbMax) || (TPose2D.y q >? TPose2D.y bbMax) ||
  (TPose2D.phi q >? TPose2D.phi bbMax).

(** [TPS_RRTstar::draw_random_tps], by the attempts left. *)
Fixpoint draw_random_tps_loop (params : TPS_RRTstar_Parameters)
  (attempts : nat) (pi_ : PlannerInput) (tree_ : MotionPrimitivesTreeSE2.t)
  : M TPose2D.t :=
  match attempts with
  | O =>
      lift (Throw (RuntimeError "Could not draw collision-free random pose!"))
  | S n =>
      let retry := draw_random_tps_loop params n pi_ tree_ in
      (* draw source node, then ptg index, then trajectory index, then
         distance: *)
      r1 <~ rng_drawUniform32bit ;;
      let nodeIdx :=
        Z.to_nat (r1 mod Z.of_nat (StdMap.size (nodes tree_))) in
      node <~ lift (StdMap.at_ (nodes tree_) nodeIdx) ;;
      r2 <~ rng_drawUniform32bit ;;
      let ptgIdx :=
        Z.to_nat (r2 mod Z.of_nat (List.length (ptgs (pi_ptgs pi_)))) in
      ptg <~ lift (vector_at (ptgs (pi_ptgs pi_)) ptgIdx) ;;
      r3 <~ rng_drawUniform32bit ;;
      let trajIdx := (r3 mod getAlphaValuesCount ptg)%Z in
      trajDist <~
        rng_drawUniform (minStepLength params) (maxStepLength params) ;;
      (* Let the PTG know about the current local velocity: *)
      let ds := dynamic_state_of (state node) in
      updateNavDynamicState ptgIdx ds ;;~
      (* Predict the path segment: *)
      stepOk <~
        on_ptg ptgIdx (fun st => getPathStepForDist ptg st trajIdx trajDist) ;;
      match stepOk with
      | None => retry  (* No solution with this ptg *)
      | Some ptg_step =>
          reconstrRelPose <~
            on_ptg ptgIdx (fun st => getPathPose ptg st trajIdx ptg_step) ;;
          (* tentative pose: *)
          let q := TPose2D.compose (pose (state node)) reconstrRelPose in
          (* within bounding box? *)
          if outside_bbox q (worldBboxMin pi_) (worldBboxMax pi_)
          then retry
          else
            closestObs <~
              lift (kdTreeClosestPoint2D X (obstacles pi_)
                      (TPose2D.x q, TPose2D.y q)) ;;
            let closestObsWrtRobot :=
              TPose2D.inverseComposePoint q closestObs in
            let isCollision :=
              isPointInsideRobotShape ptg (fst closestObsWrtRobot)
                (snd closestObsWrtRobot) in
            if negb isCollision then retM q else retry
      end
  end.

Definition draw_random_tps (params : TPS_RRTstar_Parameters)
  (pi_ : PlannerInput) (tree_ : MotionPrimitivesTreeSE2.t) : M TPose2D.t :=
  draw_random_tps_loop params maxAttempts pi_ tree_.

(** [TPS_RRTstar::draw_random_free_pose]. *)
Definition draw_random_free_pose (params : TPS_RRTstar_Parameters)
  (pi_ : PlannerInput) (tree_ : MotionPrimitivesTreeSE2.t) : M TPose2D.t :=
  u <~ rng_drawUniform 0 1 ;;
  (* P[Select goal] = goalBias *)
  if u <? goalBias params then
    (* goal selected: *)
    retM (pose (stateGoal pi_))
  else
    if drawInTPS params then draw_random_tps params pi_ tree_
    else draw_random_euclidean pi_.

(** The interpolated sub-poses [ip] between the fixed first and last one:
    [for (size_t i = 0; i < nSeg; i++)], by the passes left. *)
Fixpoint interpolated_loop (ptg : ptg_t) (ptgIdx : ptg_index_t)
  (trajIdx : trajectory_index_t) (ptg_step : Z) (nSeg : nat)
  (i : nat) (left : nat) : M (list TPose2D.t) :=
  match left with
  | O => retM []
  | S n =>
      let iStep :=
        ((Z.of_nat i + 1) * ptg_step / (Z.of_nat nSeg + 2))%Z in
      p <~ on_ptg ptgIdx
             (fun st => getPathPose ptg st trajIdx (to_uint32 iStep)) ;;
      rest <~ interpolated_loop ptg ptgIdx trajIdx ptg_step nSeg (S i) n ;;
      retM (p :: rest)
  end.

(** The loop of [plan] over [closeNodes]: "Check for CollisionFree and
    keep the smallest cost". *)
Fixpoint candidates_loop (params : TPS_RRTstar_Parameters)
  (in_ : PlannerInput) (tree : MotionPrimitivesTreeSE2.t)
  (obstaclePoints : list TPoint2D) (MAX_XY_DIST : R)
  (closeNodes : closest_nodes_list_t)
  (bestEdge : option MoveEdgeSE2_TPS) (bestCost : option cost_t)
  : M (option MoveEdgeSE2_TPS * option cost_t) :=
  match closeNodes with
  | [] => retM (bestEdge, bestCost)
  | tupl :: rest =>
      let continue_ :=
        candidates_loop params in_ tree obstaclePoints MAX_XY_DIST rest in
      let '(nodeId, ptgIdx, trajIdx, trajDist) := snd tupl in
      localObstacles <~
        cached_local_obstacles tree nodeId obstaclePoints MAX_XY_DIST ;;
      srcNode <~ lift (StdMap.at_ (nodes tree) nodeId) ;;
      ptg <~ lift (vector_at (ptgs (pi_ptgs in_)) ptgIdx) ;;
      let ds := dynamic_state_of (state srcNode) in
      updateNavDynamicState ptgIdx ds ;;~
      freeDistance <~
        on_ptg ptgIdx
          (fun st => tp_obstacles_single_path trajIdx localObstacles ptg st) ;;
      if trajDist >=? freeDistance then
        (* we would need to move farther away than what is possible
           without colliding: discard this trajectory. *)
        continue_ bestEdge bestCost
      else
        (* Ok, accept this motion.  Predict the path segment: *)
        stepOk <~
          on_ptg ptgIdx
            (fun st => getPathStepForDist ptg st trajIdx trajDist) ;;
        match stepOk with
        | None => continue_ bestEdge bestCost  (* No solution with this ptg *)
        | Some ptg_step =>
            reconstrRelPose <~
              on_ptg ptgIdx (fun st => getPathPose ptg st trajIdx ptg_step) ;;
            relTwist <~
              on_ptg ptgIdx (fun st => getPathTwist ptg st trajIdx ptg_step) ;;
            (* new tentative node pose & velocity: *)
            let q_i := TPose2D.compose (pose (state srcNode)) reconstrRelPose in
            let x_i :=
              mkKinState q_i
                (TTwist2D.rotate relTwist
                   (TPose2D.phi (pose (state srcNode)))) in
            (* interpolated path: *)
            let nSeg := renderPathInterpolatedSegments params in
            ip <~
              (if Nat.ltb 0 nSeg then
                 mid <~ interpolated_loop ptg ptgIdx trajIdx ptg_step nSeg
                          0%nat nSeg ;;
                 retM (Some (TPose2D.mk 0 0 0 :: mid ++ [reconstrRelPose]))
               else retM None) ;;
            let tentativeEdge :=
              mkEdge nodeId ptgIdx trajIdx trajDist (targetRelSpeed ds)
                     (state srcNode) x_i 0 ip in
            (* Let's compute its cost: *)
            let tentativeEdge :=
              set_cost tentativeEdge (cost_path_segment tentativeEdge) in
            let cost_x := cost_ srcNode in
            let newTentativeCost := cost_x + cost tentativeEdge in
            if match bestCost with
               | None => true
               | Some c => newTentativeCost <? c
               end
            then continue_ (Some tentativeEdge) (Some newTentativeCost)
            else continue_ bestEdge bestCost
        end
  end.

(** The body of [for (size_t rrtIter = 0; rrtIter < maxIterations; ...)],
    by the iterations left. *)
Fixpoint plan_loop (params : TPS_RRTstar_Parameters) (in_ : PlannerInput)
  (obstaclePoints : list TPoint2D) (MAX_XY_DIST searchRadius : R)
  (iterations : nat) (tree : MotionPrimitivesTreeSE2.t)
  : M MotionPrimitivesTreeSE2.t :=
  match iterations with
  | O => retM tree
  | S n =>
      let continue_ :=
        plan_loop params in_ obstaclePoints MAX_XY_DIST searchRadius n in
      (* 4 | q_i <- SAMPLE( Q_free ) *)
      qi <~ draw_random_free_pose params in_ tree ;;
      (* 5 | {x_best, x_i} <- argmin ... *)
      closeNodes <~
        reading (fun w =>
          find_nodes_within_ball w tree qi searchRadius (pi_ptgs in_)) ;;
      if StdMultimap.empty closeNodes then continue_ tree  (* No body around? *)
      else
        best <~ candidates_loop params in_ tree obstaclePoints MAX_XY_DIST
                  closeNodes None None ;;
        match fst best with
        | None => continue_ tree  (* no valid edge found *)
        | Some bestEdge =>
            (* Extend graph: *)
            let newNodeId := next_free_node_ID tree in
            tree' <~
              lift (insert_node_and_edge tree (parentId bestEdge) newNodeId
                      (stateTo bestEdge) bestEdge) ;;
            (* Rewire graph: MRPT_TODO("rewire part") *)
            continue_ tree'
        end
  end.

(** "clipping dist for all ptgs". *)
Definition max_ref_distance (l : list ptg_t) : R :=
  fold_left (fun MAX_XY_DIST ptg =>
               mrpt.keep_max MAX_XY_DIST (getRefDistance ptg)) l 0.

(** [TPS_RRTstar::plan]. *)
Definition plan (params : TPS_RRTstar_Parameters) (in_ : PlannerInput)
  : M PlannerOutput :=
  (* Sanity checks on inputs: *)
  lift (ASSERT_ "in.ptgs.initialized()" (initialized (pi_ptgs in_))) ;;~
  lift (ASSERT_ "in.worldBboxMin != in.worldBboxMax"
          (negb (TPose2D.eqb (worldBboxMin in_) (worldBboxMax in_)))) ;;~
  lift (ASSERT_ "within_bbox(in.stateStart.pose, ...)"
          (within_bbox (pose (stateStart in_)) (worldBboxMax in_)
             (worldBboxMin in_))) ;;~
  lift (ASSERT_ "within_bbox(in.stateGoal.pose, ...)"
          (within_bbox (pose (stateGoal in_)) (worldBboxMax in_)
             (worldBboxMin in_))) ;;~
  let po := PlannerOutput_default in
  let tree := motionTree po in
  (* clipping dist for all ptgs: *)
  let MAX_XY_DIST := max_ref_distance (ptgs (pi_ptgs in_)) in
  lift (ASSERT_ "MAX_XY_DIST > 0" (MAX_XY_DIST >? 0)) ;;~
  (* 1 | X_T <- {X_0} *)
  let tree := set_root tree (next_free_node_ID tree) in
  let tree := insert_root_node tree (root tree) (stateStart in_) in
  (* 2 | E_T <- empty *)
  let tree := clear_edges tree in
  (* Dynamic search radius: *)
  let searchRadius := initialSearchRadius params in
  let obstaclePoints := obstacles in_ in
  (* 3 | for i in [1,N] do *)
  tree <~ plan_loop params in_ obstaclePoints MAX_XY_DIST searchRadius
            (maxIterations params) tree ;;
  retM (mkOutput (Some in_) tree (success po)).

End Planner.

Arguments Return {X A} a w.
Arguments Raise {X A} e w.
Arguments local_obstacles_cache_ {X} w.
Arguments ptg_state {X} w i.
Arguments rng {X} w.

End TPS_RRTstar.

(* ================================================================= *)
(** ** Example data                                                  *)
(* ================================================================= *)

Module Examples.
Import TPS_RRTstar.

(** A PTG with the single trajectory "straight ahead", horizon 10 m. *)
Definition line_ptg : ptg_t :=
  mkPtg 10 1
    (fun _ _ _ => Ok 10)
    (fun _ ox oy _ out =>
       Ok (if (oy =? 0) && (ox >? 0) && (ox <? out) then ox else out))
    (fun _ _ d => Ok (Some (mrpt.round (d / HolonomicBlend.PATH_TIME_STEP))))
    (fun _ _ step =>
       Ok (TPose2D.mk (IZR step * HolonomicBlend.PATH_TIME_STEP) 0 0))
    (fun _ _ _ => Ok (TTwist2D.mk 1 0 0))
    (fun _ _ => false).

(** Externals: a counter as random generator, whose uniform draw is the
    lower bound; a distance metric that reaches the poses ahead. *)
Definition ext0 : Externals :=
  mkExternals nat
    (fun g a _ => (a, S g))
    (fun g => (Z.of_nat g, S g))
    (fun _ _ => Ok (100, 100))
    (fun _ _ => false)
    (fun _ _ _ _ _ => false)
    (fun _ _ src q =>
       let dx := TPose2D.x q - TPose2D.x (pose src) in
       if dx >? 0 then Ok (Some (dx, 0%Z)) else Ok None).

Definition origin : SE2_KinState :=
  mkKinState (TPose2D.mk 0 0 0) (TTwist2D.mk 0 0 0).

Definition ahead : SE2_KinState :=
  mkKinState (TPose2D.mk 1 0 0) (TTwist2D.mk 0 0 0).

Definition at_rest : TNavDynamicState :=
  mkNavDynamicState (TTwist2D.mk 0 0 0) (TPose2D.mk 1 0 0) 1.

(** A fresh planner: empty obstacle cache. *)
Definition world0 : World ext0 := mkWorld ext0 [] (fun _ => at_rest) 0%nat.

(** The tree holding the root only. *)
Definition root_tree : MotionPrimitivesTreeSE2.t :=
  insert_root_node MotionPrimitivesTreeSE2.empty 0%nat origin.

Definition trs0 : TrajectoriesAndRobotShape := mkTrs [line_ptg] true.

(** Start at the origin, goal 1 m ahead, box (-5,5)^2 x (-4,4), no
    obstacle. *)
Definition input0 : PlannerInput :=
  mkInput origin ahead (TPose2D.mk (-5) (-5) (-4)) (TPose2D.mk 5 5 4) [] trs0.

(** One iteration, always sampling the goal. *)
Definition params0 : TPS_RRTstar_Parameters :=
  mkParams 2 1%nat 1 false (1 / 10) 1 0%nat 0%nat.

(** Three iterations with a search radius of zero. *)
Definition params_zero_radius : TPS_RRTstar_Parameters :=
  mkParams 0 3%nat 1 false (1 / 10) 1 0%nat 0%nat.

(** The start pose on the lower x bound of the box. *)
Definition input_on_boundary : PlannerInput :=
  mkInput (mkKinState (TPose2D.mk (-5) 0 0) (TTwist2D.mk 0 0 0)) ahead
          (TPose2D.mk (-5) (-5) (-4)) (TPose2D.mk 5 5 4) [] trs0.

(** A box reduced to a point. *)
Definition input_degenerate : PlannerInput :=
  mkInput origin ahead (TPose2D.mk 0 0 0) (TPose2D.mk 0 0 0) [] trs0.

(** The PTG of the unit scenario: K = +1, V_MAX = W_MAX = 1, with the
    default turning radius reference 0.10 and 31 paths. *)
Definition unit_ptg : DiffDrive_C.t := DiffDrive_C.mk 1 1 (1 / 10) 1 31 1.

(** The same PTG generating backward paths. *)
Definition backward_ptg : DiffDrive_C.t :=
  DiffDrive_C.mk 1 1 (1 / 10) 1 31 (-1).

(** The PTG with the default parameters of [loadDefaultParams] and the
    default expressions [expr_V = V_MAX], [expr_W = W_MAX], at rest. *)
Definition default_ptg : HolonomicBlend.t :=
  HolonomicBlend.mk (9 / 10) 1 (40 * PI / 180) (1 / 10) 6 31 (1 / 5) 1
     HolonomicBlend.var_V_MAX HolonomicBlend.var_W_MAX
     (mkNavDynamicState (TTwist2D.mk 0 0 0) (TPose2D.mk 1 0 0) 1)
     0 1.

(** A stand-in for the linear solver: the residual itself. *)
Definition residual_solver (J : HolonomicBlend.Mat44) (r : HolonomicBlend.Vec4)
  : HolonomicBlend.Vec4 := r.

(** A stand-in for [solve_poly2]: no real root reported. *)
Definition no_roots (a b c : R) : Z * R * R := (0%Z, 0, 0).

(** Externals whose collision test always fires: no pose is free. *)
Definition ext_blocked : Externals :=
  mkExternals nat
    (fun g a _ => (a, S g))
    (fun g => (Z.of_nat g, S g))
    (fun _ _ => Ok (0, 0))
    (fun _ _ => true)
    (fun _ _ _ _ _ => false)
    (fun _ _ _ _ => Ok None).

Definition world_blocked : World ext_blocked :=
  mkWorld ext_blocked [] (fun _ => at_rest) 0%nat.

(** A PTG that goes nowhere: reference distance zero. *)
Definition point_ptg : ptg_t :=
  mkPtg 0 1
    (fun _ _ _ => Ok 0)
    (fun _ _ _ _ out => Ok out)
    (fun _ _ _ => Ok None)
    (fun _ _ _ => Ok (TPose2D.mk 0 0 0))
    (fun _ _ _ => Ok (TTwist2D.mk 0 0 0))
    (fun _ _ => false).

(** The example input with that PTG alone. *)
Definition input_zero_ref : PlannerInput :=
  mkInput origin ahead (TPose2D.mk (-5) (-5) (-4)) (TPose2D.mk 5 5 4) []
          (mkTrs [point_ptg] true).

End Examples.

(* ================================================================= *)
(** ** Notions the properties are stated with                        *)
(* ================================================================= *)

Module Notions.
Import TPS_RRTstar.

(** The ramp arc length [D_ramp] of trajectory direction [d]: the value
    [getPathStepForDist] binds to [dist_trans_T_ramp]. *)
Definition ramp_distance (p : HolonomicBlend.t) (d : R) : Result R :=
  let pp := HolonomicBlend.internal_params_from_dir_and_dynstate p d in
  let TR2_ := 1 / (2 * HolonomicBlend.T_ramp pp) in
  HolonomicBlend.calc_trans_distance_t_below_Tramp
    ((HolonomicBlend.vxf pp - HolonomicBlend.vxi pp) * TR2_)
    ((HolonomicBlend.vyf pp - HolonomicBlend.vyi pp) * TR2_)
    (HolonomicBlend.vxi pp) (HolonomicBlend.vyi pp)
    (HolonomicBlend.T_ramp pp).

(** What an emitted tuple [(key, (node, ptg, k, d))] stands for: an
    exact distance query from a node of the tree through a PTG of the
    set, not pruned, that succeeded with [d] in [(0, maxDistance]]. *)
Definition emitted (X : Externals) (w : World X)
  (all_nodes : list (TNodeID * node_t)) (all_ptgs : list ptg_t)
  (query : TPose2D.t) (maxDistance : R)
  (e : R * (TNodeID * ptg_index_t * trajectory_index_t * distance_t)) : Prop :=
  let '(key, (id, ptgIdx, trajIdx, d)) := e in
  key = d /\ 0 < d <= maxDistance /\
  exists node de,
    In (id, node) all_nodes /\
    nth_error all_ptgs ptgIdx = Some de /\
    cannotBeNearerThan X de (ptg_state w ptgIdx) (state node) query
      maxDistance = false /\
    distance X de (ptg_state w ptgIdx) (state node) query
      = Ok (Some (d, trajIdx)).

Definition well_formed (X : Externals) (w : World X)
  (all_nodes : list (TNodeID * node_t)) (all_ptgs : list ptg_t)
  (query : TPose2D.t) (maxDistance : R) (m : closest_nodes_list_t) : Prop :=
  Forall (emitted X w all_nodes all_ptgs query maxDistance) m /\
  StdMultimap.ascending m.

(** The local obstacle set in the words of the specification: the global
    points within the axis-aligned square of half-side [MAX_XY_DIST]
    around the node, expressed in the frame of the node. *)
Definition in_square (p : TPose2D.t) (MAX_XY_DIST : R) (g : TPoint2D) : bool :=
  (Rabs (fst g - TPose2D.x p) <=? MAX_XY_DIST) &&
  (Rabs (snd g - TPose2D.y p) <=? MAX_XY_DIST).

Definition to_local (p : TPose2D.t) (g : TPoint2D) : TPoint2D :=
  let dx := fst g - TPose2D.x p in
  let dy := snd g - TPose2D.y p in
  (dx * cos (TPose2D.phi p) + dy * sin (TPose2D.phi p),
   - dx * sin (TPose2D.phi p) + dy * cos (TPose2D.phi p)).

Definition local_obstacles_spec (globalObstacles : list TPoint2D)
  (p : TPose2D.t) (MAX_XY_DIST : R) : list TPoint2D :=
  map (to_local p) (filter (in_square p MAX_XY_DIST) globalObstacles).

(** Every entry of the cache was computed from this cloud and distance. *)
Definition cache_consistent (globalObstacles : list TPoint2D)
  (MAX_XY_DIST : R) (cache : StdMap.t LocalObstaclesInfo) : Prop :=
  forall k ent, StdMap.find k cache = Some ent ->
    obs ent = local_obstacles_spec globalObstacles (globalNodePose ent)
                MAX_XY_DIST.

(** The world with another obstacle cache. *)
Definition with_cache {X : Externals} (w : World X)
  (c : StdMap.t LocalObstaclesInfo) : World X :=
  mkWorld X c (ptg_state w) (rng w).

(** A computation that leaves the obstacle cache as it found it. *)
Definition cache_stable {X : Externals} {A : Type} (m : M X A) : Prop :=
  forall w a w', m w = Return a w' ->
    local_obstacles_cache_ w' = local_obstacles_cache_ w.

(** How the cache may change while a tree is searched: an entry stays,
    or it is recomputed for a node whose pose it did not hold. *)
Definition cache_evolves (globalObstacles : list TPoint2D) (MAX_XY_DIST : R)
  (tree : MotionPrimitivesTreeSE2.t)
  (c c' : StdMap.t LocalObstaclesInfo) : Prop :=
  forall k,
    StdMap.find k c' = StdMap.find k c \/
    exists node,
      StdMap.find k (nodes tree) = Some node /\
      StdMap.find k c' =
        Some (mkLocalObs (pose (state node))
                (local_obstacles_spec globalObstacles (pose (state node))
                   MAX_XY_DIST)) /\
      forall ent, StdMap.find k c = Some ent ->
        TPose2D.eqb (globalNodePose ent) (pose (state node)) = false.

(** The edge [e] passed the collision test at its parent: the cached
    local obstacles of the parent, held for the pose of the parent, give
    along the trajectory of the edge, with the PTG in the dynamic state
    of the parent, a free distance above the distance of the edge. *)
Definition feasible (all_ptgs : list ptg_t)
  (tree : MotionPrimitivesTreeSE2.t)
  (cache : StdMap.t LocalObstaclesInfo) (e : MoveEdgeSE2_TPS) : Prop :=
  exists srcNode ent ptg freeDistance,
    StdMap.find (parentId e) (nodes tree) = Some srcNode /\
    StdMap.find (parentId e) cache = Some ent /\
    TPose2D.eqb (globalNodePose ent) (pose (state srcNode)) = true /\
    nth_error all_ptgs (ptgIndex e) = Some ptg /\
    tp_obstacles_single_path (ptgPathIndex e) (obs ent) ptg
      (dynamic_state_of (state srcNode)) = Ok freeDistance /\
    ptgDist e < freeDistance.

(** What [plan] builds as a tentative edge from a node of the tree. *)
Definition candidate (tree : MotionPrimitivesTreeSE2.t)
  (e : MoveEdgeSE2_TPS) : Prop :=
  0 < ptgDist e /\ cost e = cost_path_segment e /\
  exists srcNode,
    StdMap.find (parentId e) (nodes tree) = Some srcNode /\
    stateFrom e = state srcNode.

Definition positive_distance
  (t : R * (TNodeID * ptg_index_t * trajectory_index_t * distance_t)) : Prop :=
  0 < snd (snd t).

(** A pose [q] as [draw_random_tps] returns it: inside the closed box,
    reached from a node of the tree along a trajectory of a PTG of the
    input (in the dynamic state of that node), and with the obstacle
    point closest to it outside the robot shape. *)
Definition tps_sample (X : Externals) (pi_ : PlannerInput)
  (tree_ : MotionPrimitivesTreeSE2.t) (q : TPose2D.t) : Prop :=
  outside_bbox q (worldBboxMin pi_) (worldBboxMax pi_) = false /\
  exists nodeIdx node ptgIdx ptg trajIdx ptg_step rel closestObs,
    StdMap.find nodeIdx (nodes tree_) = Some node /\
    nth_error (ptgs (pi_ptgs pi_)) ptgIdx = Some ptg /\
    getPathPose ptg (dynamic_state_of (state node)) trajIdx ptg_step
      = Ok rel /\
    q = TPose2D.compose (pose (state node)) rel /\
    kdTreeClosestPoint2D X (obstacles pi_) (TPose2D.x q, TPose2D.y q)
      = Ok closestObs /\
    isPointInsideRobotShape ptg
      (fst (TPose2D.inverseComposePoint q closestObs))
      (snd (TPose2D.inverseComposePoint q closestObs)) = false.

(** A pose [q] as [draw_random_euclidean] returns it: the obstacle point
    closest to it does not collide with the robot placed at [q]. *)
Definition euclidean_sample (X : Externals) (pi_ : PlannerInput)
  (q : TPose2D.t) : Prop :=
  exists closestObs,
    kdTreeClosestPoint2D X (obstacles pi_) (TPose2D.x q, TPose2D.y q)
      = Ok closestObs /\
    obstaclePointCollides X (TPose2D.inverseComposePoint q closestObs)
      (pi_ptgs pi_) = false.

(** An edge and the nodes it links: the child holds the target state of
    the edge, points to the parent of the edge, and its cost-to-come is
    the one of the parent plus the cost of the edge. *)
Definition linked (tree : MotionPrimitivesTreeSE2.t) (c : TNodeID)
  (e : MoveEdgeSE2_TPS) : Prop :=
  0 < ptgDist e /\ cost e = cost_path_segment e /\
  exists pn cn,
    StdMap.find (parentId e) (nodes tree) = Some pn /\
    StdMap.find c (nodes tree) = Some cn /\
    parentID_ cn = Some (parentId e) /\
    cost_ cn = cost_ pn + cost e /\
    state cn = stateTo e /\
    stateFrom e = state pn.

(** The invariant of the main loop. *)
Definition tree_invariant (in_ : PlannerInput)
  (tree : MotionPrimitivesTreeSE2.t)
  (cache : StdMap.t LocalObstaclesInfo) : Prop :=
  StdMap.dense (nodes tree) /\
  forall c e, StdMap.find c (edges_to_children tree) = Some e ->
    linked tree c e /\ feasible (ptgs (pi_ptgs in_)) tree cache e.

End Notions.

(* ================================================================= *)
(** * Properties                                                     *)
(* ================================================================= *)

(** ** Comparisons on doubles *)

Lemma Rltb_spec (x y : R) : reflect (x < y) (x <? y).
Proof. unfold Rltb. destruct (Rlt_dec x y); constructor; assumption. Qed.

Lemma Rleb_spec (x y : R) : reflect (x <= y) (x <=? y).
Proof. unfold Rleb. destruct (Rle_dec x y); constructor; assumption. Qed.

Lemma Reqb_spec (x y : R) : reflect (x = y) (x =? y).
Proof. unfold Reqb. destruct (Req_dec_T x y); constructor; assumption. Qed.

Lemma Rltb_true (x y : R) : x < y -> (x <? y) = true.
Proof. intros H. destruct (Rltb_spec x y); [reflexivity | contradiction]. Qed.

Lemma Rltb_false (x y : R) : ~ x < y -> (x <? y) = false.
Proof. intros H. destruct (Rltb_spec x y); [contradiction | reflexivity]. Qed.

Lemma Rleb_true (x y : R) : x <= y -> (x <=? y) = true.
Proof. intros H. destruct (Rleb_spec x y); [reflexivity | contradiction]. Qed.

Lemma Rleb_false (x y : R) : ~ x <= y -> (x <=? y) = false.
Proof. intros H. destruct (Rleb_spec x y); [contradiction | reflexivity]. Qed.

Lemma Reqb_true (x y : R) : x = y -> (x =? y) = true.
Proof. intros H. destruct (Reqb_spec x y); [reflexivity | contradiction]. Qed.

Lemma Reqb_false (x y : R) : x <> y -> (x =? y) = false.
Proof. intros H. destruct (Reqb_spec x y); [contradiction | reflexivity]. Qed.

Lemma Reqb_refl (x : R) : (x =? x) = true.
Proof. destruct (Reqb_spec x x); congruence. Qed.

(** ** Facts on the libm / MRPT functions *)

Lemma Zceil_unit (x : R) : -1 < x <= 0 -> Zceil x = 0%Z.
Proof.
  intros H. unfold Zceil.
  rewrite (Zfloor_eq 0 (- x)); [reflexivity | simpl; lra].
Qed.

Lemma trunc_small (x : R) : -1 < x < 1 -> mrpt.trunc x = 0%Z.
Proof.
  intros H. unfold mrpt.trunc. destruct (Rltb_spec x 0).
  - apply Zceil_unit; lra.
  - apply Zfloor_eq; simpl; lra.
Qed.

Lemma fmod_small (a b : R) : 0 < b -> - b < a < b -> mrpt.fmod a b = a.
Proof.
  intros Hb H. unfold mrpt.fmod. rewrite trunc_small; [simpl; ring |].
  split.
  - apply Rmult_lt_reg_r with b; [assumption |].
    unfold Rdiv. rewrite Rmult_assoc, Rinv_l by lra. lra.
  - apply Rmult_lt_reg_r with b; [assumption |].
    unfold Rdiv. rewrite Rmult_assoc, Rinv_l by lra. lra.
Qed.

Lemma wrapTo2Pi_nonneg (a : R) :
  0 <= a < 2 * PI -> mrpt.wrapTo2Pi a = a.
Proof.
  intros H. pose proof PI_RGT_0 as Hpi. unfold mrpt.wrapTo2Pi.
  rewrite fmod_small by lra. destruct (Rltb_spec a 0); lra.
Qed.

Lemma wrapTo2Pi_neg (a : R) :
  - (2 * PI) < a < 0 -> mrpt.wrapTo2Pi a = a + 2 * PI.
Proof.
  intros H. pose proof PI_RGT_0 as Hpi. unfold mrpt.wrapTo2Pi.
  rewrite fmod_small by lra. destruct (Rltb_spec a 0); lra.
Qed.

Lemma wrapTo2Pi_range (a : R) :
  - (2 * PI) < a < 2 * PI -> 0 <= mrpt.wrapTo2Pi a < 2 * PI.
Proof.
  intros H. destruct (Rlt_dec a 0).
  - rewrite wrapTo2Pi_neg; lra.
  - rewrite wrapTo2Pi_nonneg; lra.
Qed.

Lemma atan2_bound (y x : R) : - PI < mrpt.atan2 y x <= PI.
Proof.
  pose proof PI_RGT_0 as Hpi. unfold mrpt.atan2.
  pose proof (atan_bound (y / x)) as Ha.
  destruct (Rltb_spec 0 x); [lra |].
  destruct (Rltb_spec x 0).
  - assert (Hx : / x < 0) by (apply Rinv_lt_0_compat; assumption).
    destruct (Rleb_spec 0 y).
    + assert (atan (y / x) <= 0).
      { rewrite <- atan_0. destruct (Req_dec y 0) as [-> | Hy].
        - unfold Rdiv. rewrite Rmult_0_l. lra.
        - left. apply atan_increasing. unfold Rdiv. nra. }
      lra.
    + assert (0 < atan (y / x)).
      { rewrite <- atan_0. apply atan_increasing. unfold Rdiv. nra. }
      lra.
  - destruct (Rltb_spec 0 y); [lra |]. destruct (Rltb_spec y 0); lra.
Qed.

Lemma atan2_neg_axis (x : R) : x < 0 -> mrpt.atan2 0 x = PI.
Proof.
  intros H. unfold mrpt.atan2.
  destruct (Rltb_spec 0 x); [lra |]. destruct (Rltb_spec x 0); [| lra].
  destruct (Rleb_spec 0 0); [| lra].
  unfold Rdiv. rewrite Rmult_0_l, atan_0. ring.
Qed.

Lemma to_uint16_small (z : Z) : (0 <= z < 65536)%Z -> to_uint16 z = z.
Proof. intros H. unfold to_uint16. apply Z.mod_small. assumption. Qed.

Lemma alpha2index_range (alpha : R) (n : Z) :
  (0 < n <= 65535)%Z -> (0 <= mrpt.alpha2index alpha n < n)%Z.
Proof.
  intros Hn. unfold mrpt.alpha2index.
  set (k := mrpt.round _).
  assert (H : (0 <= (if ((if (k <? 0)%Z then 0 else k) >=? n)%Z
                     then n - 1
                     else (if (k <? 0)%Z then 0 else k)) < n)%Z).
  { destruct (Z.ltb_spec k 0); destruct (Z.geb_spec 0 n);
      try lia; destruct (Z.geb_spec k n); lia. }
  rewrite to_uint16_small; lia.
Qed.

(** ** Single precision *)

(** [pi] to eight decimals, from the series of
    [pi/4 = 2 atan (1/3) + atan (1/7)]. *)
Lemma PI_bounds : 314159265 / 100000000 < PI < 314159266 / 100000000.
Proof.
  pose proof (PI_2_3_7_ineq 4) as H.
  unfold sum_f_R0, tg_alt, PI_2_3_7_tg, Ratan_seq in H.
  cbn [Nat.mul Nat.add pow INR] in H. lra.
Qed.

Lemma lrint_near (x : R) (z : Z) :
  IZR z - 1 / 2 < x < IZR z + 1 / 2 -> mrpt.lrint x = z.
Proof.
  intros H. unfold mrpt.lrint. destruct (Rle_dec (IZR z) x) as [Hge | Hlt].
  - rewrite (Zfloor_eq z x) by lra. rewrite Rltb_true by lra. reflexivity.
  - rewrite (Zfloor_eq (z - 1) x) by (rewrite minus_IZR; lra).
    rewrite minus_IZR. rewrite Rltb_false by lra. rewrite Rltb_true by lra.
    lia.
Qed.

Lemma lrint_error (x : R) : Rabs (IZR (mrpt.lrint x) - x) <= 1 / 2.
Proof.
  unfold mrpt.lrint.
  assert (Hf : IZR (Zfloor x) <= x < IZR (Zfloor x) + 1).
  { pose proof (Zfloor_bound x). lra. }
  apply Rabs_le.
  destruct (Rltb_spec (x - IZR (Zfloor x)) (1 / 2)); [lra |].
  destruct (Rltb_spec (1 / 2) (x - IZR (Zfloor x))).
  - rewrite plus_IZR. lra.
  - destruct (Z.even (Zfloor x)); [lra |]. rewrite plus_IZR. lra.
Qed.

Lemma ln_2_pos : 0 < ln 2.
Proof. rewrite <- ln_1. apply ln_increasing; lra. Qed.

Lemma ln_powerRZ_2 (e : Z) : ln (powerRZ 2 e) = IZR e * ln 2.
Proof. rewrite powerRZ_Rpower by lra. unfold Rpower. apply ln_exp. Qed.

(** The binade of a number. *)
Lemma float_exponent_eq (x : R) (e : Z) :
  (-126 <= e)%Z -> powerRZ 2 e <= Rabs x < powerRZ 2 (e + 1) ->
  float_exponent x = e.
Proof.
  intros He [Hlo Hhi]. pose proof ln_2_pos as H2.
  assert (Hp : 0 < powerRZ 2 e) by (apply powerRZ_lt; lra).
  assert (Hx : 0 < Rabs x) by lra.
  unfold float_exponent. rewrite (Zfloor_eq e); [lia |].
  assert (Hl1 : IZR e * ln 2 <= ln (Rabs x)).
  { rewrite <- ln_powerRZ_2. destruct Hlo as [Hlo | <-]; [| lra].
    left. apply ln_increasing; assumption. }
  assert (Hl2 : ln (Rabs x) < (IZR e + 1) * ln 2).
  { rewrite <- plus_IZR, <- ln_powerRZ_2. apply ln_increasing; assumption. }
  split.
  - apply (Rmult_le_reg_r (ln 2)); [exact H2 |].
    unfold Rdiv. rewrite Rmult_assoc, Rinv_l, Rmult_1_r by lra. exact Hl1.
  - apply (Rmult_lt_reg_r (ln 2)); [exact H2 |].
    unfold Rdiv. rewrite Rmult_assoc, Rinv_l, Rmult_1_r by lra. exact Hl2.
Qed.

(** The cast moves a number by at most half the spacing of its binade. *)
Lemma to_float_near (x : R) (e : Z) :
  (-126 <= e)%Z -> powerRZ 2 e <= Rabs x < powerRZ 2 (e + 1) ->
  Rabs (to_float x - x) <= powerRZ 2 (e - 24).
Proof.
  intros He Hx.
  assert (Hp : 0 < powerRZ 2 e) by (apply powerRZ_lt; lra).
  assert (Hne : x <> 0).
  { intros ->. rewrite Rabs_R0 in Hx. lra. }
  assert (Hu : powerRZ 2 (e - 23) = 2 * powerRZ 2 (e - 24)).
  { replace (e - 23)%Z with (1 + (e - 24))%Z by lia.
    rewrite powerRZ_add by lra. simpl. lra. }
  assert (Hpos : 0 < powerRZ 2 (e - 24)) by (apply powerRZ_lt; lra).
  unfold to_float, float_ulp. rewrite (float_exponent_eq x e He Hx).
  rewrite Reqb_false by exact Hne. rewrite Hu.
  set (u := powerRZ 2 (e - 24)) in *.
  pose proof (lrint_error (x / (2 * u))) as Herr.
  set (m := IZR (mrpt.lrint (x / (2 * u)))) in *.
  assert (Hq : x / (2 * u) * (2 * u) = x) by (field; lra).
  unfold Rabs in Herr. apply Rabs_le.
  destruct (Rcase_abs (m - x / (2 * u))); nra.
Qed.

(** [(float) pi] is 13176795 * 2^-22, which lies above [pi]. *)
Lemma to_float_PI : to_float PI = 13176795 / 4194304.
Proof.
  pose proof PI_bounds as Hpi.
  assert (He : float_exponent PI = 1%Z).
  { apply float_exponent_eq; [lia |]. rewrite Rabs_pos_eq by lra.
    simpl. lra. }
  unfold to_float, float_ulp. rewrite He, Reqb_false by lra.
  replace (powerRZ 2 (1 - 23)) with (/ 4194304) by (simpl; lra).
  rewrite (lrint_near _ 13176795); lra.
Qed.

Lemma to_float_opp_PI : to_float (- PI) = - (13176795 / 4194304).
Proof.
  pose proof PI_bounds as Hpi.
  assert (He : float_exponent (- PI) = 1%Z).
  { apply float_exponent_eq; [lia |]. rewrite Rabs_Ropp, Rabs_pos_eq by lra.
    simpl. lra. }
  unfold to_float, float_ulp. rewrite He, Reqb_false by lra.
  replace (powerRZ 2 (1 - 23)) with (/ 4194304) by (simpl; lra).
  rewrite (lrint_near _ (-13176795)); lra.
Qed.

Lemma wrapTo2Pi_over (a : R) :
  2 * PI <= a < 4 * PI -> mrpt.wrapTo2Pi a = a - 2 * PI.
Proof.
  intros H. pose proof PI_RGT_0 as Hpi. unfold mrpt.wrapTo2Pi, mrpt.fmod.
  assert (Hq : a / (2 * PI) * (2 * PI) = a) by (field; lra).
  assert (Ht : mrpt.trunc (a / (2 * PI)) = 1%Z).
  { unfold mrpt.trunc. rewrite Rltb_false by nra.
    apply Zfloor_eq. split; nra. }
  rewrite Ht, Rltb_false by lra. ring.
Qed.

(** The path index at [pi], and at the single-precision numbers next to
    [pi] and [- pi]: the first path for [(float) pi], the last one for
    [(float) (- pi)]. *)
Lemma alpha2index_PI (n : Z) : (0 < n)%Z -> mrpt.alpha2index PI n = 0%Z.
Proof.
  intros Hn. pose proof PI_RGT_0 as Hpi. unfold mrpt.alpha2index, mrpt.wrapToPi.
  rewrite wrapTo2Pi_over by lra.
  replace (0.5 * (IZR n * (1 + (PI + PI - 2 * PI - PI) / PI) - 1))
    with (- (1 / 2)).
  - unfold mrpt.round, mrpt.lrint.
    rewrite (Zfloor_eq (-1)) by (simpl; lra).
    rewrite Rltb_false by (simpl; lra). rewrite Rltb_false by (simpl; lra).
    cbn [Z.even]. change (-1 + 1)%Z with 0%Z. cbn [Z.ltb Z.compare].
    destruct (Z.geb_spec 0 n); [lia | reflexivity].
  - replace ((PI + PI - 2 * PI - PI) / PI) with (-1) by (field; lra). lra.
Qed.

Lemma alpha2index_float_PI (n : Z) :
  (0 < n <= 65535)%Z -> mrpt.alpha2index (13176795 / 4194304) n = 0%Z.
Proof.
  intros Hn. pose proof PI_bounds as Hpi.
  unfold mrpt.alpha2index, mrpt.wrapToPi.
  rewrite wrapTo2Pi_over by lra.
  set (q := (13176795 / 4194304 + PI - 2 * PI - PI) / PI).
  assert (Hq : q * PI = 13176795 / 4194304 - 2 * PI) by (subst q; field; lra).
  assert (Hq1 : -1 < q < -1 + 3 / 100000000) by (split; nra).
  assert (Hn1 : 1 <= IZR n <= 65535).
  { split; apply IZR_le; lia. }
  unfold mrpt.round. rewrite (lrint_near _ 0) by (simpl; split; nra).
  cbn [Z.ltb Z.compare]. destruct (Z.geb_spec 0 n); [lia | reflexivity].
Qed.

Lemma alpha2index_float_opp_PI (n : Z) :
  (0 < n <= 65535)%Z ->
  mrpt.alpha2index (- (13176795 / 4194304)) n = (n - 1)%Z.
Proof.
  intros Hn. pose proof PI_bounds as Hpi.
  unfold mrpt.alpha2index, mrpt.wrapToPi.
  rewrite wrapTo2Pi_neg by lra.
  set (q := (- (13176795 / 4194304) + PI + 2 * PI - PI) / PI).
  assert (Hq : q * PI = 2 * PI - 13176795 / 4194304) by (subst q; field; lra).
  assert (Hq1 : 1 - 3 / 100000000 < q < 1) by (split; nra).
  assert (Hn1 : 1 <= IZR n <= 65535).
  { split; apply IZR_le; lia. }
  unfold mrpt.round.
  rewrite (lrint_near _ (n - 1)) by (rewrite minus_IZR; split; nra).
  destruct (Z.ltb_spec (n - 1) 0); [lia |].
  destruct (Z.geb_spec (n - 1) n); [lia |].
  apply to_uint16_small. lia.
Qed.

(* ================================================================= *)
(** ** DiffDrive_C: the inverse map                                  *)
(* ================================================================= *)

Module DiffDrive_C_spec.
Import DiffDrive_C.

Lemma asserts_pass (p : t) (k : Z) (d : R) (e : bool) :
  (0 <= k < m_alphaValuesCount p)%Z ->
  (ASSERT_ "k_out >= 0" (k >=? 0)%Z ;;;
   ASSERT_ "k_out < m_alphaValuesCount" (k <? m_alphaValuesCount p)%Z ;;;
   Ok (k, d, e)) = Ok (k, d, e).
Proof.
  intros H. destruct (Z.geb_spec k 0); [| lia].
  destruct (Z.ltb_spec k (m_alphaValuesCount p)); [| lia]. reflexivity.
Qed.

Lemma theta_raw_bound (p : t) (x y : R) : - PI < theta_raw p x y <= PI.
Proof.
  unfold theta_raw.
  destruct (K p >? 0); destruct (y >? 0); apply atan2_bound.
Qed.

Lemma arc_branch (p : t) (x y : R) :
  (0 < m_alphaValuesCount p <= 65535)%Z -> y <> 0 ->
  inverseMap_WS2TP p x y =
  Ok (mrpt.alpha2index
        (to_float
           (PI * V_MAX p /
            (W_MAX p * (if Rabs (Rarc x y) <? Rmin p
                        then Rmin p * IZR (mrpt.sign (Rarc x y))
                        else Rarc x y))))
        (m_alphaValuesCount p),
      to_float (mrpt.wrapTo2Pi (theta_raw p x y) *
                (Rabs (Rarc x y) + turningRadiusReference p))
        / refDistance p,
      negb (Rabs (Rarc x y) <? Rmin p)).
Proof.
  intros Hn Hy. unfold inverseMap_WS2TP.
  destruct (Reqb_spec y 0) as [? | _]; [contradiction |]. cbn [negb].
  destruct (Rabs (Rarc x y) <? Rmin p); cbn [negb];
    rewrite asserts_pass by (apply alpha2index_range; assumption);
    reflexivity.
Qed.

Lemma sign_cases (x : R) :
  (x < 0 /\ mrpt.sign x = (-1)%Z) \/ (0 <= x /\ mrpt.sign x = 1%Z).
Proof.
  unfold mrpt.sign. destruct (Rltb_spec x 0); [left | right]; split;
    try reflexivity; lra.
Qed.

(** On a clamped radius the angle [a] is [pi] or [- pi], by the signs of
    [V_MAX / W_MAX] and of the radius. *)
Lemma clamped_angle (p : t) (r : R) :
  W_MAX p <> 0 -> Rabs r < Rmin p ->
  let a := PI * V_MAX p / (W_MAX p * (Rmin p * IZR (mrpt.sign r))) in
  (0 < V_MAX p / W_MAX p * r -> a = PI) /\
  (V_MAX p / W_MAX p * r < 0 -> a = - PI).
Proof.
  intros HW Hc a. subst a. pose proof (Rabs_pos r) as Hr.
  assert (HV : V_MAX p <> 0).
  { intros E. unfold Rmin in Hc. rewrite E in Hc. unfold Rdiv in Hc.
    rewrite Rmult_0_l, Rabs_R0 in Hc. lra. }
  unfold Rmin in *.
  destruct (sign_cases r) as [[HR ->] | [HR ->]];
    destruct (Rcase_abs (V_MAX p / W_MAX p)) as [Hv | Hv];
    [ rewrite (Rabs_left _ Hv) | rewrite (Rabs_right _ Hv)
    | rewrite (Rabs_left _ Hv) | rewrite (Rabs_right _ Hv) ];
    split; intros H; try (exfalso; nra); field; auto.
Qed.

Lemma theta_unit (p : t) (y : R) :
  K p > 0 -> Rabs y = 1 -> theta_raw p 0 y = PI.
Proof.
  intros HK Hy. unfold theta_raw.
  assert (HR : Rabs (Rarc 0 y) = 1 / 2).
  { unfold Rarc. unfold Rabs in *. destruct (Rcase_abs y).
    - replace y with (-1) by lra.
      destruct (Rcase_abs ((0 * 0 + -1 * -1) / (2 * -1))); lra.
    - replace y with 1 by lra.
      destruct (Rcase_abs ((0 * 0 + 1 * 1) / (2 * 1))); lra. }
  rewrite HR. rewrite (Rltb_true 0 (K p)) by lra.
  unfold Rabs in Hy.
  destruct (Rcase_abs y); destruct (Rltb_spec 0 y); try lra;
    apply atan2_neg_axis; lra.
Qed.

Lemma arc_branch_unit (p : t) :
  (0 < m_alphaValuesCount p <= 65535)%Z ->
  K p > 0 -> V_MAX p = 1 -> W_MAX p = 1 ->
  inverseMap_WS2TP p 0 1 =
  Ok (0%Z,
      to_float (PI * (1 / 2 + turningRadiusReference p)) / refDistance p,
      false) /\
  inverseMap_WS2TP p 0 (-1) =
  Ok ((m_alphaValuesCount p - 1)%Z,
      to_float (PI * (1 / 2 + turningRadiusReference p)) / refDistance p,
      false).
Proof.
  intros Hn HK HV HW. pose proof PI_RGT_0 as Hpi.
  assert (Hmin : Rmin p = 1).
  { unfold Rmin. rewrite HV, HW. unfold Rdiv. rewrite Rinv_1, Rmult_1_r.
    apply Rabs_R1. }
  assert (Habs : Rabs (1 / 2) = 1 / 2) by (apply Rabs_pos_eq; lra).
  split.
  - rewrite arc_branch by (assumption || lra).
    assert (HR : Rarc 0 1 = 1 / 2) by (unfold Rarc; field).
    rewrite theta_unit by (assumption || apply Rabs_R1).
    rewrite HR, Hmin, Habs, HV, HW.
    rewrite (Rltb_true (1 / 2) 1) by lra. cbn [negb].
    rewrite wrapTo2Pi_nonneg by lra.
    unfold mrpt.sign. rewrite (Rltb_false (1 / 2) 0) by lra.
    replace (PI * 1 / (1 * (1 * 1))) with PI by field.
    rewrite to_float_PI, alpha2index_float_PI by exact Hn. reflexivity.
  - rewrite arc_branch by (assumption || lra).
    assert (HR : Rarc 0 (-1) = - (1 / 2)) by (unfold Rarc; field).
    rewrite theta_unit by
      (assumption || (unfold Rabs; destruct (Rcase_abs (-1)); lra)).
    rewrite HR, Rabs_Ropp, Hmin, Habs, HV, HW.
    rewrite (Rltb_true (1 / 2) 1) by lra. cbn [negb].
    rewrite wrapTo2Pi_nonneg by lra.
    unfold mrpt.sign. rewrite (Rltb_true (- (1 / 2)) 0) by lra.
    replace (PI * 1 / (1 * (1 * (-1)))) with (- PI) by field.
    rewrite to_float_opp_PI, alpha2index_float_opp_PI by exact Hn.
    reflexivity.
Qed.

Lemma straight_branch (p : t) (x : R) :
  (0 < m_alphaValuesCount p <= 65535)%Z ->
  inverseMap_WS2TP p x 0 =
  Ok (if (mrpt.sign x =? mrpt.sign (K p))%Z
      then (mrpt.alpha2index 0 (m_alphaValuesCount p), x / refDistance p, true)
      else ((m_alphaValuesCount p - 1)%Z, 1000 / refDistance p, false)).
Proof.
  intros Hn. unfold inverseMap_WS2TP.
  destruct (Reqb_spec 0 0) as [_ | ?]; [| lra]. cbn [negb].
  destruct (mrpt.sign x =? mrpt.sign (K p))%Z.
  - rewrite asserts_pass by (apply alpha2index_range; assumption).
    reflexivity.
  - rewrite asserts_pass by lia. reflexivity.
Qed.

(** C1 (as amended).  For [y <> 0], on a PTG with [W_MAX <> 0] and
    [refDistance <> 0] and an arc length that fits single precision
    (where the source computes with finite numbers), the inverse map
    returns: the path index [alpha2index ((float) a)] of the angle
    [a = pi * V_MAX / (W_MAX * R')] narrowed to single precision, where
    [R'] is the radius [R = (x^2+y^2)/(2y)] clamped in absolute value to
    [R_min = |V_MAX/W_MAX|]; the distance
    [(float) (theta * (|R| + turningRadiusReference)) / refDistance]
    where [theta], wrapped to [[0, 2 pi)], and [|R|] are those of the
    radius before clamping; and [exact = false] exactly when the radius
    was clamped.  On a clamped radius [a] is [pi] or [- pi], and the
    narrowing, which moves these away from zero, selects the first path
    for [pi] and the last one for [- pi].  For K = +1,
    V_MAX = W_MAX = 1 the input (0, 1) gives [theta = pi], [|R| = 1/2],
    hence the distance [(float) (pi * (1/2 + turningRadiusReference))]
    before normalization (as long as that fits single precision), the
    index 0, which is [alpha2index pi], and [exact = false]; the input
    (0, -1) gives the same distance and the last index. *)
Theorem inverseMap_arc_branch (p : t) :
  (0 < m_alphaValuesCount p <= 65535)%Z ->
  W_MAX p <> 0 -> refDistance p <> 0 ->
  (forall x y : R, y <> 0 ->
     let R := Rarc x y in
     let R' := if Rabs R <? Rmin p then Rmin p * IZR (mrpt.sign R) else R in
     let theta := mrpt.wrapTo2Pi (theta_raw p x y) in
     let a := PI * V_MAX p / (W_MAX p * R') in
     let k := mrpt.alpha2index (to_float a) (m_alphaValuesCount p) in
     Rabs (theta * (Rabs R + turningRadiusReference p)) < powerRZ 2 127 ->
     0 <= theta < 2 * PI /\
     (Rabs R < Rmin p -> Rabs R' = Rmin p) /\
     inverseMap_WS2TP p x y =
     Ok (k,
         to_float (theta * (Rabs R + turningRadiusReference p))
           / refDistance p,
         negb (Rabs R <? Rmin p)) /\
     (Rabs R < Rmin p ->
      (0 < V_MAX p / W_MAX p * R -> a = PI /\ k = 0%Z) /\
      (V_MAX p / W_MAX p * R < 0 ->
       a = - PI /\ k = (m_alphaValuesCount p - 1)%Z))) /\
  (K p > 0 -> V_MAX p = 1 -> W_MAX p = 1 ->
   Rabs (PI * (1 / 2 + turningRadiusReference p)) < powerRZ 2 127 ->
     inverseMap_WS2TP p 0 1 =
     Ok (0%Z,
         to_float (PI * (1 / 2 + turningRadiusReference p)) / refDistance p,
         false) /\
     mrpt.alpha2index PI (m_alphaValuesCount p) = 0%Z /\
     inverseMap_WS2TP p 0 (-1) =
     Ok ((m_alphaValuesCount p - 1)%Z,
         to_float (PI * (1 / 2 + turningRadiusReference p)) / refDistance p,
         false)).
Proof.
  intros Hn HW _. pose proof PI_RGT_0 as Hpi. split.
  - intros x y Hy R R' theta a k _. split; [| split; [| split]].
    + apply wrapTo2Pi_range. pose proof (theta_raw_bound p x y). lra.
    + intros Hc. subst R'. destruct (Rltb_spec (Rabs R) (Rmin p)); [| lra].
      rewrite Rabs_mult. unfold mrpt.sign.
      assert (Hm : 0 <= Rmin p) by apply Rabs_pos.
      rewrite (Rabs_pos_eq (Rmin p)) by assumption.
      destruct (R <? 0); rewrite <- abs_IZR; simpl; ring.
    + apply arc_branch; assumption.
    + intros Hc. subst k a R'. rewrite (Rltb_true _ _ Hc).
      destruct (clamped_angle p R HW Hc) as [Hpos Hneg].
      split; intros Hs.
      * rewrite (Hpos Hs). split; [reflexivity |].
        rewrite to_float_PI. apply alpha2index_float_PI. exact Hn.
      * rewrite (Hneg Hs). split; [reflexivity |].
        rewrite to_float_opp_PI. apply alpha2index_float_opp_PI. exact Hn.
  - intros HK HV HW1 _.
    destruct (arc_branch_unit p Hn HK HV HW1) as [H1 H2].
    split; [exact H1 |]. split; [| exact H2].
    apply alpha2index_PI. lia.
Qed.

Lemma inverseMap_arc_branch_witness :
  inverseMap_WS2TP Examples.unit_ptg 0 1 =
  Ok (0%Z, to_float (PI * (1 / 2 + 1 / 10)) / 1, false) /\
  mrpt.alpha2index PI 31 = 0%Z /\
  inverseMap_WS2TP Examples.unit_ptg 0 (-1) =
  Ok (30%Z, to_float (PI * (1 / 2 + 1 / 10)) / 1, false).
Proof.
  pose proof PI_bounds as Hpi.
  refine (proj2 (inverseMap_arc_branch Examples.unit_ptg _ _ _) _ _ _ _).
  - cbn. lia.
  - cbn. lra.
  - cbn. lra.
  - cbn. lra.
  - reflexivity.
  - reflexivity.
  - cbn [Examples.unit_ptg turningRadiusReference].
    rewrite Rabs_pos_eq by lra.
    change (powerRZ 2 127) with (2 ^ Pos.to_nat 127).
    apply Rlt_le_trans with (2 ^ 2); [simpl; lra |].
    apply Rle_pow; [lra | lia].
Defined.

(** C1, counterexample.  With K = +1, V_MAX = W_MAX = 1,
    turningRadiusReference = 0.1 and refDistance = 1, the distance
    returned for (0, 1) is [pi * (1/2 + 0.1)] in single precision, at
    most 2^-24 away from that number, and not
    [pi/2 * (1 + turningRadiusReference)]. *)
Lemma inverseMap_unit_distance_counterexample :
  exists k d e,
    inverseMap_WS2TP Examples.unit_ptg 0 1 = Ok (k, d, e) /\
    d * refDistance Examples.unit_ptg = to_float (PI * (1 / 2 + 1 / 10)) /\
    Rabs (d * refDistance Examples.unit_ptg - PI * (1 / 2 + 1 / 10))
      <= / 16777216 /\
    d * refDistance Examples.unit_ptg <>
      PI / 2 * (1 + turningRadiusReference Examples.unit_ptg).
Proof.
  pose proof PI_bounds as Hpi.
  assert (Hnear : Rabs (to_float (PI * (1 / 2 + 1 / 10))
                        - PI * (1 / 2 + 1 / 10)) <= / 16777216).
  { replace (/ 16777216) with (powerRZ 2 (0 - 24)) by (simpl; lra).
    apply to_float_near; [lia |]. rewrite Rabs_pos_eq by lra.
    simpl. lra. }
  assert (Hd : to_float (PI * (1 / 2 + 1 / 10)) / 1 * 1
               = to_float (PI * (1 / 2 + 1 / 10))) by field.
  eexists _, _, _. split; [| split; [| split]].
  - apply arc_branch_unit; cbn; try lia; lra.
  - cbn [refDistance Examples.unit_ptg turningRadiusReference]. exact Hd.
  - cbn [refDistance Examples.unit_ptg turningRadiusReference].
    rewrite Hd. exact Hnear.
  - cbn [refDistance Examples.unit_ptg turningRadiusReference].
    rewrite Hd. unfold Rabs in Hnear.
    destruct (Rcase_abs _) in Hnear; lra.
Qed.

(** C10 (as amended).  With a positive number of paths the terminal
    assertions never fire: for every input the inverse map returns a
    path index [0 <= k_out < alphaValuesCount].  For the input (0, 0) the
    branch [y = 0] is taken; [mrpt::sign] gives +1 at 0, so for [K < 0]
    the signs differ and the result is [alphaValuesCount - 1],
    [1e+3 / refDistance], [exact = false], while for [K >= 0] the signs
    agree and the result is [alpha2index 0], [0 / refDistance],
    [exact = true]. *)
Theorem inverseMap_index_in_range (p : t) :
  (0 < m_alphaValuesCount p <= 65535)%Z ->
  (forall x y : R,
     exists k d e,
       inverseMap_WS2TP p x y = Ok (k, d, e) /\
       (0 <= k < m_alphaValuesCount p)%Z) /\
  (K p < 0 ->
     inverseMap_WS2TP p 0 0 =
     Ok ((m_alphaValuesCount p - 1)%Z, 1000 / refDistance p, false)) /\
  (0 <= K p ->
     inverseMap_WS2TP p 0 0 =
     Ok (mrpt.alpha2index 0 (m_alphaValuesCount p), 0 / refDistance p, true)).
Proof.
  intros Hn. split; [| split].
  - intros x y. destruct (Req_dec y 0) as [-> | Hy].
    + rewrite straight_branch by assumption.
      destruct (mrpt.sign x =? mrpt.sign (K p))%Z; eexists _, _, _;
        (split; [reflexivity |]).
      * apply alpha2index_range; assumption.
      * lia.
    + rewrite arc_branch by assumption. eexists _, _, _.
      split; [reflexivity |]. apply alpha2index_range; assumption.
  - intros HK. rewrite straight_branch by assumption. unfold mrpt.sign.
    destruct (Rltb_spec 0 0); [lra |]. destruct (Rltb_spec (K p) 0); [| lra].
    reflexivity.
  - intros HK. rewrite straight_branch by assumption. unfold mrpt.sign.
    destruct (Rltb_spec 0 0); [lra |]. destruct (Rltb_spec (K p) 0); [lra |].
    reflexivity.
Qed.

Lemma inverseMap_index_in_range_witness :
  (exists k d e,
     inverseMap_WS2TP Examples.backward_ptg 3 4 = Ok (k, d, e) /\
     (0 <= k < 31)%Z) /\
  inverseMap_WS2TP Examples.backward_ptg 0 0 = Ok (30%Z, 1000 / 1, false).
Proof.
  assert (Hn : (0 < m_alphaValuesCount Examples.backward_ptg <= 65535)%Z)
    by (cbn; lia).
  split.
  - exact (proj1 (inverseMap_index_in_range Examples.backward_ptg Hn) 3 4).
  - refine (proj1 (proj2 (inverseMap_index_in_range Examples.backward_ptg
                            Hn)) _).
    cbn. lra.
Defined.

(** C10, counterexample.  For K = +1 the input (0, 0) does not take the
    fallback: [sign 0 = sign K = +1], the result is exact with distance 0. *)
Lemma inverseMap_origin_counterexample :
  inverseMap_WS2TP Examples.unit_ptg 0 0
    = Ok (mrpt.alpha2index 0 31, 0 / 1, true) /\
  inverseMap_WS2TP Examples.unit_ptg 0 0 <>
    Ok ((m_alphaValuesCount Examples.unit_ptg - 1)%Z,
        1000 / refDistance Examples.unit_ptg, false).
Proof.
  assert (H : inverseMap_WS2TP Examples.unit_ptg 0 0 =
              Ok (mrpt.alpha2index 0 31, 0 / 1, true)).
  { rewrite straight_branch by (cbn; lia). unfold mrpt.sign. cbn.
    destruct (Rltb_spec 0 0); [lra |]. destruct (Rltb_spec 1 0); [lra |].
    reflexivity. }
  split; [exact H |]. rewrite H. intros E. inversion E.
Qed.

End DiffDrive_C_spec.

(* ================================================================= *)
(** ** HolonomicBlend: arc length, path step, inverse map            *)
(* ================================================================= *)

Module HolonomicBlend_spec.
Import HolonomicBlend Notions.

(** The integrand of the arc length is a sum of two squares. *)
Lemma integrand_nonneg (k2 k4 vxi vyi t : R) :
  0 <= (k2 * k2 * 4 + k4 * k4 * 4) * t * t
       + (k2 * vxi * 4 + k4 * vyi * 4) * t + (vxi * vxi + vyi * vyi).
Proof.
  pose proof (Rle_0_sqr (2 * k2 * t + vxi)) as H1.
  pose proof (Rle_0_sqr (2 * k4 * t + vyi)) as H2.
  unfold Rsqr in H1, H2. lra.
Qed.

Lemma trapezoid_loop_returns (n : nat) (At a b c : R) (st : R * R * R) :
  (forall t, 0 <= a * t * t + b * t + c) ->
  exists d, trapezoid_loop n At a b c st = Ok d.
Proof.
  intros Hq. revert st. induction n as [| n IH]; intros [[t d] f].
  - exists d. reflexivity.
  - cbn [trapezoid_loop].
    destruct (Rltb_spec (- (1 / 100000))
                (a * (t + At) * (t + At) + b * (t + At) + c)) as [_ | Hn].
    + cbn [ASSERT_ bind]. apply IH.
    + exfalso. apply Hn. specialize (Hq (t + At)). lra.
Qed.

Lemma abc_numeric_returns (T a b c : R) :
  0 <= a -> 0 <= c -> (forall t, 0 <= a * t * t + b * t + c) ->
  exists d, calc_trans_distance_t_below_Tramp_abc_numeric T a b c = Ok d.
Proof.
  intros Ha Hc Hq. unfold calc_trans_distance_t_below_Tramp_abc_numeric.
  destruct (Rleb_spec 0 a); [| contradiction].
  destruct (Rleb_spec 0 c); [| contradiction].
  cbn [ASSERT_ bind]. apply trapezoid_loop_returns. assumption.
Qed.

(** No assertion of the arc-length computation can fire. *)
Lemma calc_trans_distance_returns (k2 k4 vxi vyi t : R) :
  exists d, calc_trans_distance_t_below_Tramp k2 k4 vxi vyi t = Ok d.
Proof.
  unfold calc_trans_distance_t_below_Tramp.
  destruct (_ || _); [| eexists; reflexivity].
  destruct (_ && _); [eexists; reflexivity |].
  apply abc_numeric_returns.
  - nra.
  - nra.
  - intros u. apply integrand_nonneg.
Qed.

Lemma internal_getPathDist_returns (p : t) (step : Z) (T vxf vyf : R) :
  exists d, internal_getPathDist p step T vxf vyf = Ok d.
Proof.
  unfold internal_getPathDist.
  destruct (_ <? T).
  - apply calc_trans_distance_returns.
  - edestruct calc_trans_distance_returns as [d ->].
    eexists. reflexivity.
Qed.

Lemma lrint_nonneg (x : R) : 0 <= x -> (0 <= mrpt.lrint x)%Z.
Proof.
  intros Hx. assert (H : (0 <= Zfloor x)%Z) by (apply Zfloor_lub; exact Hx).
  unfold mrpt.lrint.
  destruct (_ <? 1 / 2); [assumption |].
  destruct (_ >? 1 / 2); [lia |].
  destruct (Z.even _); lia.
Qed.

Lemma to_uint32_small (z : Z) : (0 <= z < 4294967296)%Z -> to_uint32 z = z.
Proof. intros H. unfold to_uint32. apply Z.mod_small. assumption. Qed.

Lemma ramp_distance_returns (p : t) (d : R) :
  exists D_ramp, ramp_distance p d = Ok D_ramp.
Proof. unfold ramp_distance. apply calc_trans_distance_returns. Qed.

(** C4.  On an initialized PTG ([T_ramp_max > 0], [V_MAX > 0]) and a
    valid path index, the ramp arc length [D_ramp] over [[0, T_ramp]] is
    computed without failure, and for every [dist >= D_ramp] the call
    succeeds with the solved time [t = T_ramp + (dist - D_ramp) / V_MAX]
    and the step [round (t / PATH_TIME_STEP)], [PATH_TIME_STEP] being
    10 ms; the step is that number as long as it fits the 32-bit
    out-parameter. *)
Theorem getPathStepForDist_after_ramp (p : t) (k : Z) :
  0 < T_ramp_max p -> 0 < V_MAX p -> (k < m_alphaValuesCount p)%Z ->
  PATH_TIME_STEP = 10 / 1000 /\
  exists d D_ramp,
    mrpt.index2alpha k (m_alphaValuesCount p) = Ok d /\
    ramp_distance p d = Ok D_ramp /\
    forall dist, dist >= D_ramp ->
      let t_solved := T_ramp_max p + (dist - D_ramp) / V_MAX p in
      let step := mrpt.round (t_solved / PATH_TIME_STEP) in
      getPathStepForDist p k dist = Ok (Some (to_uint32 step)) /\
      (0 <= step)%Z /\
      ((step < 4294967296)%Z -> to_uint32 step = step).
Proof.
  intros HT HV Hk. split; [reflexivity |].
  assert (Hd : mrpt.index2alpha k (m_alphaValuesCount p) =
               Ok (PI * (-1 + 2 * (IZR k + 0.5)
                                / IZR (m_alphaValuesCount p)))).
  { unfold mrpt.index2alpha.
    destruct (Z.ltb_spec k (m_alphaValuesCount p)); [reflexivity | lia]. }
  destruct (ramp_distance_returns p
              (PI * (-1 + 2 * (IZR k + 0.5) / IZR (m_alphaValuesCount p))))
    as [D HD].
  eexists _, D. split; [exact Hd |]. split; [exact HD |].
  intros dist Hdist t_solved step.
  assert (Ht : 0 <= t_solved).
  { subst t_solved. assert (0 <= (dist - D) / V_MAX p).
    { apply Rmult_le_pos; [lra |]. left. apply Rinv_0_lt_compat. exact HV. }
    lra. }
  assert (Hs : (0 <= step)%Z).
  { subst step. apply lrint_nonneg. unfold PATH_TIME_STEP.
    apply Rmult_le_pos; [exact Ht |]. left. apply Rinv_0_lt_compat. lra. }
  split; [| split].
  - unfold getPathStepForDist. rewrite Hd. cbn [bind].
    unfold ramp_distance in HD. cbn zeta in HD. rewrite HD. cbn [bind].
    destruct (Rleb_spec D dist); [| lra]. cbn [bind T_ramp].
    cbn [internal_params_from_dir_and_dynstate T_ramp]. fold t_solved.
    destruct (Rleb_spec 0 t_solved); [| lra]. reflexivity.
  - exact Hs.
  - intros Hlt. apply to_uint32_small. lia.
Qed.

Lemma getPathStepForDist_after_ramp_witness :
  PATH_TIME_STEP = 10 / 1000 /\
  exists d D_ramp,
    mrpt.index2alpha 15 31 = Ok d /\
    ramp_distance Examples.default_ptg d = Ok D_ramp /\
    forall dist, dist >= D_ramp ->
      let t_solved := 9 / 10 + (dist - D_ramp) / 1 in
      let step := mrpt.round (t_solved / PATH_TIME_STEP) in
      getPathStepForDist Examples.default_ptg 15 dist
        = Ok (Some (to_uint32 step)) /\
      (0 <= step)%Z /\
      ((step < 4294967296)%Z -> to_uint32 step = step).
Proof.
  apply (getPathStepForDist_after_ramp Examples.default_ptg 15);
    cbn; try lia; lra.
Defined.

(** A run on numbers: the default PTG at rest, straight ahead (path 15 of
    31, direction 0).  The ramp covers 0.45 m in 0.9 s; 1.45 m are reached
    at t = 1.9 s, step 190. *)
Lemma lrint_integer (z : Z) : mrpt.lrint (IZR z) = z.
Proof.
  unfold mrpt.lrint. rewrite ZfloorZ.
  replace (IZR z - IZR z) with 0 by ring.
  rewrite Rltb_true by lra. reflexivity.
Qed.

Lemma straight_ahead_index : mrpt.index2alpha 15 31 = Ok 0.
Proof.
  unfold mrpt.index2alpha.
  cbn [Z.ltb Z.compare Pos.compare Pos.compare_cont ASSERT_ bind].
  f_equal. replace (-1 + 2 * (15 + 0.5) / 31) with 0 by lra. ring.
Qed.

Example getPathStepForDist_example :
  getPathStepForDist Examples.default_ptg 15 (145 / 100) = Ok (Some 190%Z).
Proof.
  unfold getPathStepForDist. cbn [Examples.default_ptg m_alphaValuesCount].
  rewrite straight_ahead_index. cbn [bind].
  unfold internal_params_from_dir_and_dynstate,
    calc_trans_distance_t_below_Tramp.
  cbn [T_ramp vxf vxi vyf vyi Examples.default_ptg m_expr_v expr_vars
       var_V_MAX V_MAX T_ramp_max m_nav_dyn_state curVelLocal
       TTwist2D.vx TTwist2D.vy].
  rewrite cos_0, sin_0, Rabs_R1.
  replace ((1 * 1 - 0) * (1 / (2 * (9 / 10)))) with (5 / 9) by lra.
  replace ((1 * 0 - 0) * (1 / (2 * (9 / 10)))) with 0 by lra.
  replace (5 / 9 * 0 * 4 + 0 * 0 * 4) with 0 by lra.
  replace (0 * 0 + 0 * 0) with 0 by lra.
  replace (5 / 9 * (5 / 9) * 4 + 0 * 0 * 4) with (10 / 9 * (10 / 9)) by lra.
  rewrite sqrt_square by lra.
  rewrite Rabs_R0, (Rabs_pos_eq (5 / 9)) by lra. unfold eps.
  rewrite (Rltb_true (1 / 10000) (5 / 9)) by lra.
  rewrite (Rltb_true 0 (1 / 10000)) by lra.
  cbn [orb andb bind].
  rewrite Rleb_true by lra. cbn [bind].
  rewrite Rleb_true by lra.
  replace ((9 / 10 + (145 / 100 - 10 / 9 * (9 / 10 * (9 / 10)) * 0.5) / 1)
           / PATH_TIME_STEP) with (IZR 190) by (unfold PATH_TIME_STEP; lra).
  unfold mrpt.round. rewrite lrint_integer. reflexivity.
Qed.

Section InverseMapFacts.

Variable lu_solve : Mat44 -> Vec4 -> Vec4.

Lemma nonzero_offset_check (x y : R) :
  x <> 0 \/ y <> 0 -> negb (x =? 0) || negb (y =? 0) = true.
Proof.
  intros H. destruct (Reqb_spec x 0); destruct (Reqb_spec y 0);
    try reflexivity. tauto.
Qed.

Lemma with_Tramp_zero_offset (p : t) :
  inverseMap_WS2TP_with_Tramp lu_solve p 0 0 =
  Throw (AssertionFailed "x != 0 || y != 0").
Proof.
  unfold inverseMap_WS2TP_with_Tramp.
  destruct (Reqb_spec 0 0); [reflexivity | lra].
Qed.

Lemma with_Tramp_returns (p : t) (x y : R) :
  x <> 0 \/ y <> 0 ->
  exists r, inverseMap_WS2TP_with_Tramp lu_solve p x y = Ok r.
Proof.
  intros H. unfold inverseMap_WS2TP_with_Tramp.
  rewrite nonzero_offset_check by assumption. cbn [ASSERT_ bind].
  destruct (newton_loop _ _ _ _ _ _) as [q sol_found].
  destruct (sol_found && _); [| eexists; reflexivity].
  edestruct internal_getPathDist_returns as [d ->].
  eexists. reflexivity.
Qed.

End InverseMapFacts.

(** C9.  [inverseMap_WS2TP], and [PTG_IsIntoDomain] which calls it, need
    a nonzero offset: at (0, 0) the assertion [x != 0 || y != 0] fails
    and the call throws instead of returning [false]; for every other
    offset no assertion fires and the call returns its success flag
    (with the out-parameters when it is [true]), whatever the linear
    solver answers. *)
Theorem inverseMap_requires_nonzero_offset
  (lu_solve : Mat44 -> Vec4 -> Vec4) (p : t) :
  inverseMap_WS2TP lu_solve p 0 0 =
    Throw (AssertionFailed "x != 0 || y != 0") /\
  PTG_IsIntoDomain lu_solve p 0 0 =
    Throw (AssertionFailed "x != 0 || y != 0") /\
  forall x y : R, x <> 0 \/ y <> 0 ->
    (exists r : option (Z * R), inverseMap_WS2TP lu_solve p x y = Ok r) /\
    (exists b : bool, PTG_IsIntoDomain lu_solve p x y = Ok b).
Proof.
  split; [| split].
  - unfold inverseMap_WS2TP. rewrite with_Tramp_zero_offset. reflexivity.
  - unfold PTG_IsIntoDomain, inverseMap_WS2TP.
    rewrite with_Tramp_zero_offset. reflexivity.
  - intros x y H.
    destruct (with_Tramp_returns lu_solve p x y H) as [r Hr].
    unfold PTG_IsIntoDomain, inverseMap_WS2TP. rewrite Hr. cbn [bind].
    split; eexists; reflexivity.
Qed.

Lemma inverseMap_requires_nonzero_offset_witness :
  (exists r : option (Z * R),
     inverseMap_WS2TP Examples.residual_solver Examples.default_ptg 1 0
       = Ok r) /\
  (exists b : bool,
     PTG_IsIntoDomain Examples.residual_solver Examples.default_ptg 1 0
       = Ok b).
Proof.
  apply (proj2 (proj2 (inverseMap_requires_nonzero_offset
                         Examples.residual_solver Examples.default_ptg)) 1 0).
  left. lra.
Defined.

End HolonomicBlend_spec.

(* ================================================================= *)
(** ** Containers                                                    *)
(* ================================================================= *)

Module StdMap_facts.
Import StdMap.
Section WithValue.
Context {V : Type}.
Implicit Types (m : StdMap.t V) (k : nat) (v : V).

Lemma find_insert_same m k v : find k (insert k v m) = Some v.
Proof.
  induction m as [| [k' v'] r IH]; cbn [find insert].
  - rewrite Nat.eqb_refl. reflexivity.
  - destruct (Nat.ltb_spec k k'); cbn [find insert].
    + rewrite Nat.eqb_refl. reflexivity.
    + destruct (Nat.eqb_spec k k') as [-> | Hne]; cbn [find insert].
      * rewrite Nat.eqb_refl. reflexivity.
      * destruct (Nat.eqb_spec k k'); [contradiction | exact IH].
Qed.

Lemma find_insert_other m k k' v :
  k' <> k -> find k' (insert k v m) = find k' m.
Proof.
  intros Hne. induction m as [| [k0 v0] r IH]; cbn [find insert].
  - destruct (Nat.eqb_spec k' k); [contradiction | reflexivity].
  - destruct (Nat.ltb_spec k k0); cbn [find insert].
    + destruct (Nat.eqb_spec k' k); [contradiction | reflexivity].
    + destruct (Nat.eqb_spec k k0) as [-> | Hk]; cbn [find insert].
      * destruct (Nat.eqb_spec k' k0); [contradiction | reflexivity].
      * destruct (Nat.eqb_spec k' k0); [reflexivity | exact IH].
Qed.

Lemma find_In m k v : find k m = Some v -> In (k, v) m.
Proof.
  induction m as [| [k' v'] r IH]; cbn [find insert List.length];
    [discriminate |].
  destruct (Nat.eqb_spec k k') as [-> | Hne].
  - intros [= ->]. left. reflexivity.
  - intros H. right. apply IH. exact H.
Qed.

Lemma size_insert_fresh m k v :
  find k m = None -> size (insert k v m) = S (size m).
Proof.
  unfold size.
  induction m as [| [k' v'] r IH]; cbn [find insert List.length];
    [reflexivity |].
  destruct (Nat.eqb_spec k k'); [discriminate |]. intros H.
  destruct (Nat.ltb_spec k k'); cbn [find insert List.length]; [reflexivity |].
  rewrite IH by exact H. reflexivity.
Qed.

Lemma dense_fresh m : dense m -> find (size m) m = None.
Proof.
  intros Hd. destruct (find (size m) m) eqn:E; [| reflexivity].
  exfalso. apply (Nat.lt_irrefl (size m)). apply Hd. congruence.
Qed.

Lemma dense_insert_next m v : dense m -> dense (insert (size m) v m).
Proof.
  intros Hd k. rewrite size_insert_fresh by (apply dense_fresh; exact Hd).
  destruct (Nat.eq_dec k (size m)) as [-> | Hne].
  - rewrite find_insert_same. split; [lia | discriminate].
  - rewrite find_insert_other by exact Hne. rewrite (Hd k). lia.
Qed.

Lemma dense_nil : dense (@nil (nat * V)).
Proof. intros k. cbn. split; [congruence | lia]. Qed.

End WithValue.
End StdMap_facts.

Module StdMultimap_facts.
Import StdMultimap.
Section WithValue.
Context {V : Type}.

Lemma emplace_Forall (P : R * V -> Prop) (k : R) (v : V) m :
  P (k, v) -> Forall P m -> Forall P (emplace k v m).
Proof.
  intros Hk Hm. induction m as [| [k' v'] r IH]; cbn.
  - constructor; [exact Hk | constructor].
  - inversion Hm; subst. destruct (k <? k').
    + constructor; assumption.
    + constructor; [assumption | apply IH; assumption].
Qed.

Lemma emplace_In (k : R) (v : V) m : In (k, v) (emplace k v m).
Proof.
  induction m as [| [k' v'] r IH]; cbn; [left; reflexivity |].
  destruct (k <? k'); [left; reflexivity | right; exact IH].
Qed.

Lemma emplace_incl (k : R) (v : V) m : incl m (emplace k v m).
Proof.
  induction m as [| [k' v'] r IH]; cbn; [intros x [] |].
  destruct (k <? k').
  - intros x Hx. right. exact Hx.
  - intros x [<- | Hx]; [left; reflexivity | right; apply IH; exact Hx].
Qed.

Lemma emplace_ascending (k : R) (v : V) m :
  ascending m -> ascending (emplace k v m).
Proof.
  unfold ascending. induction m as [| [k' v'] r IH]; intros Hs; cbn.
  - constructor; constructor.
  - inversion Hs as [| ? ? Hr Hall]; subst.
    destruct (Rltb_spec k k') as [Hlt | Hge].
    + constructor; [exact Hs |]. constructor.
      * unfold key_le. cbn. lra.
      * eapply Forall_impl; [| exact Hall].
        intros [k2 v2]. unfold key_le. cbn. lra.
    + constructor; [apply IH; exact Hr |].
      apply emplace_Forall; [| exact Hall]. unfold key_le. cbn. lra.
Qed.

End WithValue.
End StdMultimap_facts.


(* ================================================================= *)
(** ** TPS_RRTstar: neighbour search                                 *)
(* ================================================================= *)

Module TPS_RRTstar_spec.
Import TPS_RRTstar StdMultimap_facts Notions.

Section NeighborSearch.

Variable X : Externals.
Variable w : World X.
Variable all_nodes : list (TNodeID * node_t).
Variable all_ptgs : list ptg_t.
Variable query : TPose2D.t.
Variable maxDistance : R.

Local Notation "'well_formed_'" :=
  (well_formed X w all_nodes all_ptgs query maxDistance).

Lemma ptg_loop_well_formed (id : TNodeID) (node : node_t) :
  In (id, node) all_nodes ->
  forall evaluators ptgIdx acc res,
    (forall j de, nth_error evaluators j = Some de ->
                  nth_error all_ptgs (ptgIdx + j) = Some de) ->
    well_formed_ acc ->
    find_nodes_ptg_loop X w evaluators ptgIdx id (state node) query
      maxDistance acc = Ok res ->
    well_formed_ res.
Proof.
  intros Hin. induction evaluators as [| de rest IH];
    intros ptgIdx acc res Hidx Hacc Hres; cbn [find_nodes_ptg_loop] in Hres.
  - injection Hres as <-. exact Hacc.
  - assert (Hrest : forall j de', nth_error rest j = Some de' ->
                      nth_error all_ptgs (S ptgIdx + j) = Some de').
    { intros j de' Hj. specialize (Hidx (S j) de' Hj).
      rewrite Nat.add_succ_r in Hidx. exact Hidx. }
    assert (Hde : nth_error all_ptgs ptgIdx = Some de).
    { specialize (Hidx 0%nat de eq_refl). rewrite Nat.add_0_r in Hidx.
      exact Hidx. }
    destruct (cannotBeNearerThan X de _ _ _ _) eqn:Hprune.
    { eapply IH; eassumption. }
    destruct (distance X de _ _ _) as [[[dist trajIndex] |] | e] eqn:Hdist;
      cbn [bind] in Hres; [| eapply IH; eassumption | discriminate].
    destruct (Rltb_spec 0 dist) as [Hpos | _];
      cbn [ASSERT_ bind] in Hres; [| discriminate].
    destruct (Rltb_spec maxDistance dist) as [_ | Hle].
    { eapply IH; eassumption. }
    eapply IH; [exact Hrest | | exact Hres].
    destruct Hacc as [Hall Hsorted]. split.
    + apply emplace_Forall; [| exact Hall].
      cbn. split; [reflexivity |]. split; [lra |].
      exists node, de. repeat split; assumption.
    + apply emplace_ascending. exact Hsorted.
Qed.

Lemma node_loop_well_formed :
  forall ns acc res,
    incl ns all_nodes ->
    well_formed_ acc ->
    find_nodes_node_loop X w ns all_ptgs query maxDistance acc = Ok res ->
    well_formed_ res.
Proof.
  induction ns as [| [id node] rest IH]; intros acc res Hincl Hacc Hres;
    cbn [find_nodes_node_loop] in Hres.
  - injection Hres as <-. exact Hacc.
  - destruct (find_nodes_ptg_loop X w all_ptgs 0%nat id (state node) query
                maxDistance acc) as [acc' | e] eqn:Hinner;
      cbn [bind] in Hres; [| discriminate].
    eapply (IH acc'); [| | exact Hres].
    + intros x Hx. apply Hincl. right. exact Hx.
    + eapply ptg_loop_well_formed; [| | exact Hacc | exact Hinner].
      * apply Hincl. left. reflexivity.
      * intros j de Hj. exact Hj.
Qed.

(** Nothing in reach is left out. *)
Lemma ptg_loop_complete (id : TNodeID) (node : node_t) :
  forall evaluators ptgIdx acc res,
    find_nodes_ptg_loop X w evaluators ptgIdx id (state node) query
      maxDistance acc = Ok res ->
    incl acc res /\
    forall j de d k,
      nth_error evaluators j = Some de ->
      cannotBeNearerThan X de (ptg_state w (ptgIdx + j)%nat) (state node) query
        maxDistance = false ->
      distance X de (ptg_state w (ptgIdx + j)%nat) (state node) query
        = Ok (Some (d, k)) ->
      d <= maxDistance ->
      In (d, (id, (ptgIdx + j)%nat, k, d)) res.
Proof.
  induction evaluators as [| de rest IH]; intros ptgIdx acc res Hres;
    cbn [find_nodes_ptg_loop] in Hres.
  - injection Hres as <-. split; [apply incl_refl |].
    intros [| j] de d k Hj; discriminate Hj.
  - assert (Hstep : forall acc',
      find_nodes_ptg_loop X w rest (S ptgIdx) id (state node) query
        maxDistance acc' = Ok res ->
      incl acc acc' ->
      (forall d k,
         cannotBeNearerThan X de (ptg_state w ptgIdx) (state node) query
           maxDistance = false ->
         distance X de (ptg_state w ptgIdx) (state node) query
           = Ok (Some (d, k)) ->
         d <= maxDistance -> In (d, (id, ptgIdx, k, d)) acc') ->
      incl acc res /\
      forall j de' d k,
        nth_error (de :: rest) j = Some de' ->
        cannotBeNearerThan X de' (ptg_state w (ptgIdx + j)%nat) (state node)
          query maxDistance = false ->
        distance X de' (ptg_state w (ptgIdx + j)%nat) (state node) query
          = Ok (Some (d, k)) ->
        d <= maxDistance ->
        In (d, (id, (ptgIdx + j)%nat, k, d)) res).
    { intros acc' Hloop Hincl Hhead.
      destruct (IH (S ptgIdx) acc' res Hloop) as [Hsub Htail]. split.
      - intros x Hx. apply Hsub, Hincl, Hx.
      - intros [| j] de' d k Hj Hp Hd Hle.
        + injection Hj as <-. rewrite Nat.add_0_r in *.
          apply Hsub. apply Hhead; assumption.
        + rewrite Nat.add_succ_r in *. cbn [nth_error] in Hj.
          apply (Htail j de' d k Hj); assumption. }
    destruct (cannotBeNearerThan X de _ _ _ _) eqn:Hprune.
    { apply (Hstep acc Hres); [apply incl_refl |]. intros d k [=]. }
    destruct (distance X de _ _ _) as [[[dist trajIndex] |] | e] eqn:Hdist;
      cbn [bind] in Hres; [| | discriminate].
    2:{ apply (Hstep acc Hres); [apply incl_refl |]. intros d k _ [=]. }
    destruct (Rltb_spec 0 dist) as [Hpos | _];
      cbn [ASSERT_ bind] in Hres; [| discriminate].
    destruct (Rltb_spec maxDistance dist) as [Hfar | Hle].
    { apply (Hstep acc Hres); [apply incl_refl |].
      intros d k _ [= <- <-] Hd. lra. }
    apply (Hstep _ Hres); [apply emplace_incl |].
    intros d k _ [= <- <-] _. apply emplace_In.
Qed.

Lemma node_loop_complete :
  forall ns acc res,
    find_nodes_node_loop X w ns all_ptgs query maxDistance acc = Ok res ->
    incl acc res /\
    forall id node j de d k,
      In (id, node) ns ->
      nth_error all_ptgs j = Some de ->
      cannotBeNearerThan X de (ptg_state w j) (state node) query
        maxDistance = false ->
      distance X de (ptg_state w j) (state node) query = Ok (Some (d, k)) ->
      d <= maxDistance ->
      In (d, (id, j, k, d)) res.
Proof.
  induction ns as [| [id0 node0] rest IH]; intros acc res Hres;
    cbn [find_nodes_node_loop] in Hres.
  - injection Hres as <-. split; [apply incl_refl |].
    intros id node j de d k [].
  - destruct (find_nodes_ptg_loop X w all_ptgs 0%nat id0 (state node0) query
                maxDistance acc) as [acc' | e] eqn:Hinner;
      cbn [bind] in Hres; [| discriminate].
    apply ptg_loop_complete in Hinner. destruct Hinner as [Hsub0 Hhere].
    destruct (IH acc' res Hres) as [Hsub Hrest]. split.
    + intros x Hx. apply Hsub, Hsub0, Hx.
    + intros id node j de d k [[= <- <-] | Hin] Hj Hp Hd Hle.
      * apply Hsub. apply (Hhere j de d k Hj); assumption.
      * apply (Hrest id node j de d k Hin Hj); assumption.
Qed.

End NeighborSearch.

Lemma find_nodes_within_ball_well_formed (X : Externals) (w : World X)
  (tree : MotionPrimitivesTreeSE2.t) (query : TPose2D.t) (r : R)
  (trs : TrajectoriesAndRobotShape) (closeNodes : closest_nodes_list_t) :
  find_nodes_within_ball X w tree query r trs = Ok closeNodes ->
  well_formed X w (nodes tree) (ptgs trs) query r closeNodes.
Proof.
  unfold find_nodes_within_ball. intros H.
  destruct (negb _); cbn [ASSERT_ bind] in H; [| discriminate].
  destruct (Nat.leb _ _); cbn [ASSERT_ bind] in H; [| discriminate].
  eapply node_loop_well_formed; [| | exact H].
  - apply incl_refl.
  - split; constructor.
Qed.

(** Conversely, every pair of a node and a PTG that is not pruned and
    whose distance query succeeds within the radius has its tuple in the
    multimap. *)
Lemma find_nodes_within_ball_complete (X : Externals) (w : World X)
  (tree : MotionPrimitivesTreeSE2.t) (query : TPose2D.t) (r : R)
  (trs : TrajectoriesAndRobotShape) (closeNodes : closest_nodes_list_t) :
  find_nodes_within_ball X w tree query r trs = Ok closeNodes ->
  forall id node j de d k,
    In (id, node) (nodes tree) ->
    nth_error (ptgs trs) j = Some de ->
    cannotBeNearerThan X de (ptg_state w j) (state node) query r = false ->
    distance X de (ptg_state w j) (state node) query = Ok (Some (d, k)) ->
    d <= r ->
    In (d, (id, j, k, d)) closeNodes.
Proof.
  unfold find_nodes_within_ball. intros H.
  destruct (negb _); cbn [ASSERT_ bind] in H; [| discriminate].
  destruct (Nat.leb _ _); cbn [ASSERT_ bind] in H; [| discriminate].
  apply node_loop_complete in H. destruct H as [_ H]. exact H.
Qed.

(** C5.  When [find_nodes_within_ball] returns, every tuple of the
    multimap comes from an exact PTG distance query that succeeded with
    [0 < d <= r] (a pruned pair, a failed query and a distance above [r]
    emit nothing), its key is that [d], and iteration visits the tuples
    by ascending [d]. *)
Theorem find_nodes_within_ball_sound (X : Externals) (w : World X)
  (tree : MotionPrimitivesTreeSE2.t) (query : TPose2D.t) (r : R)
  (trs : TrajectoriesAndRobotShape) (closeNodes : closest_nodes_list_t) :
  find_nodes_within_ball X w tree query r trs = Ok closeNodes ->
  Forall (emitted X w (nodes tree) (ptgs trs) query r) closeNodes /\
  StdMultimap.ascending closeNodes.
Proof. apply find_nodes_within_ball_well_formed. Qed.

(** Evaluate a call on concrete data: reduce, decide the comparisons. *)
Ltac cmp_step :=
  match goal with
  | |- context [Rltb ?a ?b] =>
      first [ rewrite (Rltb_true a b) by lra
            | rewrite (Rltb_false a b) by lra ]
  | |- context [Rleb ?a ?b] =>
      first [ rewrite (Rleb_true a b) by lra
            | rewrite (Rleb_false a b) by lra ]
  | |- context [Reqb ?a ?b] =>
      first [ rewrite (Reqb_true a b) by lra
            | rewrite (Reqb_false a b) by lra ]
  end.
Ltac run :=
  repeat first
    [ progress cbn
    | progress unfold bindM, lift, reading, on_ptg, retM, ASSERT_,
        within_bbox, TPose2D.eqb, mrpt.keep_max, max_ref_distance,
        draw_random_free_pose, rng_drawUniform, updateNavDynamicState,
        cached_local_obstacles, get_cache, set_cache,
        tp_obstacles_single_path, insert_node_and_edge
    | cmp_step ].

Lemma find_nodes_example :
  find_nodes_within_ball Examples.ext0 Examples.world0 Examples.root_tree
    (pose Examples.ahead) 2 Examples.trs0
  = Ok [(1 - 0, (0%nat, 0%nat, 0%Z, 1 - 0))].
Proof. run. reflexivity. Qed.

Lemma find_nodes_within_ball_sound_witness :
  Forall (emitted Examples.ext0 Examples.world0 (nodes Examples.root_tree)
            (ptgs Examples.trs0) (pose Examples.ahead) 2)
         [(1 - 0, (0%nat, 0%nat, 0%Z, 1 - 0))] /\
  StdMultimap.ascending [(1 - 0, (0%nat, 0%nat, 0%Z, 1 - 0))].
Proof.
  apply (find_nodes_within_ball_sound Examples.ext0 Examples.world0
           Examples.root_tree (pose Examples.ahead) 2 Examples.trs0).
  run. reflexivity.
Defined.

(* ================================================================= *)
(** ** TPS_RRTstar: local obstacles and their cache                  *)
(* ================================================================= *)

Lemma transform_pc_square_clipping_spec (globalObstacles : list TPoint2D)
  (p : TPose2D.t) (MAX_XY_DIST : R) :
  transform_pc_square_clipping globalObstacles (CPose2D.of_TPose2D p)
    MAX_XY_DIST
  = local_obstacles_spec globalObstacles p MAX_XY_DIST.
Proof.
  unfold transform_pc_square_clipping, local_obstacles_spec.
  induction globalObstacles as [| [gx gy] rest IH]; [reflexivity |].
  cbn [clipping_loop filter]. unfold in_square at 1.
  cbn [fst snd CPose2D.of_TPose2D CPose2D.x CPose2D.y].
  destruct (Rltb_spec MAX_XY_DIST (Rabs (gx - TPose2D.x p)));
    destruct (Rleb_spec (Rabs (gx - TPose2D.x p)) MAX_XY_DIST); try lra;
    cbn [orb andb]; [exact IH |].
  destruct (Rltb_spec MAX_XY_DIST (Rabs (gy - TPose2D.y p)));
    destruct (Rleb_spec (Rabs (gy - TPose2D.y p)) MAX_XY_DIST); try lra;
    cbn [orb andb]; [exact IH |].
  cbn [map]. rewrite IH. f_equal.
  unfold CPose2D.composePoint, CPose2D.inverse, CPose2D.of_TPose2D, to_local.
  cbn [CPose2D.x CPose2D.y CPose2D.phi fst snd].
  rewrite cos_neg, sin_neg. f_equal; ring.
Qed.

(** The heading enters the local frame through its sine and cosine only,
    which [wrapTo2Pi] keeps. *)
Lemma IZR_nonneg_INR (z : Z) : (0 <= z)%Z -> IZR z = INR (Z.to_nat z).
Proof. intros H. rewrite INR_IZR_INZ, Z2Nat.id by exact H. reflexivity. Qed.

Lemma IZR_neg_INR (z : Z) : (z < 0)%Z -> IZR z = - INR (Z.to_nat (- z)).
Proof.
  intros H. rewrite INR_IZR_INZ, Z2Nat.id by lia. rewrite opp_IZR. ring.
Qed.

Lemma cos_shift (x : R) (z : Z) : cos (x - 2 * PI * IZR z) = cos x.
Proof.
  destruct (Z_le_gt_dec 0 z) as [Hz | Hz].
  - rewrite (IZR_nonneg_INR z Hz).
    rewrite <- (cos_period (x - 2 * PI * INR (Z.to_nat z)) (Z.to_nat z)).
    f_equal. ring.
  - rewrite (IZR_neg_INR z) by lia.
    rewrite <- (cos_period x (Z.to_nat (- z))). f_equal. ring.
Qed.

Lemma sin_shift (x : R) (z : Z) : sin (x - 2 * PI * IZR z) = sin x.
Proof.
  destruct (Z_le_gt_dec 0 z) as [Hz | Hz].
  - rewrite (IZR_nonneg_INR z Hz).
    rewrite <- (sin_period (x - 2 * PI * INR (Z.to_nat z)) (Z.to_nat z)).
    f_equal. ring.
  - rewrite (IZR_neg_INR z) by lia.
    rewrite <- (sin_period x (Z.to_nat (- z))). f_equal. ring.
Qed.

Lemma wrapTo2Pi_shift (a : R) :
  exists z : Z, mrpt.wrapTo2Pi a = a - 2 * PI * IZR z.
Proof.
  unfold mrpt.wrapTo2Pi, mrpt.fmod. destruct (a <? 0).
  - exists (mrpt.trunc (a / (2 * PI)) - 1)%Z. rewrite minus_IZR. ring.
  - exists (mrpt.trunc (a / (2 * PI))). ring.
Qed.

Lemma cos_wrapTo2Pi (a : R) : cos (mrpt.wrapTo2Pi a) = cos a.
Proof. destruct (wrapTo2Pi_shift a) as [z ->]. apply cos_shift. Qed.

Lemma sin_wrapTo2Pi (a : R) : sin (mrpt.wrapTo2Pi a) = sin a.
Proof. destruct (wrapTo2Pi_shift a) as [z ->]. apply sin_shift. Qed.

Lemma TPose2D_eqb_refl (p : TPose2D.t) : TPose2D.eqb p p = true.
Proof. unfold TPose2D.eqb. rewrite !Reqb_refl. reflexivity. Qed.

Lemma TPose2D_eqb_frame (p1 p2 : TPose2D.t) :
  TPose2D.eqb p1 p2 = true ->
  TPose2D.x p1 = TPose2D.x p2 /\ TPose2D.y p1 = TPose2D.y p2 /\
  cos (TPose2D.phi p1) = cos (TPose2D.phi p2) /\
  sin (TPose2D.phi p1) = sin (TPose2D.phi p2).
Proof.
  unfold TPose2D.eqb. intros H.
  apply andb_prop in H. destruct H as [H Hphi].
  apply andb_prop in H. destruct H as [Hx Hy].
  destruct (Reqb_spec (TPose2D.x p1) (TPose2D.x p2)); [| discriminate].
  destruct (Reqb_spec (TPose2D.y p1) (TPose2D.y p2)); [| discriminate].
  destruct (Reqb_spec (mrpt.wrapTo2Pi (TPose2D.phi p1))
              (mrpt.wrapTo2Pi (TPose2D.phi p2))) as [E |]; [| discriminate].
  repeat split; try assumption.
  - rewrite <- (cos_wrapTo2Pi (TPose2D.phi p1)), E. apply cos_wrapTo2Pi.
  - rewrite <- (sin_wrapTo2Pi (TPose2D.phi p1)), E. apply sin_wrapTo2Pi.
Qed.

Lemma local_obstacles_spec_eqb (globalObstacles : list TPoint2D)
  (p1 p2 : TPose2D.t) (MAX_XY_DIST : R) :
  TPose2D.eqb p1 p2 = true ->
  local_obstacles_spec globalObstacles p1 MAX_XY_DIST
  = local_obstacles_spec globalObstacles p2 MAX_XY_DIST.
Proof.
  intros H. apply TPose2D_eqb_frame in H. destruct H as (Hx & Hy & Hc & Hs).
  unfold local_obstacles_spec.
  rewrite (filter_ext (in_square p1 MAX_XY_DIST) (in_square p2 MAX_XY_DIST)).
  - apply map_ext. intros g. unfold to_local. rewrite Hx, Hy, Hc, Hs.
    reflexivity.
  - intros g. unfold in_square. rewrite Hx, Hy. reflexivity.
Qed.

Section LocalObstacleCache.

Variable X : Externals.

Variable tree : MotionPrimitivesTreeSE2.t.
Variable nodeID : TNodeID.
Variable node : node_t.
Hypothesis node_in_tree : StdMap.find nodeID (nodes tree) = Some node.

Lemma cached_hit (globalObstacles : list TPoint2D) (MAX_XY_DIST : R)
  (w : World X) (ent : LocalObstaclesInfo) :
  StdMap.find nodeID (local_obstacles_cache_ w) = Some ent ->
  TPose2D.eqb (globalNodePose ent) (pose (state node)) = true ->
  cached_local_obstacles X tree nodeID globalObstacles MAX_XY_DIST w
  = Return (obs ent) w.
Proof.
  intros Hent Heq.
  unfold cached_local_obstacles, bindM, lift, StdMap.at_, get_cache.
  rewrite node_in_tree, Hent, Heq. reflexivity.
Qed.

Lemma cached_miss (globalObstacles : list TPoint2D) (MAX_XY_DIST : R)
  (w : World X) :
  (forall ent, StdMap.find nodeID (local_obstacles_cache_ w) = Some ent ->
               TPose2D.eqb (globalNodePose ent) (pose (state node)) = false) ->
  cached_local_obstacles X tree nodeID globalObstacles MAX_XY_DIST w
  = Return
      (local_obstacles_spec globalObstacles (pose (state node)) MAX_XY_DIST)
      (with_cache w
         (StdMap.insert nodeID
            (mkLocalObs (pose (state node))
               (local_obstacles_spec globalObstacles (pose (state node))
                  MAX_XY_DIST))
            (local_obstacles_cache_ w))).
Proof.
  intros Hmiss.
  unfold cached_local_obstacles, bindM, lift, StdMap.at_, get_cache.
  rewrite node_in_tree.
  destruct (StdMap.find nodeID (local_obstacles_cache_ w)) as [ent |] eqn:E.
  - rewrite (Hmiss ent eq_refl).
    unfold set_cache, retM. rewrite transform_pc_square_clipping_spec.
    reflexivity.
  - unfold set_cache, retM. rewrite transform_pc_square_clipping_spec.
    reflexivity.
Qed.

Lemma cache_consistent_insert (globalObstacles : list TPoint2D)
  (MAX_XY_DIST : R) (cache : StdMap.t LocalObstaclesInfo) (k : TNodeID)
  (p : TPose2D.t) :
  cache_consistent globalObstacles MAX_XY_DIST cache ->
  cache_consistent globalObstacles MAX_XY_DIST
    (StdMap.insert k
       (mkLocalObs p (local_obstacles_spec globalObstacles p MAX_XY_DIST))
       cache).
Proof.
  intros Hc k' ent. destruct (Nat.eq_dec k' k) as [-> | Hne].
  - rewrite StdMap_facts.find_insert_same. intros [= <-]. reflexivity.
  - rewrite StdMap_facts.find_insert_other by exact Hne. apply Hc.
Qed.

Lemma cached_consistent (globalObstacles : list TPoint2D) (MAX_XY_DIST : R)
  (w : World X) :
  cache_consistent globalObstacles MAX_XY_DIST (local_obstacles_cache_ w) ->
  exists w',
    cached_local_obstacles X tree nodeID globalObstacles MAX_XY_DIST w
    = Return
        (local_obstacles_spec globalObstacles (pose (state node)) MAX_XY_DIST)
        w' /\
    cache_consistent globalObstacles MAX_XY_DIST (local_obstacles_cache_ w').
Proof.
  intros Hc.
  destruct (StdMap.find nodeID (local_obstacles_cache_ w)) as [ent |] eqn:E.
  - destruct (TPose2D.eqb (globalNodePose ent) (pose (state node))) eqn:Heq.
    + exists w. split; [| exact Hc].
      rewrite (cached_hit _ _ _ ent E Heq). f_equal.
      rewrite (Hc _ _ E). apply local_obstacles_spec_eqb. exact Heq.
    + eexists. split.
      * apply cached_miss. intros ent' E'. congruence.
      * cbn. apply cache_consistent_insert. exact Hc.
  - eexists. split.
    + apply cached_miss. intros ent' E'. congruence.
    + cbn. apply cache_consistent_insert. exact Hc.
Qed.

End LocalObstacleCache.

(** C8 (as amended).  For a node of the tree, [cached_local_obstacles]
    reuses the cached entry of the node if and only if its stored pose
    equals the pose of the node, and then returns the stored point set
    as it is, leaving the cache unchanged; otherwise it returns exactly
    the global obstacle points with [|dx| <= MAX_XY_DIST] and
    [|dy| <= MAX_XY_DIST] around the node, in the frame of the node, and
    stores them with the pose.  Hence the result is exactly that clipped
    set whenever every cached entry was computed from the same cloud and
    the same [MAX_XY_DIST], which the call preserves. *)
Theorem cached_local_obstacles_reuse (X : Externals)
  (tree : MotionPrimitivesTreeSE2.t) (nodeID : TNodeID) (node : node_t)
  (globalObstacles : list TPoint2D) (MAX_XY_DIST : R) (w : World X) :
  StdMap.find nodeID (nodes tree) = Some node ->
  let p := pose (state node) in
  let cache := local_obstacles_cache_ w in
  let clipped := local_obstacles_spec globalObstacles p MAX_XY_DIST in
  let call :=
    cached_local_obstacles X tree nodeID globalObstacles MAX_XY_DIST w in
  (forall ent, StdMap.find nodeID cache = Some ent ->
     TPose2D.eqb (globalNodePose ent) p = true ->
     call = Return (obs ent) w) /\
  ((forall ent, StdMap.find nodeID cache = Some ent ->
      TPose2D.eqb (globalNodePose ent) p = false) ->
     call = Return clipped
              (with_cache w
                 (StdMap.insert nodeID (mkLocalObs p clipped) cache))) /\
  (cache_consistent globalObstacles MAX_XY_DIST cache ->
     exists w',
       call = Return clipped w' /\
       cache_consistent globalObstacles MAX_XY_DIST
         (local_obstacles_cache_ w')).
Proof.
  intros Hnode p cache clipped call. split; [| split].
  - intros ent. apply cached_hit. exact Hnode.
  - apply cached_miss. exact Hnode.
  - apply cached_consistent. exact Hnode.
Qed.

Lemma cached_local_obstacles_reuse_witness :
  exists w',
    cached_local_obstacles Examples.ext0 Examples.root_tree 0%nat
      [(1, 0); (20, 0)] 10 Examples.world0
    = Return
        (local_obstacles_spec [(1, 0); (20, 0)] (pose Examples.origin) 10) w'
    /\ cache_consistent [(1, 0); (20, 0)] 10 (local_obstacles_cache_ w').
Proof.
  refine (proj2 (proj2 (cached_local_obstacles_reuse Examples.ext0
            Examples.root_tree 0%nat (mkNode Examples.origin 0 None)
            [(1, 0); (20, 0)] 10 Examples.world0 eq_refl)) _).
  intros k ent H. discriminate H.
Defined.

(** C8, counterexample.  On a fresh planner, a first call for the root
    with an empty cloud caches the empty set; a second call for the same
    node with the cloud {(1, 0)} hits the cache and returns the empty set,
    although (1, 0) lies within the square of half-side 10 around the
    node. *)
Lemma cached_local_obstacles_stale_counterexample :
  exists w1,
    cached_local_obstacles Examples.ext0 Examples.root_tree 0%nat [] 10
      Examples.world0 = Return [] w1 /\
    cached_local_obstacles Examples.ext0 Examples.root_tree 0%nat [(1, 0)] 10 w1
      = Return [] w1 /\
    local_obstacles_spec [(1, 0)] (pose Examples.origin) 10
      = [to_local (pose Examples.origin) (1, 0)] /\
    local_obstacles_spec [(1, 0)] (pose Examples.origin) 10 <> [].
Proof.
  assert (Hsq : local_obstacles_spec [(1, 0)] (pose Examples.origin) 10
                = [to_local (pose Examples.origin) (1, 0)]).
  { unfold local_obstacles_spec, in_square. cbn.
    replace (1 - 0) with 1 by ring. replace (0 - 0) with 0 by ring.
    rewrite Rabs_R1, Rabs_R0.
    destruct (Rleb_spec 1 10); [| lra]. destruct (Rleb_spec 0 10); [| lra].
    reflexivity. }
  eexists. split; [| split; [| split]].
  - apply (cached_miss Examples.ext0 Examples.root_tree 0%nat
             (mkNode Examples.origin 0 None) eq_refl [] 10 Examples.world0).
    intros ent H. discriminate H.
  - apply (cached_hit Examples.ext0 Examples.root_tree 0%nat
             (mkNode Examples.origin 0 None) eq_refl [(1, 0)] 10 _
             (mkLocalObs (pose Examples.origin) [])).
    + reflexivity.
    + apply TPose2D_eqb_refl.
  - exact Hsq.
  - rewrite Hsq. discriminate.
Qed.

(* ================================================================= *)
(** ** TPS_RRTstar: the planner                                      *)
(* ================================================================= *)

Section MonadFacts.

Variable X : Externals.

Lemma bindM_Return {A B} (m : M X A) (f : A -> M X B) (w w' : World X)
  (b : B) :
  bindM X m f w = Return b w' ->
  exists a w1, m w = Return a w1 /\ f a w1 = Return b w'.
Proof.
  unfold bindM. destruct (m w) as [a w1 | e w1]; [| discriminate].
  intros H. exists a, w1. split; [reflexivity | exact H].
Qed.

Lemma lift_Return {A} (r : Result A) (w w' : World X) (a : A) :
  lift X r w = Return a w' -> r = Ok a /\ w' = w.
Proof.
  unfold lift. destruct r; [| discriminate]. intros [= -> ->]. auto.
Qed.

Lemma reading_Return {A} (f : World X -> Result A) (w w' : World X) (a : A) :
  reading X f w = Return a w' -> f w = Ok a /\ w' = w.
Proof. unfold reading. apply lift_Return. Qed.

Lemma on_ptg_Return {A} (i : ptg_index_t) (f : TNavDynamicState -> Result A)
  (w w' : World X) (a : A) :
  on_ptg X i f w = Return a w' -> f (ptg_state w i) = Ok a /\ w' = w.
Proof.
  unfold on_ptg. intros H.
  apply (reading_Return (fun w0 => f (ptg_state w0 i))) in H. exact H.
Qed.

Lemma cache_stable_ret {A} (a : A) : cache_stable (retM X a).
Proof. intros w a' w' H. inversion H. reflexivity. Qed.

Lemma cache_stable_bind {A B} (m : M X A) (f : A -> M X B) :
  cache_stable m -> (forall a, cache_stable (f a)) ->
  cache_stable (bindM X m f).
Proof.
  intros Hm Hf w b w' H. apply bindM_Return in H.
  destruct H as (a & w1 & H1 & H2).
  rewrite (Hf a _ _ _ H2). exact (Hm _ _ _ H1).
Qed.

Lemma cache_stable_lift {A} (r : Result A) : cache_stable (lift X r).
Proof.
  intros w a w' H. apply lift_Return in H. destruct H as [_ ->].
  reflexivity.
Qed.

Lemma cache_stable_reading {A} (f : World X -> Result A) :
  cache_stable (reading X f).
Proof.
  intros w a w' H. apply reading_Return in H. destruct H as [_ ->].
  reflexivity.
Qed.

Lemma cache_stable_on_ptg {A} (i : ptg_index_t)
  (f : TNavDynamicState -> Result A) : cache_stable (on_ptg X i f).
Proof. apply cache_stable_reading. Qed.

Lemma cache_stable_update (i : ptg_index_t) (ds : TNavDynamicState) :
  cache_stable (updateNavDynamicState X i ds).
Proof. intros w a w' H. inversion H. reflexivity. Qed.

Lemma cache_stable_drawUniform (a b : R) :
  cache_stable (rng_drawUniform X a b).
Proof.
  intros w u w'. unfold rng_drawUniform.
  destruct (drawUniform X (rng w) a b). intros H. inversion H. reflexivity.
Qed.

Lemma cache_stable_drawUniform32bit : cache_stable (rng_drawUniform32bit X).
Proof.
  intros w u w'. unfold rng_drawUniform32bit.
  destruct (drawUniform32bit X (rng w)). intros H. inversion H.
  reflexivity.
Qed.

Create HintDb stable.
#[local] Hint Resolve cache_stable_ret cache_stable_lift cache_stable_reading
  cache_stable_on_ptg cache_stable_update cache_stable_drawUniform
  cache_stable_drawUniform32bit : stable.

Ltac stable :=
  repeat first
    [ apply cache_stable_bind; [| intro]
    | solve [auto with stable]
    | match goal with
      | |- cache_stable (match ?x with _ => _ end) => destruct x
      | |- cache_stable (if ?b then _ else _) => destruct b
      end ].

Lemma cache_stable_euclidean (pi_ : PlannerInput) (n : nat) :
  cache_stable (draw_random_euclidean_loop X n pi_).
Proof.
  induction n as [| n IH]; cbn [draw_random_euclidean_loop]; stable.
Qed.

Lemma cache_stable_tps (params : TPS_RRTstar_Parameters) (pi_ : PlannerInput)
  (tree_ : MotionPrimitivesTreeSE2.t) (n : nat) :
  cache_stable (draw_random_tps_loop X params n pi_ tree_).
Proof.
  induction n as [| n IH]; cbn [draw_random_tps_loop]; stable.
Qed.

Lemma cache_stable_draw (params : TPS_RRTstar_Parameters)
  (pi_ : PlannerInput) (tree_ : MotionPrimitivesTreeSE2.t) :
  cache_stable (draw_random_free_pose X params pi_ tree_).
Proof.
  unfold draw_random_free_pose.
  apply cache_stable_bind; [apply cache_stable_drawUniform | intros u].
  destruct (u <? goalBias params); [apply cache_stable_ret |].
  destruct (drawInTPS params).
  - unfold draw_random_tps. apply cache_stable_tps.
  - unfold draw_random_euclidean. apply cache_stable_euclidean.
Qed.

Lemma cache_stable_interpolated (ptg : ptg_t) (ptgIdx : ptg_index_t)
  (trajIdx : trajectory_index_t) (ptg_step : Z) (nSeg : nat) (n i : nat) :
  cache_stable (interpolated_loop X ptg ptgIdx trajIdx ptg_step nSeg i n).
Proof.
  revert i. induction n as [| n IH]; intros i; cbn [interpolated_loop];
    stable.
Qed.

End MonadFacts.

Section CacheEvolution.

Variable X : Externals.
Variable all_ptgs : list ptg_t.
Variable globalObstacles : list TPoint2D.
Variable MAX_XY_DIST : R.

Local Notation "'feasible_'" := (feasible all_ptgs).
Local Notation "'evolves_'" := (cache_evolves globalObstacles MAX_XY_DIST).

Lemma cache_evolves_refl tree c : evolves_ tree c c.
Proof. intros k. left. reflexivity. Qed.

Lemma cache_evolves_trans tree c1 c2 c3 :
  evolves_ tree c1 c2 -> evolves_ tree c2 c3 ->
  evolves_ tree c1 c3.
Proof.
  intros H12 H23 k. destruct (H23 k) as [E23 | (node & Hn & E3 & Hmiss)].
  - rewrite E23. apply H12.
  - destruct (H12 k) as [E12 | (node' & Hn' & E2 & _)].
    + right. exists node. rewrite <- E12. auto.
    + exfalso. rewrite Hn in Hn'. injection Hn' as <-.
      specialize (Hmiss _ E2). cbn in Hmiss.
      rewrite TPose2D_eqb_refl in Hmiss. discriminate.
Qed.

Lemma feasible_evolves tree c c' e :
  evolves_ tree c c' -> feasible_ tree c e -> feasible_ tree c' e.
Proof.
  intros Hev
    (srcNode & ent & ptg & free & Hsrc & Hent & Heq & Hptg & Hfree & Hlt).
  destruct (Hev (parentId e)) as [E | (node & Hn & _ & Hmiss)].
  - exists srcNode, ent, ptg, free. rewrite E. auto 10.
  - exfalso. rewrite Hsrc in Hn. injection Hn as <-.
    rewrite (Hmiss _ Hent) in Heq. discriminate.
Qed.

Lemma consistent_evolves tree c c' :
  evolves_ tree c c' ->
  cache_consistent globalObstacles MAX_XY_DIST c ->
  cache_consistent globalObstacles MAX_XY_DIST c'.
Proof.
  intros Hev Hc k ent Hk.
  destruct (Hev k) as [E | (node & _ & E & _)].
  - apply (Hc k). rewrite <- E. exact Hk.
  - rewrite E in Hk. injection Hk as <-. reflexivity.
Qed.

(** What a call of [cached_local_obstacles] leaves behind. *)
Lemma cached_local_obstacles_evolves tree nodeID (w w' : World X) o :
  cached_local_obstacles X tree nodeID globalObstacles MAX_XY_DIST w
    = Return o w' ->
  evolves_ tree (local_obstacles_cache_ w) (local_obstacles_cache_ w') /\
  exists node ent,
    StdMap.find nodeID (nodes tree) = Some node /\
    StdMap.find nodeID (local_obstacles_cache_ w') = Some ent /\
    TPose2D.eqb (globalNodePose ent) (pose (state node)) = true /\
    obs ent = o.
Proof.
  intros H.
  destruct (StdMap.find nodeID (nodes tree)) as [node |] eqn:Hnode.
  2:{ unfold cached_local_obstacles, bindM, lift, StdMap.at_ in H.
      rewrite Hnode in H. discriminate. }
  assert (Hmiss_case :
    (forall ent, StdMap.find nodeID (local_obstacles_cache_ w) = Some ent ->
       TPose2D.eqb (globalNodePose ent) (pose (state node)) = false) ->
    evolves_ tree (local_obstacles_cache_ w) (local_obstacles_cache_ w') /\
    exists node0 ent,
      Some node = Some node0 /\
      StdMap.find nodeID (local_obstacles_cache_ w') = Some ent /\
      TPose2D.eqb (globalNodePose ent) (pose (state node0)) = true /\
      obs ent = o).
  { intros Hmiss.
    rewrite (cached_miss X tree nodeID node Hnode _ _ w Hmiss) in H.
    injection H as <- <-. cbn [with_cache local_obstacles_cache_]. split.
    - intros k. destruct (Nat.eq_dec k nodeID) as [-> | Hne].
      + right. exists node. rewrite StdMap_facts.find_insert_same. auto.
      + left. apply StdMap_facts.find_insert_other. exact Hne.
    - eexists node, _. rewrite StdMap_facts.find_insert_same.
      repeat split. apply TPose2D_eqb_refl. }
  destruct (StdMap.find nodeID (local_obstacles_cache_ w)) as [ent |] eqn:E.
  - destruct (TPose2D.eqb (globalNodePose ent) (pose (state node))) eqn:Heq.
    + rewrite (cached_hit X tree nodeID node Hnode _ _ w ent E Heq) in H.
      injection H as <- <-. split; [apply cache_evolves_refl |].
      exists node, ent. auto.
    + apply Hmiss_case. intros ent' [= <-]. exact Heq.
  - apply Hmiss_case. intros ent' [=].
Qed.

End CacheEvolution.

Section PlanInvariant.

Variable X : Externals.
Variable params : TPS_RRTstar_Parameters.
Variable in_ : PlannerInput.
Variable obstaclePoints : list TPoint2D.
Variable MAX_XY_DIST : R.

Local Notation "'feasible_'" := (feasible (ptgs (pi_ptgs in_))).
Local Notation "'evolves_'" := (cache_evolves obstaclePoints MAX_XY_DIST).
Local Notation "'tree_invariant_'" := (tree_invariant in_).

Lemma at_Ok {V} (m : StdMap.t V) (k : nat) (v : V) :
  StdMap.at_ m k = Ok v -> StdMap.find k m = Some v.
Proof.
  unfold StdMap.at_. destruct (StdMap.find k m); [| discriminate].
  intros [= ->]. reflexivity.
Qed.

Lemma vector_at_Ok {A} (l : list A) (i : nat) (a : A) :
  vector_at l i = Ok a -> nth_error l i = Some a.
Proof.
  unfold vector_at. destruct (nth_error l i); [| discriminate].
  intros [= ->]. reflexivity.
Qed.

Lemma candidates_loop_keeps (tree : MotionPrimitivesTreeSE2.t) :
  forall closeNodes bestEdge bestCost (w w' : World X) be bc,
    Forall positive_distance closeNodes ->
    candidates_loop X params in_ tree obstaclePoints MAX_XY_DIST closeNodes
      bestEdge bestCost w = Return (be, bc) w' ->
    (forall e, bestEdge = Some e ->
       feasible_ tree (local_obstacles_cache_ w) e /\ candidate tree e) ->
    evolves_ tree (local_obstacles_cache_ w) (local_obstacles_cache_ w') /\
    (forall e, be = Some e ->
       feasible_ tree (local_obstacles_cache_ w') e /\ candidate tree e).
Proof.
  induction closeNodes as [| tupl rest IH];
    intros bestEdge bestCost w w' be bc Hpos H Hbest.
  - cbn in H. injection H as <- <- <-.
    split; [apply cache_evolves_refl | exact Hbest].
  - inversion Hpos as [| ? ? Hd Hrest]; subst.
    destruct tupl as [key [[[nodeId ptgIdx] trajIdx] trajDist]].
    unfold positive_distance in Hd. cbn [snd] in Hd.
    cbn [candidates_loop snd] in H.
    apply bindM_Return in H. destruct H as (lo & w1 & Hlo & H).
    apply cached_local_obstacles_evolves in Hlo.
    destruct Hlo as (Hev1 & node & ent & Hnode & Hent & Heq & Hobs).
    apply bindM_Return in H. destruct H as (srcNode & w2 & Hsrc & H).
    apply lift_Return in Hsrc. destruct Hsrc as [Hsrc ->].
    apply at_Ok in Hsrc. rewrite Hnode in Hsrc. injection Hsrc as ->.
    apply bindM_Return in H. destruct H as (ptg & w2 & Hptg & H).
    apply lift_Return in Hptg. destruct Hptg as [Hptg ->].
    apply vector_at_Ok in Hptg.
    apply bindM_Return in H. destruct H as ([] & w2 & Hupd & H).
    injection Hupd as <-.
    apply bindM_Return in H. destruct H as (free & w3 & Hfree & H).
    apply on_ptg_Return in Hfree. destruct Hfree as [Hfree ->].
    cbn [ptg_state] in Hfree. rewrite Nat.eqb_refl in Hfree.
    (* the best edge so far survives the cache update *)
    assert (Hbest1 : forall e, bestEdge = Some e ->
              feasible_ tree (local_obstacles_cache_ w1) e /\ candidate tree e).
    { intros e He. destruct (Hbest e He) as [Hf Hc].
      split; [| exact Hc]. eapply feasible_evolves; eassumption. }
    set (w2 := mkWorld X _ _ _) in H.
    assert (Hc2 : local_obstacles_cache_ w2 = local_obstacles_cache_ w1)
      by reflexivity.
    assert (Hdone : forall bestEdge' bestCost' w3,
      local_obstacles_cache_ w3 = local_obstacles_cache_ w1 ->
      (forall e, bestEdge' = Some e ->
         feasible_ tree (local_obstacles_cache_ w1) e /\ candidate tree e) ->
      candidates_loop X params in_ tree obstaclePoints MAX_XY_DIST rest
        bestEdge' bestCost' w3 = Return (be, bc) w' ->
      evolves_ tree (local_obstacles_cache_ w) (local_obstacles_cache_ w') /\
      (forall e, be = Some e ->
         feasible_ tree (local_obstacles_cache_ w') e /\ candidate tree e)).
    { intros bestEdge' bestCost' w3 Hc3 Hb' Hloop.
      destruct (IH bestEdge' bestCost' w3 w' be bc Hrest Hloop) as [Hev Hres].
      - rewrite Hc3. exact Hb'.
      - split; [| exact Hres]. rewrite Hc3 in Hev.
        eapply cache_evolves_trans; eassumption. }
    destruct (Rleb_spec free trajDist) as [Hge | Hlt].
    { eapply Hdone; eassumption. }
    apply bindM_Return in H. destruct H as (stepOk & w3 & Hstep & H).
    apply on_ptg_Return in Hstep. destruct Hstep as [_ ->].
    destruct stepOk as [ptg_step |]; [| eapply Hdone; eassumption].
    apply bindM_Return in H. destruct H as (relPose & w3 & Hpose & H).
    apply on_ptg_Return in Hpose. destruct Hpose as [_ ->].
    apply bindM_Return in H. destruct H as (relTwist & w3 & Htw & H).
    apply on_ptg_Return in Htw. destruct Htw as [_ ->].
    apply bindM_Return in H. destruct H as (ip & w3 & Hip & H).
    assert (Hc3 : local_obstacles_cache_ w3 = local_obstacles_cache_ w1).
    { rewrite <- Hc2. revert Hip.
      destruct (Nat.ltb 0 (renderPathInterpolatedSegments params)).
      - apply cache_stable_bind.
        + apply cache_stable_interpolated.
        + intros mid. apply cache_stable_ret.
      - apply cache_stable_ret. }
    match type of H with
    | (if ?c then _ else _) _ = _ => destruct c
    end; [| eapply Hdone; eassumption].
    eapply Hdone; [exact Hc3 | | exact H].
    intros e [= <-]. split.
    + exists srcNode, ent, ptg, free. cbn. rewrite Hobs.
      repeat split; try assumption. lra.
    + split; [exact Hd |]. split; [reflexivity |].
      exists srcNode. cbn. auto.
Qed.

Lemma feasible_grows tree tree' cache e :
  (forall k v, StdMap.find k (nodes tree) = Some v ->
               StdMap.find k (nodes tree') = Some v) ->
  feasible_ tree cache e -> feasible_ tree' cache e.
Proof.
  intros Hg (srcNode & ent & ptg & free & Hsrc & H).
  exists srcNode, ent, ptg, free. split; [apply Hg; exact Hsrc | exact H].
Qed.

Lemma invariant_evolves tree c c' :
  evolves_ tree c c' -> tree_invariant_ tree c -> tree_invariant_ tree c'.
Proof.
  intros Hev [Hd He]. split; [exact Hd |].
  intros k e Hk. destruct (He k e Hk) as [Hl Hf].
  split; [exact Hl |]. eapply feasible_evolves; eassumption.
Qed.

Lemma invariant_insert tree cache bestEdge tree' :
  tree_invariant_ tree cache ->
  feasible_ tree cache bestEdge -> candidate tree bestEdge ->
  insert_node_and_edge tree (parentId bestEdge) (next_free_node_ID tree)
    (stateTo bestEdge) bestEdge = Ok tree' ->
  tree_invariant_ tree' cache.
Proof.
  intros [Hd He] Hf (Hpos & Hcost & srcNode & Hsrc & Hfrom) Hins.
  unfold insert_node_and_edge, StdMap.at_ in Hins. rewrite Hsrc in Hins.
  cbn [bind] in Hins. injection Hins as <-.
  unfold next_free_node_ID in *.
  set (newId := StdMap.size (nodes tree)).
  assert (Hfresh : StdMap.find newId (nodes tree) = None)
    by (apply StdMap_facts.dense_fresh; exact Hd).
  assert (Hold : forall k v, StdMap.find k (nodes tree) = Some v -> k <> newId).
  { intros k v Hk ->. rewrite Hfresh in Hk. discriminate. }
  assert (Hgrow : forall k v, StdMap.find k (nodes tree) = Some v ->
            StdMap.find k
              (StdMap.insert newId
                 (mkNode (stateTo bestEdge) (cost_ srcNode + cost bestEdge)
                    (Some (parentId bestEdge))) (nodes tree)) = Some v).
  { intros k v Hk. rewrite StdMap_facts.find_insert_other; [exact Hk |].
    eapply Hold. exact Hk. }
  split; cbn [nodes edges_to_children].
  - apply StdMap_facts.dense_insert_next. exact Hd.
  - intros c e Hc. destruct (Nat.eq_dec c newId) as [-> | Hne].
    + rewrite StdMap_facts.find_insert_same in Hc. injection Hc as <-. split.
      * split; [exact Hpos |]. split; [exact Hcost |].
        eexists srcNode, _. cbn [nodes].
        rewrite StdMap_facts.find_insert_same.
        split; [apply Hgrow; exact Hsrc |]. split; [reflexivity |].
        cbn. auto.
      * eapply feasible_grows; [| exact Hf]. exact Hgrow.
    + rewrite StdMap_facts.find_insert_other in Hc by exact Hne.
      destruct (He c e Hc) as [Hl Hfe]. split.
      * destruct Hl as (Hp & Hco & pn & cn & H1 & H2 & H3).
        split; [exact Hp |]. split; [exact Hco |].
        exists pn, cn. cbn [nodes].
        split; [apply Hgrow; exact H1 |]. split; [apply Hgrow; exact H2 |].
        exact H3.
      * eapply feasible_grows; [| exact Hfe]. exact Hgrow.
Qed.

Lemma emitted_positive (w : World X) tree query r closeNodes :
  find_nodes_within_ball X w tree query r (pi_ptgs in_) = Ok closeNodes ->
  Forall positive_distance closeNodes.
Proof.
  intros H. apply find_nodes_within_ball_well_formed in H.
  destruct H as [H _]. eapply Forall_impl; [| exact H].
  intros [key [[[id ptgIdx] trajIdx] d]] (_ & Hd & _).
  unfold positive_distance. cbn. lra.
Qed.

Lemma plan_loop_invariant (searchRadius : R) :
  forall n tree (w w' : World X) tree',
    plan_loop X params in_ obstaclePoints MAX_XY_DIST searchRadius n tree w
      = Return tree' w' ->
    tree_invariant_ tree (local_obstacles_cache_ w) ->
    tree_invariant_ tree' (local_obstacles_cache_ w') /\
    (cache_consistent obstaclePoints MAX_XY_DIST (local_obstacles_cache_ w) ->
     cache_consistent obstaclePoints MAX_XY_DIST (local_obstacles_cache_ w')).
Proof.
  induction n as [| n IH]; intros tree w w' tree' H Hinv.
  - cbn in H. injection H as <- <-. auto.
  - cbn [plan_loop] in H.
    apply bindM_Return in H. destruct H as (qi & w1 & Hqi & H).
    apply cache_stable_draw in Hqi.
    apply bindM_Return in H. destruct H as (closeNodes & w2 & Hfind & H).
    apply reading_Return in Hfind. destruct Hfind as [Hfind ->].
    rewrite <- Hqi in *.
    destruct (StdMultimap.empty closeNodes); [eapply IH; eassumption |].
    apply bindM_Return in H. destruct H as ([be bc] & w2 & Hcand & H).
    apply candidates_loop_keeps in Hcand;
      [| eapply emitted_positive; exact Hfind | intros e [=]].
    destruct Hcand as [Hev Hbest].
    assert (Hinv2 : tree_invariant_ tree (local_obstacles_cache_ w2))
      by (eapply invariant_evolves; eassumption).
    assert (Hcons : cache_consistent obstaclePoints MAX_XY_DIST
                      (local_obstacles_cache_ w1) ->
                    cache_consistent obstaclePoints MAX_XY_DIST
                      (local_obstacles_cache_ w2))
      by (eapply consistent_evolves; exact Hev).
    cbn [fst] in H. destruct be as [bestEdge |].
    + apply bindM_Return in H. destruct H as (tree2 & w3 & Hins & H).
      apply lift_Return in Hins. destruct Hins as [Hins ->].
      destruct (Hbest bestEdge eq_refl) as [Hf Hc].
      destruct (IH tree2 w2 w' tree' H) as [Hinv' Hcons'].
      * eapply invariant_insert; eassumption.
      * auto.
    + destruct (IH tree w2 w' tree' H Hinv2) as [Hinv' Hcons']. auto.
Qed.

End PlanInvariant.


Section Plan.

Variable X : Externals.
Variable params : TPS_RRTstar_Parameters.
Variable in_ : PlannerInput.

Lemma ASSERT_Ok (what : string) (c : bool) : ASSERT_ what c = Ok tt -> c = true.
Proof. destruct c; [reflexivity | discriminate]. Qed.

Lemma initial_tree_invariant (cache : StdMap.t LocalObstaclesInfo) :
  tree_invariant in_
    (clear_edges
       (insert_root_node
          (set_root MotionPrimitivesTreeSE2.empty
             (next_free_node_ID MotionPrimitivesTreeSE2.empty))
          (root (set_root MotionPrimitivesTreeSE2.empty
                   (next_free_node_ID MotionPrimitivesTreeSE2.empty)))
          (stateStart in_)))
    cache.
Proof.
  split.
  - cbn. apply (StdMap_facts.dense_insert_next (V := node_t) []).
    apply StdMap_facts.dense_nil.
  - intros c e H. discriminate H.
Qed.

(** What a returning call of [plan] went through and built. *)
Lemma plan_Return (w w' : World X) (po : PlannerOutput) :
  plan X params in_ w = Return po w' ->
  (initialized (pi_ptgs in_) = true /\
   TPose2D.eqb (worldBboxMin in_) (worldBboxMax in_) = false /\
   within_bbox (pose (stateStart in_)) (worldBboxMax in_) (worldBboxMin in_)
     = true /\
   within_bbox (pose (stateGoal in_)) (worldBboxMax in_) (worldBboxMin in_)
     = true /\
   0 < max_ref_distance (ptgs (pi_ptgs in_))) /\
  success po = false /\
  tree_invariant in_ (motionTree po) (local_obstacles_cache_ w') /\
  (cache_consistent (obstacles in_) (max_ref_distance (ptgs (pi_ptgs in_)))
     (local_obstacles_cache_ w) ->
   cache_consistent (obstacles in_) (max_ref_distance (ptgs (pi_ptgs in_)))
     (local_obstacles_cache_ w')).
Proof.
  unfold plan. intros H.
  apply bindM_Return in H. destruct H as ([] & w1 & H1 & H).
  apply lift_Return in H1. destruct H1 as [H1 ->]. apply ASSERT_Ok in H1.
  apply bindM_Return in H. destruct H as ([] & w1 & H2 & H).
  apply lift_Return in H2. destruct H2 as [H2 ->]. apply ASSERT_Ok in H2.
  apply bindM_Return in H. destruct H as ([] & w1 & H3 & H).
  apply lift_Return in H3. destruct H3 as [H3 ->]. apply ASSERT_Ok in H3.
  apply bindM_Return in H. destruct H as ([] & w1 & H4 & H).
  apply lift_Return in H4. destruct H4 as [H4 ->]. apply ASSERT_Ok in H4.
  apply bindM_Return in H. destruct H as ([] & w1 & H5 & H).
  apply lift_Return in H5. destruct H5 as [H5 ->]. apply ASSERT_Ok in H5.
  apply bindM_Return in H. destruct H as (tree & w1 & Hloop & H).
  injection H as <- <-.
  apply plan_loop_invariant in Hloop; [| apply initial_tree_invariant].
  destruct Hloop as [Hinv Hcons].
  split; [| cbn; auto].
  repeat split; try assumption.
  - apply negb_true_iff. exact H2.
  - destruct (Rltb_spec 0 (max_ref_distance (ptgs (pi_ptgs in_))));
      [assumption | discriminate].
Qed.

(** A failed sanity check ends the call at once, the world untouched. *)
Lemma plan_precondition_raise (w : World X) :
  initialized (pi_ptgs in_) = false \/
  TPose2D.eqb (worldBboxMin in_) (worldBboxMax in_) = true \/
  within_bbox (pose (stateStart in_)) (worldBboxMax in_) (worldBboxMin in_)
    = false \/
  within_bbox (pose (stateGoal in_)) (worldBboxMax in_) (worldBboxMin in_)
    = false ->
  exists what, plan X params in_ w = Raise (AssertionFailed what) w.
Proof.
  intros H. unfold plan, bindM, lift, ASSERT_.
  destruct (initialized (pi_ptgs in_)); [| eexists; reflexivity].
  destruct (TPose2D.eqb (worldBboxMin in_) (worldBboxMax in_));
    cbn [negb]; [eexists; reflexivity |].
  destruct (within_bbox (pose (stateStart in_)) _ _);
    [| eexists; reflexivity].
  destruct (within_bbox (pose (stateGoal in_)) _ _);
    [| eexists; reflexivity].
  exfalso. intuition discriminate.
Qed.

End Plan.

Lemma within_bbox_iff (p max min : TPose2D.t) :
  within_bbox p max min = true <->
  (TPose2D.x min < TPose2D.x p < TPose2D.x max /\
   TPose2D.y min < TPose2D.y p < TPose2D.y max /\
   TPose2D.phi min < TPose2D.phi p < TPose2D.phi max).
Proof.
  unfold within_bbox.
  destruct (Rltb_spec (TPose2D.x p) (TPose2D.x max));
  destruct (Rltb_spec (TPose2D.y p) (TPose2D.y max));
  destruct (Rltb_spec (TPose2D.phi p) (TPose2D.phi max));
  destruct (Rltb_spec (TPose2D.x min) (TPose2D.x p));
  destruct (Rltb_spec (TPose2D.y min) (TPose2D.y p));
  destruct (Rltb_spec (TPose2D.phi min) (TPose2D.phi p));
  cbn; split; intros H; try discriminate; try tauto; intuition lra.
Qed.

(** C6 (as amended).  [plan] first checks its inputs and, when a check
    fails, throws at once leaving the planner, the PTGs and the random
    generator as they were: when the PTG set is not initialized, when
    [worldBboxMin == worldBboxMax], or when the start or the goal pose is
    not strictly inside the box, that is inside the open box
    (worldBboxMin, worldBboxMax) in x, y and phi.  A pose with a
    coordinate equal to that of [worldBboxMin] (or of [worldBboxMax]) is
    rejected. *)
Theorem plan_checks_preconditions (X : Externals)
  (params : TPS_RRTstar_Parameters) (in_ : PlannerInput) (w : World X) :
  (initialized (pi_ptgs in_) = false \/
   TPose2D.eqb (worldBboxMin in_) (worldBboxMax in_) = true \/
   within_bbox (pose (stateStart in_)) (worldBboxMax in_) (worldBboxMin in_)
     = false \/
   within_bbox (pose (stateGoal in_)) (worldBboxMax in_) (worldBboxMin in_)
     = false ->
   exists what, plan X params in_ w = Raise (AssertionFailed what) w) /\
  (forall p max min,
     within_bbox p max min = true <->
     (TPose2D.x min < TPose2D.x p < TPose2D.x max /\
      TPose2D.y min < TPose2D.y p < TPose2D.y max /\
      TPose2D.phi min < TPose2D.phi p < TPose2D.phi max)) /\
  (forall p max min,
     TPose2D.x p = TPose2D.x min \/ TPose2D.y p = TPose2D.y min \/
     TPose2D.phi p = TPose2D.phi min ->
     within_bbox p max min = false).
Proof.
  split; [apply plan_precondition_raise |]. split; [apply within_bbox_iff |].
  intros p max min H. destruct (within_bbox p max min) eqn:E; [| reflexivity].
  apply within_bbox_iff in E. exfalso. lra.
Qed.

Lemma plan_checks_preconditions_witness :
  exists what,
    plan Examples.ext0 Examples.params0 Examples.input_degenerate
      Examples.world0
    = Raise (AssertionFailed what) Examples.world0.
Proof.
  apply (proj1 (plan_checks_preconditions Examples.ext0 Examples.params0
                  Examples.input_degenerate Examples.world0)).
  right. left. apply TPose2D_eqb_refl.
Defined.

(** C6, counterexample.  The start pose (-5, 0, 0) lies in the
    inclusive-open box [[-5, 5) x [-5, 5) x [-4, 4)], its x being the lower
    bound; [plan] rejects it. *)
Lemma plan_boundary_pose_counterexample :
  let p := pose (stateStart Examples.input_on_boundary) in
  let lo := worldBboxMin Examples.input_on_boundary in
  let hi := worldBboxMax Examples.input_on_boundary in
  (TPose2D.x lo <= TPose2D.x p < TPose2D.x hi /\
   TPose2D.y lo <= TPose2D.y p < TPose2D.y hi /\
   TPose2D.phi lo <= TPose2D.phi p < TPose2D.phi hi) /\
  TPose2D.x p = TPose2D.x lo /\
  plan Examples.ext0 Examples.params0 Examples.input_on_boundary
    Examples.world0
  = Raise (AssertionFailed "within_bbox(in.stateStart.pose, ...)")
      Examples.world0.
Proof.
  cbn zeta. split; [cbn; lra |]. split; [reflexivity |].
  unfold plan. run. reflexivity.
Qed.

Section ZeroRadius.

Variable X : Externals.

Lemma ptg_loop_zero_radius (w : World X) (id : TNodeID)
  (nodeState : SE2_KinState) (query : TPose2D.t) :
  forall evaluators ptgIdx acc res,
    find_nodes_ptg_loop X w evaluators ptgIdx id nodeState query 0 acc
      = Ok res ->
    res = acc.
Proof.
  induction evaluators as [| de rest IH]; intros ptgIdx acc res H;
    cbn [find_nodes_ptg_loop] in H.
  - injection H as <-. reflexivity.
  - destruct (cannotBeNearerThan X de _ _ _ _); [eapply IH; exact H |].
    destruct (distance X de _ _ _) as [[[dist trajIndex] |] | e];
      cbn [bind] in H; [| eapply IH; exact H | discriminate].
    destruct (Rltb_spec 0 dist); cbn [ASSERT_ bind] in H; [| discriminate].
    eapply IH; exact H.
Qed.

Lemma node_loop_zero_radius (w : World X) (evaluators : list ptg_t)
  (query : TPose2D.t) :
  forall ns acc res,
    find_nodes_node_loop X w ns evaluators query 0 acc = Ok res -> res = acc.
Proof.
  induction ns as [| [id node] rest IH]; intros acc res H;
    cbn [find_nodes_node_loop] in H.
  - injection H as <-. reflexivity.
  - destruct (find_nodes_ptg_loop X w evaluators 0%nat id (state node) query
                0 acc) as [acc' | e] eqn:Hinner;
      cbn [bind] in H; [| discriminate].
    apply ptg_loop_zero_radius in Hinner. subst acc'. eapply IH; exact H.
Qed.

(** With a radius of zero the neighbour search emits nothing. *)
Lemma find_nodes_zero_radius (w : World X) (tree : MotionPrimitivesTreeSE2.t)
  (query : TPose2D.t) (trs : TrajectoriesAndRobotShape)
  (closeNodes : closest_nodes_list_t) :
  find_nodes_within_ball X w tree query 0 trs = Ok closeNodes ->
  closeNodes = [].
Proof.
  unfold find_nodes_within_ball. intros H.
  destruct (negb _); cbn [ASSERT_ bind] in H; [| discriminate].
  destruct (Nat.leb _ _); cbn [ASSERT_ bind] in H; [| discriminate].
  eapply node_loop_zero_radius; exact H.
Qed.

(** ... and the main loop leaves the tree as it is. *)
Lemma plan_loop_zero_radius (params : TPS_RRTstar_Parameters)
  (in_ : PlannerInput) (obstaclePoints : list TPoint2D) (MAX_XY_DIST : R) :
  forall n tree (w w' : World X) tree',
    plan_loop X params in_ obstaclePoints MAX_XY_DIST 0 n tree w
      = Return tree' w' ->
    tree' = tree.
Proof.
  induction n as [| n IH]; intros tree w w' tree' H.
  - cbn in H. injection H as <- _. reflexivity.
  - cbn [plan_loop] in H.
    apply bindM_Return in H. destruct H as (qi & w1 & _ & H).
    apply bindM_Return in H. destruct H as (closeNodes & w2 & Hfind & H).
    apply reading_Return in Hfind. destruct Hfind as [Hfind ->].
    apply find_nodes_zero_radius in Hfind. subst closeNodes.
    cbn [StdMultimap.empty] in H. eapply IH; exact H.
Qed.

Lemma plan_zero_radius (params : TPS_RRTstar_Parameters) (in_ : PlannerInput)
  (w w' : World X) (po : PlannerOutput) :
  initialSearchRadius params = 0 ->
  plan X params in_ w = Return po w' ->
  nodes (motionTree po) = [(0%nat, mkNode (stateStart in_) 0 None)] /\
  edges_to_children (motionTree po) = [].
Proof.
  intros Hr. unfold plan. rewrite Hr. intros H.
  do 5 (apply bindM_Return in H; destruct H as (? & ? & _ & H)).
  apply bindM_Return in H. destruct H as (tree & w1 & Hloop & H).
  injection H as <- _. apply plan_loop_zero_radius in Hloop. subst tree.
  split; reflexivity.
Qed.

End ZeroRadius.

(** C7.  A call of [plan] ends by returning or by throwing, and whenever
    it returns, [success] is [false].  With a search radius of zero the
    neighbour search emits no candidate, so that the tree returned holds
    the root node only, and no edge. *)
Theorem plan_never_succeeds (X : Externals) (params : TPS_RRTstar_Parameters)
  (in_ : PlannerInput) (w : World X) :
  ((exists po w', plan X params in_ w = Return po w') \/
   (exists e w', plan X params in_ w = Raise e w')) /\
  (forall po w', plan X params in_ w = Return po w' -> success po = false) /\
  (forall tree query closeNodes,
     find_nodes_within_ball X w tree query 0 (pi_ptgs in_) = Ok closeNodes ->
     closeNodes = []) /\
  (initialSearchRadius params = 0 ->
   forall po w', plan X params in_ w = Return po w' ->
     success po = false /\
     nodes (motionTree po) = [(0%nat, mkNode (stateStart in_) 0 None)] /\
     edges_to_children (motionTree po) = []).
Proof.
  split; [| split; [| split]].
  - destruct (plan X params in_ w) as [po w' | e w'];
      [left | right]; eexists _, _; reflexivity.
  - intros po w' H. apply plan_Return in H. tauto.
  - intros tree query closeNodes. apply find_nodes_zero_radius.
  - intros Hr po w' H. split.
    + apply plan_Return in H. tauto.
    + eapply plan_zero_radius; eassumption.
Qed.

#[local] Opaque maxAttempts draw_random_tps draw_random_euclidean.

(** Three iterations with radius zero on the example input: the goal is
    sampled each time, nothing is in reach, the root stays alone. *)
Lemma plan_zero_radius_example_returns :
  exists po w',
    plan Examples.ext0 Examples.params_zero_radius Examples.input0
      Examples.world0 = Return po w'.
Proof. eexists _, _. unfold plan. run. reflexivity. Qed.

Lemma plan_never_succeeds_witness :
  exists po w',
    plan Examples.ext0 Examples.params_zero_radius Examples.input0
      Examples.world0 = Return po w' /\
    success po = false /\
    nodes (motionTree po) = [(0%nat, mkNode Examples.origin 0 None)] /\
    edges_to_children (motionTree po) = [].
Proof.
  destruct plan_zero_radius_example_returns as (po & w' & H).
  exists po, w'. split; [exact H |].
  exact (proj2 (proj2 (proj2 (plan_never_succeeds Examples.ext0
           Examples.params_zero_radius Examples.input0 Examples.world0)))
           eq_refl po w' H).
Defined.

(** One iteration with radius 2 on the example input: the goal, 1 m
    ahead, is sampled and reached from the root. *)
Lemma plan_example_returns :
  exists po w',
    plan Examples.ext0 Examples.params0 Examples.input0 Examples.world0
      = Return po w' /\
    exists e, StdMap.find 1%nat (edges_to_children (motionTree po)) = Some e.
Proof.
  eexists _, _. split.
  - unfold plan. run. reflexivity.
  - cbn. eexists. reflexivity.
Qed.

(** C3.  In the tree [plan] returns, whatever the number of iterations,
    hence after every insertion: for every edge, stored under its child,
    the child node exists and points to the parent of the edge, the
    cost-to-come of the child is the cost-to-come of the parent plus the
    cost of the edge, and the cost of the edge is what
    [cost_path_segment] returns, the PTG distance of the edge. *)
Theorem cost_to_come_invariant (X : Externals)
  (params : TPS_RRTstar_Parameters) (in_ : PlannerInput) (w w' : World X)
  (po : PlannerOutput) :
  plan X params in_ w = Return po w' ->
  forall c e,
    StdMap.find c (edges_to_children (motionTree po)) = Some e ->
    cost e = cost_path_segment e /\
    cost_path_segment e = ptgDist e /\
    exists pn cn,
      StdMap.find (parentId e) (nodes (motionTree po)) = Some pn /\
      StdMap.find c (nodes (motionTree po)) = Some cn /\
      parentID_ cn = Some (parentId e) /\
      cost_ cn = cost_ pn + cost e.
Proof.
  intros H c e Hc. apply plan_Return in H.
  destruct H as (_ & _ & [_ Hinv] & _).
  destruct (Hinv c e Hc) as [(_ & Hcost & pn & cn & H1 & H2 & H3 & H4 & _) _].
  split; [exact Hcost |]. split; [reflexivity |].
  exists pn, cn. auto.
Qed.

Lemma cost_to_come_invariant_witness :
  exists po w',
    plan Examples.ext0 Examples.params0 Examples.input0 Examples.world0
      = Return po w' /\
    (exists e, StdMap.find 1%nat (edges_to_children (motionTree po)) = Some e)
    /\
    forall c e,
      StdMap.find c (edges_to_children (motionTree po)) = Some e ->
      cost e = cost_path_segment e /\
      cost_path_segment e = ptgDist e /\
      exists pn cn,
        StdMap.find (parentId e) (nodes (motionTree po)) = Some pn /\
        StdMap.find c (nodes (motionTree po)) = Some cn /\
        parentID_ cn = Some (parentId e) /\
        cost_ cn = cost_ pn + cost e.
Proof.
  destruct plan_example_returns as (po & w' & H & He).
  exists po, w'. split; [exact H |]. split; [exact He |].
  exact (cost_to_come_invariant Examples.ext0 Examples.params0
           Examples.input0 Examples.world0 w' po H).
Defined.

(** C2.  In the tree [plan] returns, every edge has a positive PTG
    distance that is strictly below the free distance
    [tp_obstacles_single_path] gives along the trajectory of the edge,
    for the PTG of the edge in the dynamic state of the parent node, on
    the local obstacles the planner holds in its cache for the parent at
    the pose of the parent.  When the cache the call started with was
    computed from the obstacles of the input and the clipping distance of
    its PTGs (as the empty cache of a new planner is), those local
    obstacles are the obstacles of the input clipped around the parent and
    expressed in its frame. *)
Theorem edge_feasibility (X : Externals) (params : TPS_RRTstar_Parameters)
  (in_ : PlannerInput) (w w' : World X) (po : PlannerOutput) :
  plan X params in_ w = Return po w' ->
  forall c e,
    StdMap.find c (edges_to_children (motionTree po)) = Some e ->
    0 < ptgDist e /\
    exists srcNode ent ptg freeDistance,
      StdMap.find (parentId e) (nodes (motionTree po)) = Some srcNode /\
      StdMap.find (parentId e) (local_obstacles_cache_ w') = Some ent /\
      TPose2D.eqb (globalNodePose ent) (pose (state srcNode)) = true /\
      nth_error (ptgs (pi_ptgs in_)) (ptgIndex e) = Some ptg /\
      tp_obstacles_single_path (ptgPathIndex e) (obs ent) ptg
        (dynamic_state_of (state srcNode)) = Ok freeDistance /\
      ptgDist e < freeDistance /\
      (cache_consistent (obstacles in_)
         (max_ref_distance (ptgs (pi_ptgs in_))) (local_obstacles_cache_ w) ->
       obs ent =
       local_obstacles_spec (obstacles in_) (pose (state srcNode))
         (max_ref_distance (ptgs (pi_ptgs in_)))).
Proof.
  intros H c e Hc. apply plan_Return in H.
  destruct H as (_ & _ & [_ Hinv] & Hcons).
  destruct (Hinv c e Hc) as [(Hpos & _) Hf]. split; [exact Hpos |].
  destruct Hf as (srcNode & ent & ptg & free & H1 & H2 & H3 & H4 & H5 & H6).
  exists srcNode, ent, ptg, free. repeat (split; [assumption |]).
  intros Hw. rewrite (Hcons Hw _ _ H2).
  apply local_obstacles_spec_eqb. exact H3.
Qed.

Lemma edge_feasibility_witness :
  exists po w',
    plan Examples.ext0 Examples.params0 Examples.input0 Examples.world0
      = Return po w' /\
    (exists e, StdMap.find 1%nat (edges_to_children (motionTree po)) = Some e)
    /\
    forall c e,
      StdMap.find c (edges_to_children (motionTree po)) = Some e ->
      0 < ptgDist e /\
      exists srcNode ent ptg freeDistance,
        StdMap.find (parentId e) (nodes (motionTree po)) = Some srcNode /\
        StdMap.find (parentId e) (local_obstacles_cache_ w') = Some ent /\
        TPose2D.eqb (globalNodePose ent) (pose (state srcNode)) = true /\
        nth_error [Examples.line_ptg] (ptgIndex e) = Some ptg /\
        tp_obstacles_single_path (ptgPathIndex e) (obs ent) ptg
          (dynamic_state_of (state srcNode)) = Ok freeDistance /\
        ptgDist e < freeDistance /\
        (cache_consistent [] (max_ref_distance [Examples.line_ptg]) [] ->
         obs ent =
         local_obstacles_spec [] (pose (state srcNode))
           (max_ref_distance [Examples.line_ptg])).
Proof.
  destruct plan_example_returns as (po & w' & H & He).
  exists po, w'. split; [exact H |]. split; [exact He |].
  exact (edge_feasibility Examples.ext0 Examples.params0
           Examples.input0 Examples.world0 w' po H).
Defined.

End TPS_RRTstar_spec.

(* ================================================================= *)
(** * Further properties of the code                                 *)
(* ================================================================= *)

(* ================================================================= *)
(** ** DiffDrive_C: sign and symmetry of the inverse map             *)
(* ================================================================= *)

Module DiffDrive_C_facts.
Import DiffDrive_C DiffDrive_C_spec.

Lemma float_ulp_pos (x : R) : 0 < float_ulp x.
Proof. unfold float_ulp. apply powerRZ_lt. lra. Qed.

Lemma to_float_nonneg (x : R) : 0 <= x -> 0 <= to_float x.
Proof.
  intros Hx. unfold to_float. destruct (x =? 0); [lra |].
  pose proof (float_ulp_pos x) as Hu.
  apply Rmult_le_pos; [| lra].
  apply IZR_le. apply HolonomicBlend_spec.lrint_nonneg.
  apply Rmult_le_pos; [exact Hx |]. left. apply Rinv_0_lt_compat. exact Hu.
Qed.

(** Rounding to nearest, ties to even, is odd. *)
Lemma lrint_opp (x : R) : mrpt.lrint (- x) = (- mrpt.lrint x)%Z.
Proof.
  pose proof (Zfloor_bound x) as Hb.
  assert (Hf : IZR (Zfloor x) <= x < IZR (Zfloor x) + 1) by lra.
  set (f := Zfloor x) in *.
  destruct (Req_dec x (IZR f)) as [E | E].
  - unfold mrpt.lrint. fold f.
    rewrite (Zfloor_eq (- f) (- x)) by (rewrite opp_IZR; lra).
    rewrite opp_IZR. rewrite !Rltb_true by lra. reflexivity.
  - unfold mrpt.lrint. fold f.
    rewrite (Zfloor_eq (- f - 1) (- x))
      by (rewrite minus_IZR, opp_IZR; lra).
    rewrite minus_IZR, opp_IZR.
    assert (Hev : Z.even (- f - 1) = negb (Z.even f)).
    { rewrite Z.even_sub, Z.even_opp. destruct (Z.even f); reflexivity. }
    destruct (Rltb_spec (x - IZR f) (1 / 2)).
    + rewrite Rltb_false by lra. rewrite Rltb_true by lra. lia.
    + destruct (Rltb_spec (1 / 2) (x - IZR f)).
      * rewrite Rltb_true by lra. lia.
      * rewrite Rltb_false by lra. rewrite Rltb_false by lra.
        rewrite Hev. destruct (Z.even f); cbn [negb]; lia.
Qed.

Lemma to_float_opp (x : R) : to_float (- x) = - to_float x.
Proof.
  unfold to_float.
  assert (Hu : float_ulp (- x) = float_ulp x).
  { unfold float_ulp, float_exponent. rewrite Rabs_Ropp. reflexivity. }
  rewrite Hu.
  destruct (Reqb_spec x 0) as [-> | Hx].
  - rewrite Reqb_true by lra. lra.
  - rewrite Reqb_false by lra.
    replace (- x / float_ulp x) with (- (x / float_ulp x))
      by (unfold Rdiv; ring).
    rewrite lrint_opp, opp_IZR. ring.
Qed.

(** X1.  With a positive number of paths, [W_MAX <> 0],
    [turningRadiusReference >= 0] and [refDistance > 0], the normalized
    distance the inverse map returns is negative exactly when the target
    lies straight behind ([y = 0], [x < 0]) and the PTG generates
    backward paths ([K < 0]); the result is then reported as exact, with
    distance [x / refDistance]. *)
Theorem inverseMap_negative_distance (p : t) (x y : R) (k : Z) (d : R)
  (e : bool) :
  (0 < m_alphaValuesCount p <= 65535)%Z -> W_MAX p <> 0 ->
  0 <= turningRadiusReference p -> 0 < refDistance p ->
  inverseMap_WS2TP p x y = Ok (k, d, e) ->
  (d < 0 <-> y = 0 /\ x < 0 /\ K p < 0) /\
  (d < 0 -> e = true /\ d = x / refDistance p).
Proof.
  intros Hn _ Ht Hr H. pose proof PI_RGT_0 as Hpi.
  assert (Hinv : 0 < / refDistance p) by (apply Rinv_0_lt_compat; exact Hr).
  destruct (Req_dec y 0) as [-> | Hy].
  - rewrite straight_branch in H by exact Hn.
    destruct (Z.eqb_spec (mrpt.sign x) (mrpt.sign (K p))) as [Es | Es];
      injection H as <- <- <-.
    + assert (Hx : x / refDistance p < 0 <-> x < 0).
      { unfold Rdiv. split; intros; nra. }
      split.
      * rewrite Hx. split.
        -- intros Hlt. split; [reflexivity |]. split; [exact Hlt |].
           destruct (sign_cases x) as [[_ E1] | [? _]]; [| lra].
           destruct (sign_cases (K p)) as [[? _] | [_ E2]]; [assumption |].
           rewrite E1, E2 in Es. discriminate.
        -- tauto.
      * auto.
    + assert (Hpos : 0 < 1000 / refDistance p) by (unfold Rdiv; nra).
      split.
      * split; [lra |]. intros (_ & Hx & HK). exfalso. apply Es.
        destruct (sign_cases x) as [[_ ->] | [? _]]; [| lra].
        destruct (sign_cases (K p)) as [[_ ->] | [? _]]; [reflexivity | lra].
      * lra.
  - rewrite arc_branch in H by assumption. injection H as <- <- <-.
    assert (Hth : 0 <= mrpt.wrapTo2Pi (theta_raw p x y) < 2 * PI).
    { apply wrapTo2Pi_range. pose proof (theta_raw_bound p x y). lra. }
    pose proof (Rabs_pos (Rarc x y)) as Hab.
    assert (Hd : 0 <= to_float (mrpt.wrapTo2Pi (theta_raw p x y) *
                                (Rabs (Rarc x y) + turningRadiusReference p))
                      / refDistance p).
    { unfold Rdiv. apply Rmult_le_pos; [| lra].
      apply to_float_nonneg. apply Rmult_le_pos; lra. }
    split; [split |]; [lra | tauto | lra].
Qed.

Lemma inverseMap_negative_distance_witness :
  (-2 / refDistance Examples.backward_ptg < 0 <->
   0 = 0 /\ -2 < 0 /\ K Examples.backward_ptg < 0) /\
  (-2 / refDistance Examples.backward_ptg < 0 ->
   true = true /\
   -2 / refDistance Examples.backward_ptg
   = -2 / refDistance Examples.backward_ptg).
Proof.
  apply (inverseMap_negative_distance Examples.backward_ptg (-2) 0
           (mrpt.alpha2index 0 31) (-2 / refDistance Examples.backward_ptg)
           true).
  - cbn. lia.
  - cbn. lra.
  - cbn. lra.
  - cbn. lra.
  - rewrite straight_branch by (cbn; lia).
    unfold mrpt.sign. cbn [K Examples.backward_ptg].
    rewrite !Rltb_true by lra. reflexivity.
Defined.

Lemma Rarc_mirror (x y : R) : Rarc x (- y) = - Rarc x y.
Proof.
  unfold Rarc, Rdiv.
  replace (2 * - y) with (- (2 * y)) by ring.
  rewrite Rinv_opp. ring.
Qed.

Lemma Rarc_nonzero (x y : R) : y <> 0 -> Rarc x y <> 0.
Proof.
  intros Hy. unfold Rarc. intros H.
  assert (Hn : x * x + y * y = 0).
  { apply (Rmult_eq_reg_r (/ (2 * y))).
    - rewrite Rmult_0_l. exact H.
    - apply Rinv_neq_0_compat. lra. }
  assert (0 < y * y) by nra. nra.
Qed.

Lemma theta_raw_mirror (p : t) (x y : R) :
  y <> 0 -> theta_raw p x (- y) = theta_raw p x y.
Proof.
  intros Hy. unfold theta_raw. rewrite Rarc_mirror, Rabs_Ropp.
  destruct (K p >? 0);
    destruct (Rltb_spec 0 y); destruct (Rltb_spec 0 (- y)); try lra;
    f_equal; ring.
Qed.

(** X2.  The inverse map is symmetric about the x axis: on a PTG with
    [W_MAX <> 0] and [refDistance <> 0], for [y <> 0] the targets (x, y)
    and (x, -y) get the same distance and the same [exact] flag, and the
    path indices of two opposite single-precision angles. *)
Theorem inverseMap_mirror (p : t) (x y : R) :
  (0 < m_alphaValuesCount p <= 65535)%Z ->
  W_MAX p <> 0 -> refDistance p <> 0 -> y <> 0 ->
  exists alpha d e,
    inverseMap_WS2TP p x y
      = Ok (mrpt.alpha2index alpha (m_alphaValuesCount p), d, e) /\
    inverseMap_WS2TP p x (- y)
      = Ok (mrpt.alpha2index (- alpha) (m_alphaValuesCount p), d, e).
Proof.
  intros Hn _ _ Hy. eexists _, _, _. split.
  - apply arc_branch; assumption.
  - rewrite arc_branch by (assumption || lra).
    rewrite Rarc_mirror, Rabs_Ropp, theta_raw_mirror by exact Hy.
    f_equal. f_equal. f_equal. f_equal. rewrite <- to_float_opp. f_equal.
    assert (Hs : IZR (mrpt.sign (- Rarc x y)) = - IZR (mrpt.sign (Rarc x y))).
    { pose proof (Rarc_nonzero x y Hy).
      destruct (sign_cases (Rarc x y)) as [[? ->] | [? ->]];
        destruct (sign_cases (- Rarc x y)) as [[? ->] | [? ->]];
        try lra; cbn; lra. }
    destruct (Rabs (Rarc x y) <? Rmin p).
    + rewrite Hs. unfold Rdiv.
      replace (W_MAX p * (Rmin p * - IZR (mrpt.sign (Rarc x y))))
        with (- (W_MAX p * (Rmin p * IZR (mrpt.sign (Rarc x y))))) by ring.
      rewrite Rinv_opp. ring.
    + unfold Rdiv.
      replace (W_MAX p * - Rarc x y) with (- (W_MAX p * Rarc x y)) by ring.
      rewrite Rinv_opp. ring.
Qed.

Lemma inverseMap_mirror_witness :
  exists alpha d e,
    inverseMap_WS2TP Examples.unit_ptg 3 4
      = Ok (mrpt.alpha2index alpha 31, d, e) /\
    inverseMap_WS2TP Examples.unit_ptg 3 (- 4)
      = Ok (mrpt.alpha2index (- alpha) 31, d, e).
Proof.
  apply (inverseMap_mirror Examples.unit_ptg 3 4);
    [cbn; lia | cbn; lra | cbn; lra | lra].
Defined.

End DiffDrive_C_facts.

(* ================================================================= *)
(** ** HolonomicBlend: paths, step counts and motion commands        *)
(* ================================================================= *)

Module HolonomicBlend_facts.
Import HolonomicBlend Notions HolonomicBlend_spec.

Lemma Rabs_bounds (a b : R) : Rabs a <= b -> - b <= a <= b.
Proof. unfold Rabs. destruct (Rcase_abs a); lra. Qed.

Lemma index2alpha_Ok (k n : Z) :
  (k < n)%Z ->
  mrpt.index2alpha k n = Ok (PI * (-1 + 2 * (IZR k + 0.5) / IZR n)).
Proof.
  intros H. unfold mrpt.index2alpha.
  destruct (Z.ltb_spec k n); [reflexivity | lia].
Qed.

Lemma index2alpha_inv (k n : Z) (d : R) :
  mrpt.index2alpha k n = Ok d ->
  (k < n)%Z /\ d = PI * (-1 + 2 * (IZR k + 0.5) / IZR n).
Proof.
  unfold mrpt.index2alpha.
  destruct (Z.ltb_spec k n); cbn [ASSERT_ bind]; [| discriminate].
  intros [= <-]. auto.
Qed.

(** With a step of zero the trapezoid sum stays where it is. *)
Lemma trapezoid_loop_zero (n : nat) (a b c : R) :
  0 <= c ->
  forall st, fst (fst st) = 0 ->
    exists d, trapezoid_loop n 0 a b c st = Ok d /\ d = snd (fst st).
Proof.
  intros Hc. induction n as [| n IH]; intros [[t d] f] Ht; cbn in Ht; subst t.
  - exists d. split; reflexivity.
  - cbn [trapezoid_loop].
    rewrite Rltb_true by nra. cbn [ASSERT_ bind].
    edestruct IH as (d' & -> & Hd'); [| exists d'; split; [reflexivity |]].
    + cbn. ring.
    + rewrite Hd'. cbn. ring.
Qed.

Lemma calc_trans_distance_at_zero (k2 k4 vxi vyi : R) :
  exists d, calc_trans_distance_t_below_Tramp k2 k4 vxi vyi 0 = Ok d /\ d = 0.
Proof.
  unfold calc_trans_distance_t_below_Tramp.
  destruct (_ || _); [| eexists; split; [reflexivity | ring]].
  destruct (_ && _); [eexists; split; [reflexivity | ring] |].
  unfold calc_trans_distance_t_below_Tramp_abc,
    calc_trans_distance_t_below_Tramp_abc_numeric.
  rewrite (Rleb_true 0 (k2 * k2 * 4 + k4 * k4 * 4)) by nra.
  rewrite (Rleb_true 0 (vxi * vxi + vyi * vyi)) by nra.
  cbn [ASSERT_ bind].
  replace (0 / INR NUM_STEPS) with 0 by (unfold Rdiv; ring).
  edestruct (trapezoid_loop_zero NUM_STEPS (k2 * k2 * 4 + k4 * k4 * 4)
               (k2 * vxi * 4 + k4 * vyi * 4) (vxi * vxi + vyi * vyi))
    as (d & Hd & E); [nra | | exists d; split; [exact Hd | exact E]].
  reflexivity.
Qed.

Lemma initialized_params (p : t) (cache cache' : list Z) :
  internal_initialize p cache = Ok cache' ->
  0 < T_ramp_max p /\ 0 < V_MAX p /\ 0 < W_MAX p /\
  (0 < m_alphaValuesCount p)%Z /\ 0 < m_robotRadius p /\ cache' = [].
Proof.
  unfold internal_initialize.
  destruct (Rltb_spec 0 (T_ramp_max p)); cbn [ASSERT_ bind]; [| discriminate].
  destruct (Rltb_spec 0 (V_MAX p)); cbn [ASSERT_ bind]; [| discriminate].
  destruct (Rltb_spec 0 (W_MAX p)); cbn [ASSERT_ bind]; [| discriminate].
  destruct (Z.gtb_spec (m_alphaValuesCount p) 0); cbn [ASSERT_ bind];
    [| discriminate].
  destruct (Rltb_spec 0 (m_robotRadius p)); cbn [ASSERT_ bind];
    [| discriminate].
  intros [= <-]. repeat split; assumption || lia.
Qed.

Lemma default_ptg_initializes :
  internal_initialize Examples.default_ptg [] = Ok [].
Proof.
  pose proof PI_RGT_0. unfold internal_initialize.
  cbn [Examples.default_ptg T_ramp_max V_MAX W_MAX m_alphaValuesCount
       m_robotRadius].
  rewrite !Rltb_true by lra. reflexivity.
Qed.

(** X3.  On an initialized PTG every path starts at the robot: for a
    valid path index, step 0 lies at distance 0 and [getPathPose] puts it
    at x = 0, y = 0, whatever the current velocity and whatever
    [solve_poly2] answers. *)
Theorem paths_start_at_origin (solve_poly2 : R -> R -> R -> Z * R * R)
  (p : t) (cache cache' : list Z) (k : Z) :
  internal_initialize p cache = Ok cache' ->
  (k < m_alphaValuesCount p)%Z ->
  getPathDist p k 0 = Ok 0 /\
  exists pose,
    getPathPose solve_poly2 p k 0 = Ok pose /\
    TPose2D.x pose = 0 /\ TPose2D.y pose = 0.
Proof.
  intros Hinit Hk. apply initialized_params in Hinit.
  destruct Hinit as (HT & _).
  split.
  - unfold getPathDist. rewrite index2alpha_Ok by exact Hk. cbn [bind].
    unfold internal_getPathDist.
    cbn [internal_params_from_dir_and_dynstate T_ramp vxf vyf].
    rewrite Rmult_0_r. rewrite Rltb_true by exact HT.
    edestruct calc_trans_distance_at_zero as (d & -> & ->). reflexivity.
  - unfold getPathPose. rewrite index2alpha_Ok by exact Hk. cbn [bind].
    cbn [internal_params_from_dir_and_dynstate T_ramp vxf vyf vxi vyi wf].
    rewrite Rmult_0_r. rewrite Rltb_true by exact HT.
    eexists. split; [reflexivity |]. cbn [TPose2D.x TPose2D.y]. split; ring.
Qed.

Lemma paths_start_at_origin_witness :
  getPathDist Examples.default_ptg 15 0 = Ok 0 /\
  exists pose,
    getPathPose Examples.no_roots Examples.default_ptg 15 0 = Ok pose /\
    TPose2D.x pose = 0 /\ TPose2D.y pose = 0.
Proof.
  apply (paths_start_at_origin Examples.no_roots Examples.default_ptg [] [] 15).
  - exact default_ptg_initializes.
  - cbn. lia.
Defined.

(** The ramp arc length, as [internal_getPathDist] and
    [getPathStepForDist] compute it. *)
Lemma ramp_distance_unfold (p : t) (d D : R) :
  ramp_distance p d = Ok D ->
  let vf := Rabs (m_expr_v p (expr_vars p d)) in
  let vxi := TTwist2D.vx (curVelLocal (m_nav_dyn_state p)) in
  let vyi := TTwist2D.vy (curVelLocal (m_nav_dyn_state p)) in
  calc_trans_distance_t_below_Tramp
    ((vf * cos d - vxi) * (1 / (2 * T_ramp_max p)))
    ((vf * sin d - vyi) * (1 / (2 * T_ramp_max p)))
    vxi vyi (T_ramp_max p) = Ok D.
Proof. intros H. exact H. Qed.

Lemma getPathDist_after_ramp (p : t) (k step : Z) (d D : R) :
  mrpt.index2alpha k (m_alphaValuesCount p) = Ok d ->
  ramp_distance p d = Ok D ->
  T_ramp_max p <= PATH_TIME_STEP * IZR step ->
  getPathDist p k step
  = Ok ((PATH_TIME_STEP * IZR step - T_ramp_max p) * V_MAX p + D).
Proof.
  intros Hd HD Ht. apply ramp_distance_unfold in HD. cbn zeta in HD.
  unfold getPathDist. rewrite Hd. cbn [bind]. unfold internal_getPathDist.
  cbn [internal_params_from_dir_and_dynstate T_ramp vxf vyf].
  rewrite Rltb_false by lra. rewrite HD. reflexivity.
Qed.

Lemma getPathStepForDist_beyond_ramp (p : t) (k : Z) (d D dist : R) :
  0 < T_ramp_max p -> 0 < V_MAX p ->
  mrpt.index2alpha k (m_alphaValuesCount p) = Ok d ->
  ramp_distance p d = Ok D ->
  D <= dist ->
  getPathStepForDist p k dist
  = Ok (Some (to_uint32
                (mrpt.round ((T_ramp_max p + (dist - D) / V_MAX p)
                             / PATH_TIME_STEP)))).
Proof.
  intros HT HV Hd HD Hdist. apply ramp_distance_unfold in HD. cbn zeta in HD.
  unfold getPathStepForDist. rewrite Hd. cbn [bind].
  cbn [internal_params_from_dir_and_dynstate T_ramp vxf vyf vxi vyi].
  rewrite HD. cbn [bind]. rewrite Rleb_true by exact Hdist. cbn [bind].
  rewrite Rleb_true; [reflexivity |].
  assert (0 <= (dist - D) / V_MAX p).
  { apply Rmult_le_pos; [lra |]. left. apply Rinv_0_lt_compat. exact HV. }
  lra.
Qed.

(** X4.  Past the ramp, distance and step are inverse to each other: for
    a step at or after [T_ramp_max], [getPathDist] returns a distance at
    which [getPathStepForDist] gives that step back. *)
Theorem step_dist_round_trip (p : t) (k step : Z) :
  0 < T_ramp_max p -> 0 < V_MAX p -> (k < m_alphaValuesCount p)%Z ->
  (0 <= step < 4294967296)%Z ->
  T_ramp_max p <= PATH_TIME_STEP * IZR step ->
  exists dist,
    getPathDist p k step = Ok dist /\
    getPathStepForDist p k dist = Ok (Some step).
Proof.
  intros HT HV Hk Hs Ht.
  pose proof (index2alpha_Ok k _ Hk) as Hd.
  destruct (ramp_distance_returns p
              (PI * (-1 + 2 * (IZR k + 0.5) / IZR (m_alphaValuesCount p))))
    as [D HD].
  eexists. split.
  - eapply getPathDist_after_ramp; eassumption.
  - erewrite getPathStepForDist_beyond_ramp by (eassumption || nra).
    replace ((T_ramp_max p +
              ((PATH_TIME_STEP * IZR step - T_ramp_max p) * V_MAX p + D - D)
              / V_MAX p) / PATH_TIME_STEP)
      with (IZR step) by (unfold PATH_TIME_STEP; field; lra).
    unfold mrpt.round. rewrite lrint_integer, to_uint32_small by lia.
    reflexivity.
Qed.

Lemma step_dist_round_trip_witness :
  exists dist,
    getPathDist Examples.default_ptg 15 190 = Ok dist /\
    getPathStepForDist Examples.default_ptg 15 dist = Ok (Some 190%Z).
Proof.
  apply (step_dist_round_trip Examples.default_ptg 15 190);
    unfold PATH_TIME_STEP; cbn; try lia; lra.
Defined.

(** X5.  The step found for a distance past the ramp lies at that
    distance up to half a step of travel: for [dist] at least
    [D_ramp + V_MAX * PATH_TIME_STEP / 2] (and a step that fits 32 bits)
    the distance of the returned step differs from [dist] by at most
    [V_MAX * PATH_TIME_STEP / 2]. *)
Theorem dist_step_round_trip (p : t) (k : Z) (d D dist : R) :
  0 < T_ramp_max p -> 0 < V_MAX p ->
  mrpt.index2alpha k (m_alphaValuesCount p) = Ok d ->
  ramp_distance p d = Ok D ->
  D + V_MAX p * PATH_TIME_STEP / 2 <= dist ->
  (mrpt.round ((T_ramp_max p + (dist - D) / V_MAX p) / PATH_TIME_STEP)
   < 4294967296)%Z ->
  exists step dist',
    getPathStepForDist p k dist = Ok (Some step) /\
    getPathDist p k step = Ok dist' /\
    Rabs (dist' - dist) <= V_MAX p * PATH_TIME_STEP / 2.
Proof.
  intros HT HV Hd HD Hdist Hfit.
  set (ts := T_ramp_max p + (dist - D) / V_MAX p) in *.
  assert (Hts : (ts - T_ramp_max p) * V_MAX p = dist - D)
    by (subst ts; field; lra).
  assert (Hlow : T_ramp_max p + PATH_TIME_STEP / 2 <= ts).
  { unfold PATH_TIME_STEP in *. nra. }
  pose proof (lrint_error (ts / PATH_TIME_STEP)) as Herr.
  fold (mrpt.round (ts / PATH_TIME_STEP)) in Herr.
  set (step := mrpt.round (ts / PATH_TIME_STEP)) in *.
  apply Rabs_bounds in Herr.
  assert (Hq : ts / PATH_TIME_STEP * PATH_TIME_STEP = ts)
    by (unfold PATH_TIME_STEP; field).
  assert (Hstep : - (PATH_TIME_STEP / 2) <= PATH_TIME_STEP * IZR step - ts
                  <= PATH_TIME_STEP / 2).
  { unfold PATH_TIME_STEP in *. lra. }
  assert (Hnn : (0 <= step)%Z).
  { apply lrint_nonneg. unfold PATH_TIME_STEP. unfold PATH_TIME_STEP in Hlow.
    apply Rmult_le_pos; [lra |]. left. apply Rinv_0_lt_compat. lra. }
  exists step, ((PATH_TIME_STEP * IZR step - T_ramp_max p) * V_MAX p + D).
  split; [| split].
  - rewrite (getPathStepForDist_beyond_ramp p k d D dist) by
      (assumption || (unfold PATH_TIME_STEP in Hdist; nra)).
    fold ts. fold step. rewrite to_uint32_small by lia. reflexivity.
  - apply (getPathDist_after_ramp p k step d D); try assumption. lra.
  - apply Rabs_le. unfold PATH_TIME_STEP in *. nra.
Qed.

Lemma unit_direction (d : R) : cos d * cos d + sin d * sin d = 1.
Proof. pose proof (sin2_cos2 d) as H. unfold Rsqr in H. lra. Qed.

(** X6.  After the ramp the motion is uniform: between two steps
    [s1 <= s2] at or after [T_ramp_max] the pose advances by
    [dt * vf * (cos d, sin d)] and the distance by [dt * V_MAX], with
    [dt = PATH_TIME_STEP * (s2 - s1)], [d] the direction of the path and
    [vf] the final speed of the velocity expression. *)
Theorem uniform_motion_after_ramp (solve_poly2 : R -> R -> R -> Z * R * R)
  (p : t) (k s1 s2 : Z) (d : R) :
  mrpt.index2alpha k (m_alphaValuesCount p) = Ok d ->
  T_ramp_max p <= PATH_TIME_STEP * IZR s1 -> (s1 <= s2)%Z ->
  exists p1 p2 d1 d2,
    getPathPose solve_poly2 p k s1 = Ok p1 /\
    getPathPose solve_poly2 p k s2 = Ok p2 /\
    getPathDist p k s1 = Ok d1 /\
    getPathDist p k s2 = Ok d2 /\
    let dt := PATH_TIME_STEP * IZR (s2 - s1) in
    let vf := Rabs (m_expr_v p (expr_vars p d)) in
    TPose2D.x p2 - TPose2D.x p1 = dt * (vf * cos d) /\
    TPose2D.y p2 - TPose2D.y p1 = dt * (vf * sin d) /\
    d2 - d1 = dt * V_MAX p.
Proof.
  intros Hd Ht Hs.
  assert (Ht2 : T_ramp_max p <= PATH_TIME_STEP * IZR s2).
  { apply IZR_le in Hs. unfold PATH_TIME_STEP in *. lra. }
  destruct (ramp_distance_returns p d) as [D HD].
  eexists _, _, _, _.
  split; [| split; [| split; [| split]]].
  - unfold getPathPose. rewrite Hd. cbn [bind].
    cbn [internal_params_from_dir_and_dynstate T_ramp].
    rewrite Rltb_false by lra. reflexivity.
  - unfold getPathPose. rewrite Hd. cbn [bind].
    cbn [internal_params_from_dir_and_dynstate T_ramp].
    rewrite Rltb_false by lra. reflexivity.
  - apply (getPathDist_after_ramp p k s1 d D); assumption.
  - apply (getPathDist_after_ramp p k s2 d D); assumption.
  - cbn [TPose2D.x TPose2D.y vxf vyf vxi vyi
         internal_params_from_dir_and_dynstate].
    rewrite minus_IZR. repeat split; ring.
Qed.

Lemma uniform_motion_after_ramp_witness :
  exists p1 p2 d1 d2,
    getPathPose Examples.no_roots Examples.default_ptg 15 100 = Ok p1 /\
    getPathPose Examples.no_roots Examples.default_ptg 15 200 = Ok p2 /\
    getPathDist Examples.default_ptg 15 100 = Ok d1 /\
    getPathDist Examples.default_ptg 15 200 = Ok d2 /\
    let dt := PATH_TIME_STEP * IZR (200 - 100) in
    let vf := Rabs (m_expr_v Examples.default_ptg
                      (expr_vars Examples.default_ptg 0)) in
    TPose2D.x p2 - TPose2D.x p1 = dt * (vf * cos 0) /\
    TPose2D.y p2 - TPose2D.y p1 = dt * (vf * sin 0) /\
    d2 - d1 = dt * V_MAX Examples.default_ptg.
Proof.
  apply (uniform_motion_after_ramp Examples.no_roots Examples.default_ptg
           15 100 200 0).
  - exact straight_ahead_index.
  - unfold PATH_TIME_STEP. cbn. lra.
  - lia.
Defined.

(** The ramp from rest: the arc length is [V / T * t^2 / 2]. *)
Lemma calc_trans_distance_from_rest (V T c s t : R) :
  0 < T -> 0 < V -> c * c + s * s = 1 ->
  2 * (eps * eps) < V / (2 * T) * (V / (2 * T)) ->
  exists rho,
    calc_trans_distance_t_below_Tramp
      ((V * c - 0) * (1 / (2 * T))) ((V * s - 0) * (1 / (2 * T))) 0 0 t
    = Ok rho /\
    rho = V / T * (t * t) / 2.
Proof.
  intros HT HV Hcs Hacc.
  set (k2 := (V * c - 0) * (1 / (2 * T))).
  set (k4 := (V * s - 0) * (1 / (2 * T))).
  assert (Hk : k2 * k2 + k4 * k4 = V / (2 * T) * (V / (2 * T))).
  { subst k2 k4.
    replace ((V * c - 0) * (1 / (2 * T)) * ((V * c - 0) * (1 / (2 * T))) +
             (V * s - 0) * (1 / (2 * T)) * ((V * s - 0) * (1 / (2 * T))))
      with (V / (2 * T) * (V / (2 * T)) * (c * c + s * s)) by (field; lra).
    rewrite Hcs. ring. }
  assert (Hfast : (Rabs k2 >? eps) || (Rabs k4 >? eps) = true).
  { destruct (Rltb_spec eps (Rabs k2)) as [| H2]; [reflexivity |].
    destruct (Rltb_spec eps (Rabs k4)) as [| H4]; [reflexivity |].
    exfalso. apply Rnot_lt_le, Rabs_bounds in H2.
    apply Rnot_lt_le, Rabs_bounds in H4.
    assert (k2 * k2 <= eps * eps) by nra.
    assert (k4 * k4 <= eps * eps) by nra. lra. }
  assert (Hsq : sqrt (k2 * k2 * 4 + k4 * k4 * 4) = V / T).
  { replace (k2 * k2 * 4 + k4 * k4 * 4) with (V / T * (V / T)).
    - apply sqrt_square. apply Rlt_le. apply Rdiv_lt_0_compat; assumption.
    - replace (k2 * k2 * 4 + k4 * k4 * 4) with (4 * (k2 * k2 + k4 * k4))
        by ring.
      rewrite Hk. field. lra. }
  unfold calc_trans_distance_t_below_Tramp. fold k2 k4. rewrite Hfast.
  replace (k2 * 0 * 4 + k4 * 0 * 4) with 0 by ring.
  replace (0 * 0 + 0 * 0) with 0 by ring.
  rewrite Rabs_R0. rewrite (Rltb_true 0 eps) by (unfold eps; lra).
  cbn [andb]. eexists. split; [reflexivity |]. rewrite Hsq. lra.
Qed.

(** The default PTG at rest, straight ahead: the ramp covers 0.45 m. *)
Lemma default_ramp_distance :
  ramp_distance Examples.default_ptg 0 = Ok (45 / 100).
Proof.
  unfold ramp_distance.
  cbn [internal_params_from_dir_and_dynstate T_ramp vxf vyf vxi vyi
       Examples.default_ptg m_expr_v expr_vars var_V_MAX V_MAX T_ramp_max
       m_nav_dyn_state curVelLocal TTwist2D.vx TTwist2D.vy].
  rewrite Rabs_R1.
  destruct (calc_trans_distance_from_rest 1 (9 / 10) (cos 0) (sin 0) (9 / 10))
    as (rho & Hrho & E).
  - lra.
  - lra.
  - apply unit_direction.
  - unfold eps. lra.
  - rewrite Hrho. f_equal. rewrite E. lra.
Qed.

Lemma dist_step_round_trip_witness :
  exists step dist',
    getPathStepForDist Examples.default_ptg 15 (145 / 100) = Ok (Some step) /\
    getPathDist Examples.default_ptg 15 step = Ok dist' /\
    Rabs (dist' - 145 / 100)
      <= V_MAX Examples.default_ptg * PATH_TIME_STEP / 2.
Proof.
  apply (dist_step_round_trip Examples.default_ptg 15 0 (45 / 100)
           (145 / 100)).
  - cbn. lra.
  - cbn. lra.
  - exact straight_ahead_index.
  - exact default_ramp_distance.
  - unfold PATH_TIME_STEP. cbn. lra.
  - replace ((T_ramp_max Examples.default_ptg +
              (145 / 100 - 45 / 100) / V_MAX Examples.default_ptg)
             / PATH_TIME_STEP)
      with (IZR 190) by (unfold PATH_TIME_STEP; cbn; lra).
    unfold mrpt.round. rewrite lrint_integer. lia.
Defined.



(** *** The cache of path step counts *)

Lemma vector_set_length (v : list Z) (i : nat) (x : Z) :
  List.length (vector_set v i x) = List.length v.
Proof.
  revert i. induction v as [| y r IH]; intros [| j]; cbn; try reflexivity.
  rewrite IH. reflexivity.
Qed.

Lemma vector_set_nth (v : list Z) (i : nat) (x d : Z) :
  (i < List.length v)%nat -> nth i (vector_set v i x) d = x.
Proof.
  revert i. induction v as [| y r IH]; intros [| j] H; cbn in *;
    try lia; try reflexivity.
  apply IH. lia.
Qed.

Lemma vector_assign_length (n v : Z) :
  List.length (vector_assign n v) = Z.to_nat n.
Proof. unfold vector_assign. apply repeat_length. Qed.

Lemma vector_assign_nth (n v d : Z) (i : nat) :
  nth i (vector_assign n v) d = v \/ nth i (vector_assign n v) d = d.
Proof.
  unfold vector_assign. revert i.
  induction (Z.to_nat n) as [| m IH]; intros [| j]; cbn; auto.
Qed.

Lemma to_int32_small (z : Z) :
  (- 2147483648 <= z < 2147483648)%Z -> to_int32 z = z.
Proof. intros H. unfold to_int32. rewrite Z.mod_small; lia. Qed.

Lemma getPathStepForDist_index (p : t) (k : Z) (dist : R) r :
  getPathStepForDist p k dist = Ok r -> (k < m_alphaValuesCount p)%Z.
Proof.
  unfold getPathStepForDist, mrpt.index2alpha.
  destruct (Z.ltb_spec k (m_alphaValuesCount p)); [auto | discriminate].
Qed.

(** What a call that misses the cache does. *)
Lemma getPathStepCount_miss (p : t) (cache : list Z) (k : Z) :
  (Z.of_nat (List.length cache) >? k)%Z && (nth (Z.to_nat k) cache 0 >? 0)%Z
    = false ->
  getPathStepCount p cache k =
  (r <- getPathStepForDist p k (refDistance p) ;;
   match r with
   | None =>
       Throw (RuntimeError "Could not solve closed-form distance for k")
   | Some step =>
       ASSERT_ "step > 0" (step >? 0)%Z ;;;
       Ok (step,
           vector_set
             (if negb (Z.of_nat (List.length cache) =? m_alphaValuesCount p)%Z
              then vector_assign (m_alphaValuesCount p) (-1)
              else cache)
             (Z.to_nat k) (to_int32 step))
   end).
Proof. intros H. unfold getPathStepCount. rewrite H. reflexivity. Qed.

Lemma getPathStepCount_hit (p : t) (cache : list Z) (k : Z) :
  (Z.of_nat (List.length cache) >? k)%Z && (nth (Z.to_nat k) cache 0 >? 0)%Z
    = true ->
  getPathStepCount p cache k = Ok (nth (Z.to_nat k) cache 0%Z, cache).
Proof. intros H. unfold getPathStepCount. rewrite H. reflexivity. Qed.

Lemma getPathStepCount_some (p : t) (cache : list Z) (k n : Z)
  (cache' : list Z) :
  getPathStepCount p cache k = Ok (n, cache') -> (0 < n)%Z.
Proof.
  intros H.
  destruct ((Z.of_nat (List.length cache) >? k)%Z &&
            (nth (Z.to_nat k) cache 0 >? 0)%Z) eqn:Hhit.
  - rewrite getPathStepCount_hit in H by exact Hhit. injection H as <- _.
    apply andb_prop in Hhit. destruct Hhit as [_ Hpos]. lia.
  - rewrite getPathStepCount_miss in H by exact Hhit.
    destruct (getPathStepForDist p k (refDistance p)) as [[step |] | e];
      cbn [bind] in H; try discriminate.
    destruct (Z.gtb_spec step 0); cbn [ASSERT_ bind] in H; [| discriminate].
    injection H as <- _. lia.
Qed.

(** The default PTG at rest reaches its reference distance of 6 m on
    the path straight ahead at step 645. *)
Lemma default_step_for_ref_distance :
  getPathStepForDist Examples.default_ptg 15 6 = Ok (Some 645%Z).
Proof.
  rewrite (getPathStepForDist_beyond_ramp Examples.default_ptg 15 0
             (45 / 100) 6).
  - replace ((T_ramp_max Examples.default_ptg +
              (6 - 45 / 100) / V_MAX Examples.default_ptg) / PATH_TIME_STEP)
      with (IZR 645) by (unfold PATH_TIME_STEP; cbn; lra).
    unfold mrpt.round. rewrite lrint_integer. reflexivity.
  - cbn. lra.
  - cbn. lra.
  - exact straight_ahead_index.
  - exact default_ramp_distance.
  - lra.
Qed.

Lemma default_step_count :
  getPathStepCount Examples.default_ptg [] 15
  = Ok (645%Z, vector_set (vector_assign 31 (-1)) 15 645).
Proof.
  rewrite getPathStepCount_miss by reflexivity.
  change (refDistance Examples.default_ptg) with 6.
  rewrite default_step_for_ref_distance. reflexivity.
Qed.

(** X8.  A returned step count is never zero: whatever the cache holds,
    a count [getPathStepCount] returns is positive and so is the time
    [maxTimeInVelCmdNOP] returns, which is 0.7 times the duration of the
    path; on the default PTG at rest the path straight ahead has 645
    steps, that is 4.515 s. *)
Theorem step_count_is_positive (p : t) (cache : list Z) :
  (forall k n cache',
     getPathStepCount p cache k = Ok (n, cache') -> (0 < n)%Z) /\
  (forall path_k max_t cache',
     maxTimeInVelCmdNOP p cache path_k = Ok (max_t, cache') ->
     exists n c,
       getPathStepCount p cache (to_uint16 path_k) = Ok (n, c) /\
       max_t = PATH_TIME_STEP * IZR n * 7 / 10 /\ 0 < max_t) /\
  (exists cache',
     getPathStepCount Examples.default_ptg [] 15 = Ok (645%Z, cache') /\
     maxTimeInVelCmdNOP Examples.default_ptg [] 15
       = Ok (4515 / 1000, cache')).
Proof.
  split; [| split].
  - intros k n cache'. apply getPathStepCount_some.
  - intros path_k max_t cache'. unfold maxTimeInVelCmdNOP.
    destruct (getPathStepCount p cache (to_uint16 path_k))
      as [[n c] | e] eqn:E; cbn [bind fst snd]; [| discriminate].
    intros [= <- <-]. exists n, c. split; [reflexivity |].
    apply getPathStepCount_some in E.
    apply IZR_lt in E. unfold PATH_TIME_STEP. split; lra.
  - eexists. split; [exact default_step_count |].
    unfold maxTimeInVelCmdNOP.
    change (to_uint16 15) with 15%Z.
    rewrite default_step_count. cbn [bind fst snd].
    f_equal. f_equal. unfold PATH_TIME_STEP. lra.
Qed.

(** X9.  A computed step count is served from the cache afterwards: once
    [getPathStepCount] has returned [n] (below 2^31, the range of the
    cached [int]) for a path, the next call with the cache it left
    returns [n] again and leaves the cache as it is. *)
Theorem getPathStepCount_cached (p : t) (cache : list Z) (k n : Z)
  (cache' : list Z) :
  (0 <= k)%Z ->
  getPathStepCount p cache k = Ok (n, cache') ->
  (n < 2147483648)%Z ->
  getPathStepCount p cache' k = Ok (n, cache').
Proof.
  intros Hk H Hn.
  destruct ((Z.of_nat (List.length cache) >? k)%Z &&
            (nth (Z.to_nat k) cache 0 >? 0)%Z) eqn:Hhit.
  - rewrite getPathStepCount_hit in H by exact Hhit. injection H as <- <-.
    apply getPathStepCount_hit. exact Hhit.
  - rewrite getPathStepCount_miss in H by exact Hhit.
    destruct (getPathStepForDist p k (refDistance p)) as [[step |] | e] eqn:E;
      cbn [bind] in H; try discriminate.
    apply getPathStepForDist_index in E.
    destruct (Z.gtb_spec step 0) as [Hpos |]; cbn [ASSERT_ bind] in H;
      [| discriminate].
    injection H as <- <-.
    set (c0 := if negb (Z.of_nat (List.length cache) =? m_alphaValuesCount p)%Z
               then vector_assign (m_alphaValuesCount p) (-1) else cache).
    assert (Hlen : List.length c0 = Z.to_nat (m_alphaValuesCount p)).
    { subst c0.
      destruct (Z.eqb_spec (Z.of_nat (List.length cache))
                  (m_alphaValuesCount p)) as [<- | _]; cbn [negb].
      - rewrite Nat2Z.id. reflexivity.
      - apply vector_assign_length. }
    rewrite getPathStepCount_hit.
    + rewrite vector_set_nth by (rewrite Hlen; lia).
      rewrite to_int32_small by lia. reflexivity.
    + rewrite vector_set_length, Hlen.
      rewrite vector_set_nth by (rewrite Hlen; lia).
      rewrite to_int32_small by lia.
      apply andb_true_intro. split; apply Z.gtb_lt; lia.
Qed.

Lemma getPathStepCount_cached_witness :
  getPathStepCount Examples.default_ptg
    (vector_set (vector_assign 31 (-1)) 15 645) 15
  = Ok (645%Z, vector_set (vector_assign 31 (-1)) 15 645).
Proof.
  apply (getPathStepCount_cached Examples.default_ptg [] 15 645).
  - lia.
  - exact default_step_count.
  - lia.
Defined.

(** X10.  A new dynamic state forgets every cached step count: after
    [onNewNavDynamicState], whether it returned or threw, a call of
    [getPathStepCount] gives what it gives on an empty cache. *)
Theorem new_dynamic_state_invalidates_step_counts (p : t)
  (m_nav_dyn_state_target_k INVALID_PTG_PATH_INDEX k : Z) :
  let st :=
    fst (onNewNavDynamicState p m_nav_dyn_state_target_k
           INVALID_PTG_PATH_INDEX) in
  getPathStepCount (fst st) (snd st) k = getPathStepCount (fst st) [] k.
Proof.
  intros st.
  assert (Hst : snd st = vector_assign (m_alphaValuesCount p) (-1)).
  { subst st. unfold onNewNavDynamicState.
    destruct (negb _); [destruct (mrpt.index2alpha _ _) |]; reflexivity. }
  assert (HN : m_alphaValuesCount (fst st) = m_alphaValuesCount p).
  { subst st. unfold onNewNavDynamicState.
    destruct (negb _); [destruct (mrpt.index2alpha _ _) |]; reflexivity. }
  rewrite Hst.
  assert (Hmiss1 :
    (Z.of_nat (List.length (vector_assign (m_alphaValuesCount p) (-1))) >? k)%Z
    && (nth (Z.to_nat k) (vector_assign (m_alphaValuesCount p) (-1)) 0 >? 0)%Z
    = false).
  { apply andb_false_intro2.
    destruct (vector_assign_nth (m_alphaValuesCount p) (-1) 0 (Z.to_nat k))
      as [-> | ->]; reflexivity. }
  assert (Hmiss2 :
    (Z.of_nat (List.length (@nil Z)) >? k)%Z && (nth (Z.to_nat k) [] 0 >? 0)%Z
    = false).
  { apply andb_false_intro2. destruct (Z.to_nat k); reflexivity. }
  rewrite !getPathStepCount_miss by assumption. rewrite HN.
  destruct (getPathStepForDist (fst st) k (refDistance (fst st)))
    as [[step |] | e]; cbn [bind]; try reflexivity.
  destruct (step >? 0)%Z; cbn [ASSERT_ bind]; [| reflexivity].
  do 3 f_equal. rewrite vector_assign_length. cbn [List.length].
  destruct (Z.eqb_spec (Z.of_nat (Z.to_nat (m_alphaValuesCount p)))
              (m_alphaValuesCount p)) as [E1 | E1];
    destruct (Z.eqb_spec (Z.of_nat 0) (m_alphaValuesCount p)) as [E2 | E2];
    cbn [negb]; try reflexivity; rewrite <- E2; reflexivity.
Qed.


(** *** Motion commands *)

Lemma index2alpha_sign (k n : Z) :
  (0 <= k < n)%Z ->
  let dir := PI * (-1 + 2 * (IZR k + 0.5) / IZR n) in
  - PI < dir < PI /\
  ((2 * k + 1 < n)%Z -> dir < 0) /\
  ((2 * k + 1 = n)%Z -> dir = 0) /\
  ((2 * k + 1 > n)%Z -> 0 < dir).
Proof.
  intros Hk dir. pose proof PI_RGT_0 as Hpi.
  assert (Hn : 0 < IZR n) by (apply IZR_lt; lia).
  assert (Hk0 : 0 <= IZR k) by (apply IZR_le; lia).
  assert (Hkn : IZR k + 1 <= IZR n).
  { rewrite <- plus_IZR. apply IZR_le. lia. }
  set (q := 2 * (IZR k + 0.5) / IZR n) in *.
  assert (Hq : q * IZR n = 2 * IZR k + 1).
  { subst q. unfold Rdiv. rewrite Rmult_assoc, Rinv_l by lra. lra. }
  assert (Hq0 : 0 < q) by nra.
  assert (Hq2 : q < 2) by nra.
  assert (Hcmp : IZR (2 * k + 1) = 2 * IZR k + 1).
  { rewrite plus_IZR, mult_IZR. reflexivity. }
  subst dir. split; [nra |]. split; [| split]; intros H.
  - apply IZR_lt in H. rewrite Hcmp in H.
    assert (q < 1) by nra. nra.
  - apply (f_equal IZR) in H. rewrite Hcmp in H.
    assert (q = 1) by nra. nra.
  - apply Z.gt_lt, IZR_lt in H. rewrite Hcmp in H.
    assert (1 < q) by nra. nra.
Qed.

(** X11.  The motion command of a path: for a valid index the command
    has a speed [>= 0], the ramp time [T_ramp_max] and a direction in
    (-pi, pi), and it rotates towards that direction: paths of the lower
    half turn right or not at all (direction [< 0], rotation [<= 0]),
    the middle path goes straight (both 0), paths of the upper half turn
    left or not at all; an index at or above the number of paths
    throws. *)
Theorem directionToMotionCommand_turns_towards (p : t) (k : Z) :
  (0 <= k)%Z ->
  ((k < m_alphaValuesCount p)%Z ->
   exists cmd,
     directionToMotionCommand p k = Ok cmd /\
     0 <= CVehicleVelCmd_Holo.vel cmd /\
     CVehicleVelCmd_Holo.ramp_time cmd = T_ramp_max p /\
     - PI < CVehicleVelCmd_Holo.dir_local cmd < PI /\
     ((2 * k + 1 < m_alphaValuesCount p)%Z ->
      CVehicleVelCmd_Holo.dir_local cmd < 0 /\
      CVehicleVelCmd_Holo.rot_speed cmd <= 0) /\
     ((2 * k + 1 = m_alphaValuesCount p)%Z ->
      CVehicleVelCmd_Holo.dir_local cmd = 0 /\
      CVehicleVelCmd_Holo.rot_speed cmd = 0) /\
     ((2 * k + 1 > m_alphaValuesCount p)%Z ->
      0 < CVehicleVelCmd_Holo.dir_local cmd /\
      0 <= CVehicleVelCmd_Holo.rot_speed cmd)) /\
  ((m_alphaValuesCount p <= k)%Z ->
   directionToMotionCommand p k = Throw (AssertionFailed "k < num_paths")).
Proof.
  intros Hk0. split.
  - intros Hk. unfold directionToMotionCommand.
    rewrite index2alpha_Ok by exact Hk. cbn [bind].
    destruct (index2alpha_sign k (m_alphaValuesCount p) (conj Hk0 Hk))
      as (Hrange & Hneg & Hzero & Hpos).
    set (dir := PI * (-1 + 2 * (IZR k + 0.5) / IZR (m_alphaValuesCount p)))
      in *.
    eexists. split; [reflexivity |].
    cbn [CVehicleVelCmd_Holo.vel CVehicleVelCmd_Holo.ramp_time
         CVehicleVelCmd_Holo.dir_local CVehicleVelCmd_Holo.rot_speed
         internal_params_from_dir_and_dynstate vf T_ramp wf].
    pose proof (Rabs_pos (m_expr_w p (expr_vars p dir))) as Hw.
    split; [apply Rabs_pos |]. split; [reflexivity |].
    split; [exact Hrange |].
    unfold mrpt.signWithZero, mrpt.sign.
    split; [| split]; intros H.
    + specialize (Hneg H). split; [exact Hneg |].
      rewrite Reqb_false, Rltb_true by lra. lra.
    + specialize (Hzero H). split; [exact Hzero |].
      rewrite Reqb_true by exact Hzero. lra.
    + specialize (Hpos H). split; [exact Hpos |].
      rewrite Reqb_false, Rltb_false by lra. lra.
  - intros Hk. unfold directionToMotionCommand, mrpt.index2alpha.
    destruct (Z.ltb_spec k (m_alphaValuesCount p)); [lia | reflexivity].
Qed.

Lemma directionToMotionCommand_turns_towards_witness :
  ((15 < m_alphaValuesCount Examples.default_ptg)%Z ->
   exists cmd,
     directionToMotionCommand Examples.default_ptg 15 = Ok cmd /\
     0 <= CVehicleVelCmd_Holo.vel cmd /\
     CVehicleVelCmd_Holo.ramp_time cmd = T_ramp_max Examples.default_ptg /\
     - PI < CVehicleVelCmd_Holo.dir_local cmd < PI /\
     ((2 * 15 + 1 < m_alphaValuesCount Examples.default_ptg)%Z ->
      CVehicleVelCmd_Holo.dir_local cmd < 0 /\
      CVehicleVelCmd_Holo.rot_speed cmd <= 0) /\
     ((2 * 15 + 1 = m_alphaValuesCount Examples.default_ptg)%Z ->
      CVehicleVelCmd_Holo.dir_local cmd = 0 /\
      CVehicleVelCmd_Holo.rot_speed cmd = 0) /\
     ((2 * 15 + 1 > m_alphaValuesCount Examples.default_ptg)%Z ->
      0 < CVehicleVelCmd_Holo.dir_local cmd /\
      0 <= CVehicleVelCmd_Holo.rot_speed cmd)) /\
  ((m_alphaValuesCount Examples.default_ptg <= 15)%Z ->
   directionToMotionCommand Examples.default_ptg 15
   = Throw (AssertionFailed "k < num_paths")).
Proof.
  apply (directionToMotionCommand_turns_towards Examples.default_ptg 15).
  lia.
Defined.

Section HoloInverseMap.

Variable lu_solve : Mat44 -> Vec4 -> Vec4.

(** X12.  When the inverse map of the holonomic PTG reports a solution,
    the path index it gives is a valid one, [0 <= k < alphaValuesCount],
    and the target was not the origin. *)
Theorem holo_inverseMap_index_in_range (p : t) (x y : R) (k : Z) (d : R) :
  (0 < m_alphaValuesCount p <= 65535)%Z ->
  inverseMap_WS2TP lu_solve p x y = Ok (Some (k, d)) ->
  (0 <= k < m_alphaValuesCount p)%Z /\ (x <> 0 \/ y <> 0).
Proof.
  intros Hn H. unfold inverseMap_WS2TP, inverseMap_WS2TP_with_Tramp in H.
  destruct (Reqb_spec x 0) as [Hx | Hx]; destruct (Reqb_spec y 0) as [Hy | Hy];
    cbn [negb orb ASSERT_ bind] in H; try discriminate.
  all: split; [| tauto].
  all: destruct (newton_loop _ _ _ _ _ _) as [q sol_found];
    destruct (sol_found && _); cbn [bind] in H; [| discriminate];
    destruct (internal_getPathDist _ _ _ _ _); cbn [bind] in H;
      [| discriminate];
    injection H as <- _; apply alpha2index_range; exact Hn.
Qed.

End HoloInverseMap.

(** A run on numbers: the default PTG at rest and the target 0.54 m
    straight ahead, which the initial guess of the solver already
    reaches at t = 0.99 s. *)
Lemma default_newton_step :
  newton_body Examples.residual_solver Examples.default_ptg (54 / 100) 0
    (mkVec4 (99 / 100) 1 0 (9 / 10))
  = (mkVec4 (99 / 100) 1 0 (9 / 10), true).
Proof.
  unfold newton_body.
  cbn [v0 v1 v2 v3 Examples.default_ptg m_expr_v expr_vars var_V_MAX V_MAX
       T_ramp_max m_nav_dyn_state curVelLocal TTwist2D.vx TTwist2D.vy
       Examples.residual_solver].
  rewrite Rabs_R1. unfold mrpt.square, REL_SPEED_TO_CONSIDER_REACH_AND_STOP.
  rewrite (Rltb_false (1 * 1)) by lra.
  rewrite (Rleb_true (9 / 10)) by lra.
  replace (0.5 * (9 / 10) * (0 + 1) + (99 / 100 - 9 / 10) * 1 - 54 / 100)
    with 0 by lra.
  replace (0.5 * (9 / 10) * (0 + 0) + (99 / 100 - 9 / 10) * 0 - 0)
    with 0 by lra.
  replace (1 * 1 + 0 * 0 - 1 * 1) with 0 by lra.
  unfold vnorm, vsub, err_threshold. cbn [v0 v1 v2 v3].
  replace (0 * 0 + 0 * 0 + 0 * 0 + 0 * 0) with 0 by lra.
  rewrite sqrt_0. rewrite Rltb_true by lra.
  unfold Examples.residual_solver. cbn [v0 v1 v2 v3].
  f_equal. f_equal; lra.
Qed.

Lemma alpha2index_straight_ahead : mrpt.alpha2index (mrpt.atan2 0 1) 31 = 15%Z.
Proof.
  pose proof PI_RGT_0 as Hpi.
  assert (Ha : mrpt.atan2 0 1 = 0).
  { unfold mrpt.atan2. rewrite Rltb_true by lra.
    replace (0 / 1) with 0 by lra. apply atan_0. }
  rewrite Ha. unfold mrpt.alpha2index, mrpt.wrapToPi.
  rewrite wrapTo2Pi_nonneg by lra.
  replace ((0 + PI - PI) / PI) with 0 by (unfold Rdiv; ring).
  replace (0.5 * (31 * (1 + 0) - 1)) with (IZR 15) by lra.
  unfold mrpt.round. rewrite lrint_integer. reflexivity.
Qed.

Lemma default_inverseMap :
  inverseMap_WS2TP Examples.residual_solver Examples.default_ptg (54 / 100) 0
  = Ok (Some (15%Z, 9 / 100)).
Proof.
  unfold inverseMap_WS2TP, inverseMap_WS2TP_with_Tramp.
  rewrite nonzero_offset_check by (left; lra). cbn [ASSERT_ bind].
  cbn [Examples.default_ptg V_MAX T_ramp_max].
  replace (54 / 100 * (54 / 100) + 0 * 0) with (54 / 100 * (54 / 100)) by lra.
  rewrite sqrt_square by lra.
  replace (9 / 10 * 1.1) with (99 / 100) by lra.
  replace (1 * (54 / 100) / (54 / 100)) with 1 by lra.
  replace (1 * 0 / (54 / 100)) with 0 by lra.
  unfold newton_loop. rewrite default_newton_step.
  cbn [andb v0 v1 v2 v3].
  rewrite (Rleb_true 0) by lra. cbn [andb].
  assert (Hstep : to_uint32 (mrpt.trunc (99 / 100 / PATH_TIME_STEP)) = 99%Z).
  { replace (99 / 100 / PATH_TIME_STEP) with (IZR 99)
      by (unfold PATH_TIME_STEP; lra).
    unfold mrpt.trunc. rewrite Rltb_false by lra. rewrite ZfloorZ.
    reflexivity. }
  rewrite Hstep. unfold internal_getPathDist.
  cbn [Examples.default_ptg m_nav_dyn_state curVelLocal TTwist2D.vx
       TTwist2D.vy V_MAX m_alphaValuesCount refDistance].
  rewrite Rltb_false by (unfold PATH_TIME_STEP; lra).
  destruct (calc_trans_distance_from_rest 1 (9 / 10) 1 0 (9 / 10))
    as (rho & Hrho & E); [lra | lra | lra | unfold eps; lra |].
  replace (1 - 0) with (1 * 1 - 0) by lra.
  replace (0 - 0) with (1 * 0 - 0) by lra.
  rewrite Hrho. cbn [bind]. rewrite alpha2index_straight_ahead.
  do 3 f_equal. rewrite E. unfold PATH_TIME_STEP. lra.
Qed.

Lemma holo_inverseMap_index_in_range_witness :
  (0 <= 15 < m_alphaValuesCount Examples.default_ptg)%Z /\
  (54 / 100 <> 0 \/ 0 <> 0).
Proof.
  apply (holo_inverseMap_index_in_range Examples.residual_solver
           Examples.default_ptg (54 / 100) 0 15 (9 / 100)).
  - cbn. lia.
  - exact default_inverseMap.
Defined.

End HolonomicBlend_facts.

(* ================================================================= *)
(** ** TPS_RRTstar: clipping, free distance, neighbours, sampling    *)
(* ================================================================= *)

Module TPS_RRTstar_facts.
Import MotionPrimitivesTreeSE2 TPS_RRTstar StdMultimap_facts Notions.
Import TPS_RRTstar_spec.

#[local] Opaque maxAttempts.

(** *** Square clipping *)

Lemma rotate_back (a b c s : R) :
  s * s + c * c = 1 ->
  (a * c + b * s) * c - (- a * s + b * c) * s = a /\
  (a * c + b * s) * s + (- a * s + b * c) * c = b.
Proof.
  intros H. split.
  - replace ((a * c + b * s) * c - (- a * s + b * c) * s)
      with (a * (s * s + c * c)) by ring.
    rewrite H. ring.
  - replace ((a * c + b * s) * s + (- a * s + b * c) * c)
      with (b * (s * s + c * c)) by ring.
    rewrite H. ring.
Qed.

Lemma to_local_inverse (p : TPose2D.t) (g : TPoint2D) :
  CPose2D.composePoint (CPose2D.of_TPose2D p)
    (fst (to_local p g)) (snd (to_local p g)) = g.
Proof.
  destruct g as [gx gy]. unfold CPose2D.composePoint, to_local.
  cbn [CPose2D.of_TPose2D CPose2D.x CPose2D.y CPose2D.phi fst snd].
  pose proof (sin2_cos2 (TPose2D.phi p)) as H. unfold Rsqr in H.
  destruct (rotate_back (gx - TPose2D.x p) (gy - TPose2D.y p)
              (cos (TPose2D.phi p)) (sin (TPose2D.phi p)) H) as [H1 H2].
  f_equal; lra.
Qed.

(** X13.  Square clipping loses nothing but the frame: mapping the
    points [transform_pc_square_clipping] returns back to the global
    frame gives, in the same order, the global points whose offsets from
    the pose are within [MAX_DIST_XY] on both axes. *)
Theorem clipping_round_trip (inMap : list TPoint2D) (p : TPose2D.t)
  (MAX_DIST_XY : R) :
  map (fun o => CPose2D.composePoint (CPose2D.of_TPose2D p) (fst o) (snd o))
      (transform_pc_square_clipping inMap (CPose2D.of_TPose2D p) MAX_DIST_XY)
  = filter (in_square p MAX_DIST_XY) inMap.
Proof.
  rewrite transform_pc_square_clipping_spec. unfold local_obstacles_spec.
  induction (filter (in_square p MAX_DIST_XY) inMap) as [| g l IH];
    [reflexivity |].
  cbn [map]. rewrite IH, to_local_inverse. reflexivity.
Qed.


(** *** Free distance along a trajectory *)

Lemma tp_obstacles_loop_app (ptg : ptg_t) (st : TNavDynamicState)
  (k : trajectory_index_t) (l1 l2 : list TPoint2D) (out : R) :
  tp_obstacles_loop (l1 ++ l2) k ptg st out =
  (o <- tp_obstacles_loop l1 k ptg st out ;; tp_obstacles_loop l2 k ptg st o).
Proof.
  revert out. induction l1 as [| [ox oy] r IH]; intros out; [reflexivity |].
  cbn [app tp_obstacles_loop].
  destruct (updateTPObstacleSingle ptg st ox oy k out); cbn [bind];
    [apply IH | reflexivity].
Qed.

Lemma tp_obstacles_loop_shrinks (ptg : ptg_t) (st : TNavDynamicState)
  (k : trajectory_index_t) :
  (forall ox oy out out',
     updateTPObstacleSingle ptg st ox oy k out = Ok out' -> out' <= out) ->
  forall l out d, tp_obstacles_loop l k ptg st out = Ok d -> d <= out.
Proof.
  intros Hshrink.
  induction l as [| [ox oy] r IH]; intros out d H; cbn [tp_obstacles_loop] in H.
  - injection H as <-. lra.
  - destruct (updateTPObstacleSingle ptg st ox oy k out) as [o |] eqn:E;
      cbn [bind] in H; [| discriminate].
    apply Hshrink in E. apply IH in H. lra.
Qed.

(** X15.  With a PTG whose [updateTPObstacleSingle] never raises the
    distance it is given, more obstacles never give more free distance:
    the result of [tp_obstacles_single_path] on [l1 ++ l2] is at most
    the one on [l1], which is at most the initial value of
    [initTPObstacleSingle]. *)
Theorem free_distance_shrinks_with_obstacles (ptg : ptg_t)
  (st : TNavDynamicState) (k : trajectory_index_t)
  (l1 l2 : list TPoint2D) (d1 d12 : R) :
  (forall ox oy out out',
     updateTPObstacleSingle ptg st ox oy k out = Ok out' -> out' <= out) ->
  tp_obstacles_single_path k l1 ptg st = Ok d1 ->
  tp_obstacles_single_path k (l1 ++ l2) ptg st = Ok d12 ->
  d12 <= d1 /\
  exists d0, initTPObstacleSingle ptg st k 0 = Ok d0 /\ d1 <= d0.
Proof.
  unfold tp_obstacles_single_path. intros Hshrink H1 H12.
  destruct (initTPObstacleSingle ptg st k 0) as [d0 |]; cbn [bind] in *;
    [| discriminate].
  rewrite tp_obstacles_loop_app, H1 in H12. cbn [bind] in H12.
  split.
  - eapply tp_obstacles_loop_shrinks; eassumption.
  - exists d0. split; [reflexivity |].
    eapply tp_obstacles_loop_shrinks; eassumption.
Qed.

Lemma free_distance_shrinks_with_obstacles_witness :
  3 <= 10 /\
  exists d0,
    initTPObstacleSingle Examples.line_ptg Examples.at_rest 0%Z 0 = Ok d0 /\
    10 <= d0.
Proof.
  apply (free_distance_shrinks_with_obstacles Examples.line_ptg
           Examples.at_rest 0%Z [] [(3, 0)] 10 3).
  - intros ox oy out out'. cbn [Examples.line_ptg updateTPObstacleSingle].
    intros [= <-].
    destruct ((oy =? 0) && (ox >? 0)); cbn [andb]; [| lra].
    destruct (Rltb_spec ox out); lra.
  - reflexivity.
  - unfold tp_obstacles_single_path.
    cbn [Examples.line_ptg initTPObstacleSingle updateTPObstacleSingle
         bind app tp_obstacles_loop].
    rewrite Reqb_true by reflexivity.
    rewrite !Rltb_true by lra. reflexivity.
Defined.

(** *** Neighbour search *)

(** X16.  The neighbour search returns exactly the candidates: a tuple
    is in the multimap [find_nodes_within_ball] returns if and only if
    it stands for a node of the tree and a PTG of the set that were not
    pruned and whose exact distance query succeeded with [0 < d <= r],
    keyed by that [d]. *)
Theorem find_nodes_within_ball_exact (X : Externals) (w : World X)
  (tree : MotionPrimitivesTreeSE2.t) (query : TPose2D.t) (r : R)
  (trs : TrajectoriesAndRobotShape) (closeNodes : closest_nodes_list_t) :
  find_nodes_within_ball X w tree query r trs = Ok closeNodes ->
  forall e,
    In e closeNodes <-> emitted X w (nodes tree) (ptgs trs) query r e.
Proof.
  intros H e. split.
  - intros He. apply find_nodes_within_ball_well_formed in H.
    destruct H as [Hall _]. rewrite Forall_forall in Hall. apply Hall, He.
  - destruct e as [key [[[id j] k] d]].
    intros (-> & Hd & node & de & Hin & Hj & Hprune & Hdist).
    eapply find_nodes_within_ball_complete; try eassumption. lra.
Qed.

Lemma find_nodes_within_ball_exact_witness :
  In (1 - 0, (0%nat, 0%nat, 0%Z, 1 - 0))
     [(1 - 0, (0%nat, 0%nat, 0%Z, 1 - 0))] <->
  emitted Examples.ext0 Examples.world0 (nodes Examples.root_tree)
    (ptgs Examples.trs0) (pose Examples.ahead) 2
    (1 - 0, (0%nat, 0%nat, 0%Z, 1 - 0)).
Proof.
  apply (find_nodes_within_ball_exact Examples.ext0 Examples.world0
           Examples.root_tree (pose Examples.ahead) 2 Examples.trs0
           [(1 - 0, (0%nat, 0%nat, 0%Z, 1 - 0))]).
  exact find_nodes_example.
Defined.

Section NonPositiveDistance.

Variable X : Externals.
Variable w : World X.
Variable query : TPose2D.t.
Variable maxDistance : R.

Lemma ptg_loop_positive (id : TNodeID) (nodeState : SE2_KinState) :
  forall evaluators ptgIdx acc res,
    find_nodes_ptg_loop X w evaluators ptgIdx id nodeState query
      maxDistance acc = Ok res ->
    forall j de d k,
      nth_error evaluators j = Some de ->
      cannotBeNearerThan X de (ptg_state w (ptgIdx + j)%nat) nodeState query
        maxDistance = false ->
      distance X de (ptg_state w (ptgIdx + j)%nat) nodeState query
        = Ok (Some (d, k)) ->
      0 < d.
Proof.
  induction evaluators as [| de rest IH]; intros ptgIdx acc res Hres;
    cbn [find_nodes_ptg_loop] in Hres.
  - intros [| j] de d k Hj; discriminate Hj.
  - assert (Htail : forall acc',
      find_nodes_ptg_loop X w rest (S ptgIdx) id nodeState query
        maxDistance acc' = Ok res ->
      forall j de' d k,
        nth_error rest j = Some de' ->
        cannotBeNearerThan X de' (ptg_state w (ptgIdx + S j)%nat) nodeState
          query maxDistance = false ->
        distance X de' (ptg_state w (ptgIdx + S j)%nat) nodeState query
          = Ok (Some (d, k)) ->
        0 < d).
    { intros acc' Hloop j de' d k Hj Hp Hd.
      rewrite Nat.add_succ_r in Hp, Hd.
      exact (IH (S ptgIdx) acc' res Hloop j de' d k Hj Hp Hd). }
    intros [| j] de' d k Hj Hp Hd.
    + injection Hj as <-. rewrite Nat.add_0_r in Hp, Hd.
      rewrite Hp, Hd in Hres. cbn [bind] in Hres.
      destruct (Rltb_spec 0 d); [assumption | discriminate].
    + cbn [nth_error] in Hj.
      destruct (cannotBeNearerThan X de _ _ _ _);
        [exact (Htail _ Hres j de' d k Hj Hp Hd) |].
      destruct (distance X de _ _ _) as [[[dist trajIndex] |] | e];
        cbn [bind] in Hres;
        [| exact (Htail _ Hres j de' d k Hj Hp Hd) | discriminate].
      destruct (0 <? dist); cbn [ASSERT_ bind] in Hres; [| discriminate].
      destruct (maxDistance <? dist);
        exact (Htail _ Hres j de' d k Hj Hp Hd).
Qed.

Lemma node_loop_positive (evaluators : list ptg_t) :
  forall ns acc res,
    find_nodes_node_loop X w ns evaluators query maxDistance acc = Ok res ->
    forall id node j de d k,
      In (id, node) ns ->
      nth_error evaluators j = Some de ->
      cannotBeNearerThan X de (ptg_state w j) (state node) query
        maxDistance = false ->
      distance X de (ptg_state w j) (state node) query = Ok (Some (d, k)) ->
      0 < d.
Proof.
  induction ns as [| [id0 node0] rest IH]; intros acc res Hres;
    cbn [find_nodes_node_loop] in Hres.
  - intros id node j de d k [].
  - destruct (find_nodes_ptg_loop X w evaluators 0%nat id0 (state node0) query
                maxDistance acc) as [acc' | e] eqn:Hinner;
      cbn [bind] in Hres; [| discriminate].
    intros id node j de d k [[= <- <-] | Hin] Hj Hp Hd.
    + exact (ptg_loop_positive id0 (state node0) evaluators 0%nat acc acc'
               Hinner j de d k Hj Hp Hd).
    + exact (IH acc' res Hres id node j de d k Hin Hj Hp Hd).
Qed.

End NonPositiveDistance.

(** X17.  What makes the neighbour search throw: an empty tree
    ([!nodes.empty()]), an empty PTG set ([nPTGs >= 1]), and any node
    and PTG, not pruned, whose exact distance to the query is zero or
    negative. *)
Theorem find_nodes_within_ball_rejects (X : Externals) (w : World X)
  (tree : MotionPrimitivesTreeSE2.t) (query : TPose2D.t) (r : R)
  (trs : TrajectoriesAndRobotShape) :
  (nodes tree = [] ->
   find_nodes_within_ball X w tree query r trs
   = Throw (AssertionFailed "!nodes.empty()")) /\
  (nodes tree <> [] -> ptgs trs = [] ->
   find_nodes_within_ball X w tree query r trs
   = Throw (AssertionFailed "nPTGs >= 1")) /\
  (forall id node j de d k,
     In (id, node) (nodes tree) ->
     nth_error (ptgs trs) j = Some de ->
     cannotBeNearerThan X de (ptg_state w j) (state node) query r = false ->
     distance X de (ptg_state w j) (state node) query = Ok (Some (d, k)) ->
     d <= 0 ->
     exists e, find_nodes_within_ball X w tree query r trs = Throw e).
Proof.
  split; [| split].
  - intros H. unfold find_nodes_within_ball. rewrite H. reflexivity.
  - intros Hn Hp. unfold find_nodes_within_ball. rewrite Hp.
    destruct (nodes tree); [contradiction | reflexivity].
  - intros id node j de d k Hin Hj Hprune Hdist Hd.
    destruct (find_nodes_within_ball X w tree query r trs) as [res | e] eqn:E;
      [| exists e; reflexivity].
    exfalso. unfold find_nodes_within_ball in E.
    destruct (negb _); cbn [ASSERT_ bind] in E; [| discriminate].
    destruct (Nat.leb _ _); cbn [ASSERT_ bind] in E; [| discriminate].
    pose proof (node_loop_positive X w query r (ptgs trs) (nodes tree) [] res
                  E id node j de d k Hin Hj Hprune Hdist).
    lra.
Qed.

(** *** The cache of local obstacles *)

(** X18.  [cached_local_obstacles] throws [std::out_of_range] for a node
    that is not in the tree.  When it returns, an immediate second call
    for that node returns the same points and changes nothing, whatever
    obstacle cloud and clipping distance it is given; and the first call
    touched no cache entry of another node, no PTG state and not the
    random generator. *)
Theorem cached_local_obstacles_idempotent (X : Externals)
  (tree : MotionPrimitivesTreeSE2.t) (nodeID : TNodeID)
  (globalObstacles : list TPoint2D) (MAX_XY_DIST : R) (w : World X) :
  (StdMap.find nodeID (nodes tree) = None ->
   cached_local_obstacles X tree nodeID globalObstacles MAX_XY_DIST w
   = Raise (OutOfRange "map::at") w) /\
  (forall o w1,
     cached_local_obstacles X tree nodeID globalObstacles MAX_XY_DIST w
     = Return o w1 ->
     (forall otherObstacles other_dist,
        cached_local_obstacles X tree nodeID otherObstacles other_dist w1
        = Return o w1) /\
     (forall k, k <> nodeID ->
        StdMap.find k (local_obstacles_cache_ w1)
        = StdMap.find k (local_obstacles_cache_ w)) /\
     ptg_state w1 = ptg_state w /\ rng w1 = rng w).
Proof.
  split.
  - intros Hnone. unfold cached_local_obstacles, bindM, lift, StdMap.at_.
    rewrite Hnone. reflexivity.
  - intros o w1 H.
    pose proof (cached_local_obstacles_evolves X globalObstacles MAX_XY_DIST
                  tree nodeID w w1 o H) as (_ & node & ent & Hnode & Hent & Heq & Hobs).
    split; [| split].
    + intros otherObstacles other_dist. rewrite <- Hobs.
      eapply cached_hit; eassumption.
    + intros k Hk.
      destruct (StdMap.find nodeID (local_obstacles_cache_ w)) as [ent0 |] eqn:E.
      * destruct (TPose2D.eqb (globalNodePose ent0) (pose (state node))) eqn:Hp.
        -- rewrite (cached_hit X tree nodeID node Hnode _ _ w ent0 E Hp) in H.
           injection H as _ <-. reflexivity.
        -- rewrite (cached_miss X tree nodeID node Hnode _ _ w) in H.
           ++ injection H as _ <-. cbn [with_cache local_obstacles_cache_].
              apply StdMap_facts.find_insert_other. exact Hk.
           ++ intros ent' E'. congruence.
      * rewrite (cached_miss X tree nodeID node Hnode _ _ w) in H.
        -- injection H as _ <-. cbn [with_cache local_obstacles_cache_].
           apply StdMap_facts.find_insert_other. exact Hk.
        -- intros ent' E'. congruence.
    + destruct (StdMap.find nodeID (local_obstacles_cache_ w)) as [ent0 |] eqn:E.
      * destruct (TPose2D.eqb (globalNodePose ent0) (pose (state node))) eqn:Hp.
        -- rewrite (cached_hit X tree nodeID node Hnode _ _ w ent0 E Hp) in H.
           injection H as _ <-. split; reflexivity.
        -- rewrite (cached_miss X tree nodeID node Hnode _ _ w) in H.
           ++ injection H as _ <-. split; reflexivity.
           ++ intros ent' E'. congruence.
      * rewrite (cached_miss X tree nodeID node Hnode _ _ w) in H.
        -- injection H as _ <-. split; reflexivity.
        -- intros ent' E'. congruence.
Qed.


(** *** Sampling *)

Section Sampling.

Variable X : Externals.

Lemma drawUniform_Return (a b : R) (w w' : World X) (u : R) :
  rng_drawUniform X a b w = Return u w' ->
  local_obstacles_cache_ w' = local_obstacles_cache_ w /\
  ptg_state w' = ptg_state w.
Proof.
  unfold rng_drawUniform. destruct (drawUniform X (rng w) a b).
  intros [= _ <-]. split; reflexivity.
Qed.

Lemma euclidean_loop_sound (pi_ : PlannerInput) :
  forall n (w w' : World X) q,
    draw_random_euclidean_loop X n pi_ w = Return q w' ->
    euclidean_sample X pi_ q.
Proof.
  induction n as [| n IH]; intros w w' q H;
    cbn [draw_random_euclidean_loop] in H; [discriminate |].
  apply bindM_Return in H. destruct H as (qx & w1 & _ & H).
  apply bindM_Return in H. destruct H as (qy & w2 & _ & H).
  apply bindM_Return in H. destruct H as (qphi & w3 & _ & H).
  apply bindM_Return in H. destruct H as (closestObs & w4 & Hkd & H).
  apply lift_Return in Hkd. destruct Hkd as [Hkd ->].
  destruct (obstaclePointCollides X _ _) eqn:Hc; cbn [negb] in H.
  - eapply IH. exact H.
  - injection H as <- _. exists closestObs. split; assumption.
Qed.

Lemma tps_loop_sound (params : TPS_RRTstar_Parameters) (pi_ : PlannerInput)
  (tree_ : MotionPrimitivesTreeSE2.t) :
  forall n (w w' : World X) q,
    draw_random_tps_loop X params n pi_ tree_ w = Return q w' ->
    tps_sample X pi_ tree_ q.
Proof.
  induction n as [| n IH]; intros w w' q H;
    cbn [draw_random_tps_loop] in H; [discriminate |].
  apply bindM_Return in H. destruct H as (r1 & w1 & _ & H).
  apply bindM_Return in H. destruct H as (node & w2 & Hnode & H).
  apply lift_Return in Hnode. destruct Hnode as [Hnode ->].
  apply at_Ok in Hnode.
  apply bindM_Return in H. destruct H as (r2 & w2 & _ & H).
  apply bindM_Return in H. destruct H as (ptg & w3 & Hptg & H).
  apply lift_Return in Hptg. destruct Hptg as [Hptg ->].
  apply vector_at_Ok in Hptg.
  apply bindM_Return in H. destruct H as (r3 & w3 & _ & H).
  apply bindM_Return in H. destruct H as (trajDist & w4 & _ & H).
  apply bindM_Return in H. destruct H as ([] & w5 & Hupd & H).
  injection Hupd as <-.
  apply bindM_Return in H. destruct H as (stepOk & w6 & Hstep & H).
  apply on_ptg_Return in Hstep. destruct Hstep as [_ ->].
  destruct stepOk as [ptg_step |]; [| eapply IH; exact H].
  apply bindM_Return in H. destruct H as (rel & w6 & Hpose & H).
  apply on_ptg_Return in Hpose. destruct Hpose as [Hpose ->].
  cbn [ptg_state] in Hpose. rewrite Nat.eqb_refl in Hpose.
  destruct (outside_bbox _ _ _) eqn:Hbox; [eapply IH; exact H |].
  apply bindM_Return in H. destruct H as (closestObs & w6 & Hkd & H).
  apply lift_Return in Hkd. destruct Hkd as [Hkd ->].
  destruct (isPointInsideRobotShape ptg _ _) eqn:Hc; cbn [negb] in H;
    [eapply IH; exact H |].
  injection H as <- _. split; [exact Hbox |].
  eexists _, node, _, ptg, _, ptg_step, rel, closestObs.
  repeat split; eassumption.
Qed.

Lemma euclidean_loop_gives_up (pi_ : PlannerInput) :
  (forall pt, exists o, kdTreeClosestPoint2D X (obstacles pi_) pt = Ok o) ->
  (forall pt, obstaclePointCollides X pt (pi_ptgs pi_) = true) ->
  forall n (w : World X),
    exists w',
      draw_random_euclidean_loop X n pi_ w
      = Raise (RuntimeError "Could not draw collision-free random pose!") w'
      /\ local_obstacles_cache_ w' = local_obstacles_cache_ w
      /\ ptg_state w' = ptg_state w.
Proof.
  intros Hkd Hcol. induction n as [| n IH]; intros w.
  - exists w. repeat split.
  - cbn [draw_random_euclidean_loop]. unfold bindM at 1.
    destruct (rng_drawUniform X _ _ w) as [qx w1 | e w1] eqn:E1.
    2:{ unfold rng_drawUniform in E1.
        destruct (drawUniform X _ _ _); discriminate. }
    apply drawUniform_Return in E1. destruct E1 as [Hc1 Hp1].
    unfold bindM at 1.
    destruct (rng_drawUniform X _ _ w1) as [qy w2 | e w2] eqn:E2.
    2:{ unfold rng_drawUniform in E2.
        destruct (drawUniform X _ _ _); discriminate. }
    apply drawUniform_Return in E2. destruct E2 as [Hc2 Hp2].
    unfold bindM at 1.
    destruct (rng_drawUniform X _ _ w2) as [qphi w3 | e w3] eqn:E3.
    2:{ unfold rng_drawUniform in E3.
        destruct (drawUniform X _ _ _); discriminate. }
    apply drawUniform_Return in E3. destruct E3 as [Hc3 Hp3].
    unfold bindM at 1, lift at 1.
    destruct (Hkd (qx, qy)) as [o ->].
    rewrite Hcol. cbn [negb].
    destruct (IH w3) as (w' & -> & Hc & Hp).
    exists w'. split; [reflexivity |]. split; congruence.
Qed.

End Sampling.

(** X19.  A pose returned by [draw_random_free_pose] is the goal pose,
    or, when drawing in TP-space, a pose inside the box reached from a
    node of the tree along a PTG trajectory and whose closest obstacle
    point is outside the robot shape, or otherwise a pose whose closest
    obstacle point does not collide; the draw leaves the cache of local
    obstacles as it was. *)
Theorem draw_random_free_pose_sound (X : Externals)
  (params : TPS_RRTstar_Parameters) (pi_ : PlannerInput)
  (tree_ : MotionPrimitivesTreeSE2.t) (w w' : World X) (q : TPose2D.t) :
  draw_random_free_pose X params pi_ tree_ w = Return q w' ->
  local_obstacles_cache_ w' = local_obstacles_cache_ w /\
  (q = pose (stateGoal pi_) \/
   (drawInTPS params = true /\ tps_sample X pi_ tree_ q) \/
   (drawInTPS params = false /\ euclidean_sample X pi_ q)).
Proof.
  intros H. split; [exact (cache_stable_draw X params pi_ tree_ w q w' H) |].
  unfold draw_random_free_pose in H.
  apply bindM_Return in H. destruct H as (u & w1 & _ & H).
  destruct (u <? goalBias params).
  - injection H as <- _. left. reflexivity.
  - destruct (drawInTPS params).
    + right. left. split; [reflexivity |].
      unfold draw_random_tps in H. eapply tps_loop_sound. exact H.
    + right. right. split; [reflexivity |].
      unfold draw_random_euclidean in H. eapply euclidean_loop_sound. exact H.
Qed.

Lemma draw_random_free_pose_sound_witness :
  local_obstacles_cache_
    (mkWorld Examples.ext0 [] (fun _ => Examples.at_rest) 1%nat)
  = local_obstacles_cache_ Examples.world0 /\
  (pose Examples.ahead = pose (stateGoal Examples.input0) \/
   (drawInTPS Examples.params0 = true /\
    tps_sample Examples.ext0 Examples.input0 Examples.root_tree
      (pose Examples.ahead)) \/
   (drawInTPS Examples.params0 = false /\
    euclidean_sample Examples.ext0 Examples.input0 (pose Examples.ahead))).
Proof.
  apply (draw_random_free_pose_sound Examples.ext0 Examples.params0
           Examples.input0 Examples.root_tree Examples.world0).
  unfold draw_random_free_pose, bindM, rng_drawUniform.
  cbn [Examples.ext0 drawUniform Examples.world0 rng Examples.params0
       goalBias].
  rewrite Rltb_true by lra. reflexivity.
Defined.

(** X20.  When every pose collides, [draw_random_euclidean] gives up:
    after its 1000000 attempts it throws "Could not draw collision-free
    random pose!", with the cache of local obstacles and the PTG states
    as they were. *)
Theorem draw_random_euclidean_gives_up (X : Externals) (pi_ : PlannerInput)
  (w : World X) :
  (forall pt, exists o, kdTreeClosestPoint2D X (obstacles pi_) pt = Ok o) ->
  (forall pt, obstaclePointCollides X pt (pi_ptgs pi_) = true) ->
  exists w',
    draw_random_euclidean X pi_ w
    = Raise (RuntimeError "Could not draw collision-free random pose!") w'
    /\ local_obstacles_cache_ w' = local_obstacles_cache_ w
    /\ ptg_state w' = ptg_state w.
Proof.
  intros Hkd Hcol. unfold draw_random_euclidean.
  apply euclidean_loop_gives_up; assumption.
Qed.

Lemma draw_random_euclidean_gives_up_witness :
  exists w',
    draw_random_euclidean Examples.ext_blocked Examples.input0
      Examples.world_blocked
    = Raise (RuntimeError "Could not draw collision-free random pose!") w'
    /\ local_obstacles_cache_ w' = local_obstacles_cache_ Examples.world_blocked
    /\ ptg_state w' = ptg_state Examples.world_blocked.
Proof.
  apply (draw_random_euclidean_gives_up Examples.ext_blocked Examples.input0
           Examples.world_blocked).
  - intros pt. exists (0, 0). reflexivity.
  - intros pt. reflexivity.
Defined.

(** *** The clipping distance of [plan] *)

Lemma max_ref_distance_zero (l : list ptg_t) :
  Forall (fun ptg => getRefDistance ptg <= 0) l ->
  max_ref_distance l = 0.
Proof.
  unfold max_ref_distance.
  induction 1 as [| ptg l Hp _ IH]; [reflexivity |].
  cbn [fold_left]. unfold mrpt.keep_max at 2.
  rewrite Rltb_false by lra. exact IH.
Qed.

(** X21.  [plan] needs a PTG with a positive reference distance: when
    the four checks on the input pass but no PTG of the set has
    [getRefDistance() > 0], it throws on [ASSERT_(MAX_XY_DIST > 0)]
    before building the tree, leaving the planner, the PTGs and the
    random generator as they were. *)
Theorem plan_needs_positive_ref_distance (X : Externals)
  (params : TPS_RRTstar_Parameters) (in_ : PlannerInput) (w : World X) :
  initialized (pi_ptgs in_) = true ->
  TPose2D.eqb (worldBboxMin in_) (worldBboxMax in_) = false ->
  within_bbox (pose (stateStart in_)) (worldBboxMax in_) (worldBboxMin in_)
    = true ->
  within_bbox (pose (stateGoal in_)) (worldBboxMax in_) (worldBboxMin in_)
    = true ->
  Forall (fun ptg => getRefDistance ptg <= 0) (ptgs (pi_ptgs in_)) ->
  plan X params in_ w = Raise (AssertionFailed "MAX_XY_DIST > 0") w.
Proof.
  intros Hi Hb Hs Hg Hr. unfold plan, bindM, lift.
  rewrite Hi, Hb, Hs, Hg. cbn [negb ASSERT_].
  rewrite (max_ref_distance_zero _ Hr).
  rewrite Rltb_false by lra. reflexivity.
Qed.

Lemma plan_needs_positive_ref_distance_witness :
  plan Examples.ext0 Examples.params0 Examples.input_zero_ref Examples.world0
  = Raise (AssertionFailed "MAX_XY_DIST > 0") Examples.world0.
Proof.
  apply (plan_needs_positive_ref_distance Examples.ext0 Examples.params0
           Examples.input_zero_ref Examples.world0).
  - reflexivity.
  - run. reflexivity.
  - run. reflexivity.
  - run. reflexivity.
  - constructor; [cbn; lra | constructor].
Defined.

End TPS_RRTstar_facts.

(* ================================================================= *)
(** ** PoseOrPoint: the accessors and the alternative held           *)
(* ================================================================= *)

Module PoseOrPoint_facts.
Import PoseOrPoint.

(** X22.  A default [PoseOrPoint] is empty; exactly one of [isEmpty],
    [isPose], [isPoint] holds; [pose()] has a value exactly when
    [isPose()] (it throws otherwise) and [point()] exactly when
    [isPoint()]; a value built from a pose gives that pose back and has
    no point, and the other way round. *)
Theorem PoseOrPoint_accessors (v : PoseOrPoint.t) :
  isEmpty default = true /\
  ((isEmpty v = true /\ isPose v = false /\ isPoint v = false) \/
   (isEmpty v = false /\ isPose v = true /\ isPoint v = false) \/
   (isEmpty v = false /\ isPose v = false /\ isPoint v = true)) /\
  (isPose v = true <-> exists p, pose v = Some p) /\
  (isPoint v = true <-> exists p, point v = Some p) /\
  (forall p, isPose (of_pose p) = true /\ pose (of_pose p) = Some p /\
             point (of_pose p) = None) /\
  (forall p, isPoint (of_point p) = true /\ point (of_point p) = Some p /\
             pose (of_point p) = None).
Proof.
  split; [reflexivity |]. split.
  - destruct v; cbn; auto.
  - split; [| split; [| split]].
    + destruct v; cbn;
        (split; [intros H; try discriminate; eauto
                | intros [q H]; try discriminate; reflexivity]).
    + destruct v; cbn;
        (split; [intros H; try discriminate; eauto
                | intros [q H]; try discriminate; reflexivity]).
    + intros p. repeat split.
    + intros p. repeat split.
Qed.

End PoseOrPoint_facts.
